(** * Red-black tree ADT (redblack.c): shallow embedding and verification

    The C module keeps its nodes in a pointer graph with a shared sentinel
    node, a process-wide free list and per-tree handles.  The embedding
    follows that layout: node storage and tree handles are finite maps from
    addresses to records, every C function becomes a computation in a small
    state-and-error monad over that store, and every loop or recursion of the
    source is a structurally recursive function on a fuel argument that
    answers [OutOfFuel] when the bound is too small.

    The module is used from one thread at a time, so [G_LOCK]/[G_UNLOCK]
    around the free list are not represented.  The [int] results of size and
    height are 32-bit two's-complement integers: an addition that leaves the
    range wraps around ([int_add]).  The comparator is a pure function;
    release notifiers and the map visitor cannot reach the nodes, they act on
    a client state of their own. *)

From Stdlib Require Import ZArith Lia List.
From stdpp Require Import base option gmap list.

Local Open Scope Z_scope.

(** ** Data model *)

(** [pointer] is the untyped [void *] of keys, values and callback data. *)
Abbreviation pointer := Z.
Definition null : pointer := 0.

(** Addresses of nodes and of tree handles.  [NULL] is the C null pointer
    (the free-list terminator), [rb_null] the address of the static sentinel
    [s_null_node]. *)
Abbreviation addr := N.
Definition NULL : addr := 0%N.
Definition rb_null : addr := 1%N.

Inductive RBTreeNodeColor := BLACK | RED.

Definition color_eqb (a b : RBTreeNodeColor) : bool :=
  match a, b with
  | BLACK, BLACK | RED, RED => true
  | _, _ => false
  end.

Record RBTreeNode := mkNode {
  left : addr;
  right : addr;
  parent : addr;
  color : RBTreeNodeColor;
  key : pointer;
  value : pointer
}.

(** The initial contents of [s_null_node]. *)
Definition s_null_node : RBTreeNode :=
  mkNode rb_null rb_null rb_null BLACK null null.

Definition with_left (v : addr) (n : RBTreeNode) : RBTreeNode :=
  mkNode v (right n) (parent n) (color n) (key n) (value n).
Definition with_right (v : addr) (n : RBTreeNode) : RBTreeNode :=
  mkNode (left n) v (parent n) (color n) (key n) (value n).
Definition with_parent (v : addr) (n : RBTreeNode) : RBTreeNode :=
  mkNode (left n) (right n) v (color n) (key n) (value n).
Definition with_color (v : RBTreeNodeColor) (n : RBTreeNode) : RBTreeNode :=
  mkNode (left n) (right n) (parent n) v (key n) (value n).
Definition with_key (v : pointer) (n : RBTreeNode) : RBTreeNode :=
  mkNode (left n) (right n) (parent n) (color n) v (value n).
Definition with_value (v : pointer) (n : RBTreeNode) : RBTreeNode :=
  mkNode (left n) (right n) (parent n) (color n) (key n) v.

Inductive error := AssertFailed | BadPointer | OutOfFuel.

(** C [int]: 32 bits, two's complement.  An [int] is the integer it stands
    for, between [INT_MIN] and [INT_MAX]; a sum that leaves the range wraps
    around modulo 2^32, which is what the compiled code does (the C standard
    leaves signed overflow undefined). *)
Definition INT_MAX : Z := 2 ^ 31 - 1.
Definition INT_MIN : Z := - 2 ^ 31.
Definition int_wrap (z : Z) : Z := (z + 2 ^ 31) mod 2 ^ 32 - 2 ^ 31.
Definition int_add (a b : Z) : Z := int_wrap (a + b).

Section Model.

(** The client's own state: whatever the comparator data, the release
    notifiers and the map visitor act upon.  The tree code never looks
    inside it. *)
Context {U : Type}.

Definition CompareDataFunc := pointer -> pointer -> pointer -> Z.
Definition CompareFunc := pointer -> pointer -> Z.
Definition ReleaseNotify := pointer -> U -> U.
Definition MappingMapFunc := pointer -> pointer -> pointer -> U -> bool * U.

Record RBTree := mkTree {
  key_compare : CompareDataFunc;
  key_compare_data : pointer;
  key_release : option ReleaseNotify;
  value_release : option ReleaseNotify;
  root : addr
}.

Definition with_root (v : addr) (t : RBTree) : RBTree :=
  mkTree (key_compare t) (key_compare_data t) (key_release t)
         (value_release t) v.

Record world := mkWorld {
  nodes : gmap N RBTreeNode;
  trees : gmap N RBTree;
  node_free_list : addr;
  user : U
}.

(** ** The monad: state over [world], failing with an [error] *)

Inductive res (A : Type) := Ok (a : A) (w : world) | Err (e : error).
Arguments Ok {A} a w.
Arguments Err {A} e.

Definition M (A : Type) := world -> res A.

Definition ret {A} (a : A) : M A := fun w => Ok a w.
Definition fail {A} (e : error) : M A := fun _ => Err e.
Definition bind {A B} (m : M A) (f : A -> M B) : M B :=
  fun w => match m w with
           | Ok a w' => f a w'
           | Err e => Err e
           end.

End Model.

Arguments Ok {U A} a w.
Arguments Err {U A} e.
Arguments RBTree : clear implicits.
Arguments world : clear implicits.
Arguments res : clear implicits.
Arguments M : clear implicits.
Arguments ReleaseNotify : clear implicits.
Arguments MappingMapFunc : clear implicits.

Declare Scope rb_scope.
Delimit Scope rb_scope with rb.
Notation "x <- m ;; k" := (bind m (fun x => k))
  (at level 100, m at next level, right associativity) : rb_scope.
Notation "m ;;; k" := (bind m (fun _ => k))
  (at level 100, right associativity) : rb_scope.
Local Open Scope rb_scope.

Section Operations.

Context {U : Type}.

Abbreviation M := (M U).
Abbreviation world := (world U).
Abbreviation RBTree := (RBTree U).

(** *** Memory primitives *)

Definition load_node (a : addr) : M RBTreeNode :=
  fun w => match nodes w !! a with
           | Some n => Ok n w
           | None => Err BadPointer
           end.

Definition store_node (a : addr) (n : RBTreeNode) : M unit :=
  fun w => Ok tt (mkWorld (<[a := n]> (nodes w)) (trees w)
                          (node_free_list w) (user w)).

Definition update_node (a : addr) (f : RBTreeNode -> RBTreeNode) : M unit :=
  n <- load_node a ;; store_node a (f n).

Definition load_tree (t : addr) : M RBTree :=
  fun w => match trees w !! t with
           | Some T => Ok T w
           | None => Err BadPointer
           end.

Definition store_tree (t : addr) (T : RBTree) : M unit :=
  fun w => Ok tt (mkWorld (nodes w) (<[t := T]> (trees w))
                          (node_free_list w) (user w)).

Definition get_left (a : addr) : M addr := n <- load_node a ;; ret (left n).
Definition get_right (a : addr) : M addr := n <- load_node a ;; ret (right n).
Definition get_parent (a : addr) : M addr := n <- load_node a ;; ret (parent n).
Definition get_color (a : addr) : M RBTreeNodeColor :=
  n <- load_node a ;; ret (color n).
Definition get_key (a : addr) : M pointer := n <- load_node a ;; ret (key n).
Definition get_value (a : addr) : M pointer := n <- load_node a ;; ret (value n).

Definition set_left (a v : addr) : M unit := update_node a (with_left v).
Definition set_right (a v : addr) : M unit := update_node a (with_right v).
Definition set_parent (a v : addr) : M unit := update_node a (with_parent v).
Definition set_color (a : addr) (c : RBTreeNodeColor) : M unit :=
  update_node a (with_color c).
Definition set_key (a : addr) (k : pointer) : M unit := update_node a (with_key k).
Definition set_value (a : addr) (v : pointer) : M unit :=
  update_node a (with_value v).

Definition get_root (t : addr) : M addr := T <- load_tree t ;; ret (root T).
Definition set_root (t : addr) (v : addr) : M unit :=
  T <- load_tree t ;; store_tree t (with_root v T).

Definition get_free_list : M addr := fun w => Ok (node_free_list w) w.
Definition set_free_list (a : addr) : M unit :=
  fun w => Ok tt (mkWorld (nodes w) (trees w) a (user w)).

(** Calling a client callback: it transforms the client state only. *)
Definition call (f : U -> U) : M unit :=
  fun w => Ok tt (mkWorld (nodes w) (trees w) (node_free_list w) (f (user w))).

(** [unless (f == null) { f(arg); }]: the argument is only evaluated when
    the notifier is set. *)
Definition notify (f : option (ReleaseNotify U)) (arg : M pointer) : M unit :=
  match f with
  | Some g => p <- arg ;; call (g p)
  | None => ret tt
  end.

(** Calling the map visitor: it returns its verdict and transforms the
    client state. *)
Definition call_visitor (f : U -> bool * U) : M bool :=
  fun w => let r := f (user w) in
           Ok (fst r) (mkWorld (nodes w) (trees w) (node_free_list w) (snd r)).

(** Modelled from the spec: the [invariant(...)] macro comes from
    clear/internal.h, which is not among the sources; a violated
    precondition fails fast (assert/abort). *)
Definition invariant (b : bool) : M unit :=
  if b then ret tt else fail AssertFailed.

(** Modelled from the spec: [new_struct] comes from clear/mem.h, which is
    not among the sources; the allocator hands out storage at an address not
    in use, whose fields the caller initialises. *)
Definition new_struct_node : M addr :=
  fun w => Ok (fresh ({[NULL]} ∪ dom (nodes w))) w.

(** [new_struct(RBTree)] followed by the initialising stores: the handle
    lives at an address not in use.  [release(tree)] gives it back. *)
Definition place_tree (t : addr) (T : RBTree) : M addr :=
  fun w => Ok t (mkWorld (nodes w) (<[t := T]> (trees w))
                         (node_free_list w) (user w)).

Definition new_struct_tree (T : RBTree) : M addr :=
  fun w => place_tree (fresh ({[NULL]} ∪ dom (trees w))) T w.

Definition release_tree (t : addr) : M unit :=
  fun w => Ok tt (mkWorld (nodes w) (delete t (trees w))
                          (node_free_list w) (user w)).

(** *** rb_tree_node_new *)

Definition rb_tree_node_new (key value : pointer) (parent : addr)
    (color : RBTreeNodeColor) : M addr :=
  fl <- get_free_list ;;
  node <- (if N.eqb fl NULL
           then new_struct_node
           else (l <- get_left fl ;; set_free_list l ;;; ret fl)) ;;
  store_node node (mkNode rb_null rb_null parent color key value) ;;;
  ret node.

(** *** rb_tree_node_release *)

Fixpoint rb_tree_node_release (fuel : nat) (node : addr)
    (key_release value_release : option (ReleaseNotify U)) : M unit :=
  if N.eqb node rb_null then ret tt
  else match fuel with
       | O => fail OutOfFuel
       | S fuel' =>
           r <- get_right node ;;
           rb_tree_node_release fuel' r key_release value_release ;;;
           l <- get_left node ;;
           rb_tree_node_release fuel' l key_release value_release ;;;
           (* key_release(node->key) *)
           notify key_release (get_key node) ;;;
           (* value_release(node->key) *)
           notify value_release (get_key node) ;;;
           fl <- get_free_list ;;
           set_left node fl ;;;
           set_free_list node
       end.

(** *** Constructors *)

Definition rb_tree_new_full (key_compare : option CompareDataFunc)
    (key_compare_data : pointer)
    (key_release value_release : option (ReleaseNotify U)) : M addr :=
  match key_compare with
  | None => fail AssertFailed
  | Some cmp =>
      new_struct_tree
        (mkTree cmp key_compare_data key_release value_release rb_null)
  end.

Definition rb_tree_new (key_compare : option CompareFunc) : M addr :=
  invariant (bool_decide (is_Some key_compare)) ;;;
  rb_tree_new_full
    (match key_compare with
     | Some f => Some (fun a b (_ : pointer) => f a b)
     | None => None
     end) null None None.

Definition rb_tree_new_with_data (key_compare : option CompareDataFunc)
    (key_compare_data : pointer) : M addr :=
  invariant (bool_decide (is_Some key_compare)) ;;;
  rb_tree_new_full key_compare key_compare_data None None.

(** *** rb_tree_release *)

Definition rb_tree_release (fuel : nat) (tree : addr) : M unit :=
  invariant (negb (N.eqb tree NULL)) ;;;
  T <- load_tree tree ;;
  rb_tree_node_release fuel (root T) (key_release T) (value_release T) ;;;
  release_tree tree.

(** *** Rotations *)

Definition rb_tree_rotate_left (tree : addr) (x : addr) : M unit :=
  invariant (negb (N.eqb x rb_null)) ;;;
  xr <- get_right x ;;
  invariant (negb (N.eqb xr rb_null)) ;;;
  y <- get_right x ;;
  (* x->right = y->left *)
  yl <- get_left y ;;
  set_right x yl ;;;
  yl <- get_left y ;;
  (if negb (N.eqb yl rb_null)
   then (yl <- get_left y ;; set_parent yl x)
   else ret tt) ;;;
  (* y->parent = x->parent *)
  xp <- get_parent x ;;
  set_parent y xp ;;;
  xp <- get_parent x ;;
  (if N.eqb xp rb_null
   then set_root tree y
   else
     xp <- get_parent x ;;
     xpl <- get_left xp ;;
     if N.eqb x xpl
     then (xp <- get_parent x ;; set_left xp y)
     else (xp <- get_parent x ;; set_right xp y)) ;;;
  set_left y x ;;;
  set_parent x y.

Definition rb_tree_rotate_right (tree : addr) (y : addr) : M unit :=
  invariant (negb (N.eqb y rb_null)) ;;;
  yl <- get_left y ;;
  invariant (negb (N.eqb yl rb_null)) ;;;
  x <- get_left y ;;
  (* y->left = y->right *)
  yr <- get_right y ;;
  set_left y yr ;;;
  (* if (x->right != rb_null) y->right->parent = y *)
  xr <- get_right x ;;
  (if negb (N.eqb xr rb_null)
   then (yr <- get_right y ;; set_parent yr y)
   else ret tt) ;;;
  (* x->parent = y->parent *)
  yp <- get_parent y ;;
  set_parent x yp ;;;
  yp <- get_parent y ;;
  (if N.eqb yp rb_null
   then set_root tree x
   else
     yp <- get_parent y ;;
     ypl <- get_left yp ;;
     if N.eqb y ypl
     then (yp <- get_parent y ;; set_left yp x)
     else (yp <- get_parent y ;; set_right yp x)) ;;;
  set_right x y ;;;
  set_parent y x.

(** *** rb_tree_find *)

Definition get_grandparent (a : addr) : M addr :=
  p <- get_parent a ;; get_parent p.

(** The descent [until (iter == rb_null || found)]; returns the final
    [iters_parent], [iter] and [found]. *)
Fixpoint find_descend (fuel : nat) (tree : addr) (key : pointer)
    (iters_parent iter : addr) (found : bool) : M (addr * addr * bool) :=
  if N.eqb iter rb_null || found then ret (iters_parent, iter, found)
  else match fuel with
       | O => fail OutOfFuel
       | S fuel' =>
           T <- load_tree tree ;;
           k <- get_key iter ;;
           let cmp := key_compare T key k (key_compare_data T) in
           if cmp <? 0 then
             l <- get_left iter ;; find_descend fuel' tree key iter l found
           else if cmp =? 0 then
             find_descend fuel' tree key iter iter true
           else
             r <- get_right iter ;; find_descend fuel' tree key iter r found
       end.

(** The rebalancing loop
    [while (iter != tree->root && iter->parent->color == RED)]. *)
Fixpoint insert_restore (fuel : nat) (tree iter : addr) : M unit :=
  rt <- get_root tree ;;
  continue <- (if N.eqb iter rt then ret false
               else (p <- get_parent iter ;; c <- get_color p ;;
                     ret (color_eqb c RED))) ;;
  if negb continue then ret tt
  else match fuel with
       | O => fail OutOfFuel
       | S fuel' =>
           p <- get_parent iter ;;
           pp <- get_grandparent iter ;;
           ppl <- get_left pp ;;
           if N.eqb p ppl then
             iters_parent <- (pp <- get_grandparent iter ;; get_right pp) ;;
             uc <- get_color iters_parent ;;
             if color_eqb uc RED then
               p <- get_parent iter ;; set_color p BLACK ;;;
               set_color iters_parent BLACK ;;;
               pp <- get_grandparent iter ;; set_color pp RED ;;;
               pp <- get_grandparent iter ;;
               insert_restore fuel' tree pp
             else
               p <- get_parent iter ;;
               pr <- get_right p ;;
               iter <- (if N.eqb iter pr
                        then (p <- get_parent iter ;;
                              rb_tree_rotate_left tree p ;;; ret p)
                        else ret iter) ;;
               p <- get_parent iter ;; set_color p BLACK ;;;
               pp <- get_grandparent iter ;; set_color pp RED ;;;
               pp <- get_grandparent iter ;;
               rb_tree_rotate_right tree pp ;;;
               insert_restore fuel' tree iter
           else
             iters_parent <- (pp <- get_grandparent iter ;; get_left pp) ;;
             uc <- get_color iters_parent ;;
             if color_eqb uc RED then
               p <- get_parent iter ;; set_color p BLACK ;;;
               set_color iters_parent BLACK ;;;
               pp <- get_grandparent iter ;; set_color pp RED ;;;
               pp <- get_grandparent iter ;;
               insert_restore fuel' tree pp
             else
               p <- get_parent iter ;;
               pl <- get_left p ;;
               iter <- (if N.eqb iter pl
                        then (p <- get_parent iter ;;
                              rb_tree_rotate_right tree p ;;; ret p)
                        else ret iter) ;;
               p <- get_parent iter ;; set_color p BLACK ;;;
               pp <- get_grandparent iter ;; set_color pp RED ;;;
               pp <- get_grandparent iter ;;
               rb_tree_rotate_left tree pp ;;;
               insert_restore fuel' tree iter
       end.

Definition rb_tree_find (fuel : nat) (tree : addr) (key value : pointer)
    (insert replace : bool) : M addr :=
  invariant (negb replace || insert) ;;;
  rt <- get_root tree ;;
  d <- find_descend fuel tree key rb_null rt false ;;
  let '(iters_parent, iter, found) := d in
  if found && insert && replace then
    T <- load_tree tree ;;
    notify (key_release T) (get_key iter) ;;;
    notify (value_release T) (get_value iter) ;;;
    set_key iter key ;;;
    set_value iter value ;;;
    ret iter
  else if found && insert then
    T <- load_tree tree ;;
    notify (key_release T) (ret key) ;;;
    notify (value_release T) (get_value iter) ;;;
    set_value iter value ;;;
    ret iter
  else if found || negb insert then
    ret iter
  else
    new_node <- rb_tree_node_new key value iters_parent RED ;;
    (if N.eqb iters_parent rb_null then set_root tree new_node
     else
       T <- load_tree tree ;;
       nk <- get_key new_node ;;
       pk <- get_key iters_parent ;;
       let cmp := key_compare T nk pk (key_compare_data T) in
       if cmp <? 0 then set_left iters_parent new_node
       else set_right iters_parent new_node) ;;;
    insert_restore fuel tree new_node ;;;
    rt <- get_root tree ;;
    set_color rt BLACK ;;;
    ret new_node.

Definition rb_tree_insert (fuel : nat) (tree : addr) (key value : pointer)
    : M unit :=
  invariant (negb (N.eqb tree NULL)) ;;;
  rb_tree_find fuel tree key value true false ;;; ret tt.

Definition rb_tree_replace (fuel : nat) (tree : addr) (key value : pointer)
    : M unit :=
  invariant (negb (N.eqb tree NULL)) ;;;
  rb_tree_find fuel tree key value true true ;;; ret tt.

(** *** Size and height *)

Fixpoint rb_tree_node_count (fuel : nat) (node : addr) : M Z :=
  match fuel with
  | O => fail OutOfFuel
  | S fuel' =>
      (* count = 1; unless (node->left == rb_null) count += ... *)
      l <- get_left node ;;
      count <- (if negb (N.eqb l rb_null)
                then (c <- rb_tree_node_count fuel' l ;; ret (int_add 1 c))
                else ret 1) ;;
      (* unless (node->right == rb_null) count += ... *)
      r <- get_right node ;;
      (if negb (N.eqb r rb_null)
       then (c <- rb_tree_node_count fuel' r ;; ret (int_add count c))
       else ret count)
  end.

Definition rb_tree_size (fuel : nat) (tree : addr) : M Z :=
  invariant (negb (N.eqb tree NULL)) ;;;
  rt <- get_root tree ;;
  if negb (N.eqb rt rb_null) then rb_tree_node_count fuel rt else ret 0.

Fixpoint rb_tree_node_height (fuel : nat) (node : addr) : M Z :=
  if negb (N.eqb node rb_null) then
    match fuel with
    | O => fail OutOfFuel
    | S fuel' =>
        l <- get_left node ;;
        left_height <- (if negb (N.eqb l rb_null)
                        then rb_tree_node_height fuel' l else ret 0) ;;
        r <- get_right node ;;
        right_height <- (if negb (N.eqb r rb_null)
                         then rb_tree_node_height fuel' r else ret 0) ;;
        ret (int_add (Z.max left_height right_height) 1)
    end
  else ret 0.

Definition rb_tree_height (fuel : nat) (tree : addr) : M Z :=
  invariant (negb (N.eqb tree NULL)) ;;;
  rt <- get_root tree ;;
  if negb (N.eqb rt rb_null) then rb_tree_node_height fuel rt else ret 0.

(** *** Lookup *)

Definition rb_tree_lookup (fuel : nat) (tree : addr) (key : pointer)
    : M pointer :=
  invariant (negb (N.eqb tree NULL)) ;;;
  node <- rb_tree_find fuel tree key null false false ;;
  if negb (N.eqb node rb_null) then get_value node else ret null.

(** An out-parameter is [None] when the caller passes a null pointer and
    [Some c] when it points at a caller variable currently holding [c]; the
    function returns the contents of the two variables afterwards. *)
Definition rb_tree_lookup_extended (fuel : nat) (tree : addr) (key : pointer)
    (orig_key value : option pointer)
    : M (bool * option pointer * option pointer) :=
  invariant (negb (N.eqb tree NULL)) ;;;
  node <- rb_tree_find fuel tree key null false false ;;
  if negb (N.eqb node rb_null) then
    orig_key' <- (match orig_key with
                  | Some _ => k <- get_key node ;; ret (Some k)
                  | None => ret None
                  end) ;;
    (* unless (orig_key == null) { *value = node->value; } *)
    value' <- (match orig_key with
               | Some _ =>
                   v <- get_value node ;;
                   match value with
                   | Some _ => ret (Some v)
                   | None => fail BadPointer
                   end
               | None => ret value
               end) ;;
    ret (true, orig_key', value')
  else ret (false, orig_key, value).

(** *** Map *)

Fixpoint rb_tree_node_map (fuel : nat) (node : addr)
    (lambda : MappingMapFunc U) (closure : pointer) : M bool :=
  match fuel with
  | O => fail OutOfFuel
  | S fuel' =>
      l <- get_left node ;;
      go <- (if negb (N.eqb l rb_null)
             then rb_tree_node_map fuel' l lambda closure else ret true) ;;
      if negb go then ret false
      else
        k <- get_key node ;;
        v <- get_value node ;;
        go <- call_visitor (lambda k v closure) ;;
        if negb go then ret false
        else
          r <- get_right node ;;
          go <- (if negb (N.eqb r rb_null)
                 then rb_tree_node_map fuel' r lambda closure else ret true) ;;
          if negb go then ret false else ret true
  end.

Definition rb_tree_map (fuel : nat) (tree : addr)
    (func : option (MappingMapFunc U)) (closure : pointer) : M unit :=
  invariant (negb (N.eqb tree NULL)) ;;;
  match func with
  | None => fail AssertFailed
  | Some f =>
      rt <- get_root tree ;;
      if negb (N.eqb rt rb_null)
      then (rb_tree_node_map fuel rt f closure ;;; ret tt)
      else ret tt
  end.

(** *** rb_tree_node_successor *)

(** [iter = node->right; until (iter->left == rb_null) iter = iter->left]. *)
Fixpoint successor_down (fuel : nat) (iter : addr) : M addr :=
  l <- get_left iter ;;
  if N.eqb l rb_null then ret iter
  else match fuel with
       | O => fail OutOfFuel
       | S fuel' => l <- get_left iter ;; successor_down fuel' l
       end.

(** [until (iter == rb_null || node != iter->right)]. *)
Fixpoint successor_up (fuel : nat) (node iter : addr) : M addr :=
  stop <- (if N.eqb iter rb_null then ret true
           else (r <- get_right iter ;; ret (negb (N.eqb node r)))) ;;
  if stop then ret iter
  else match fuel with
       | O => fail OutOfFuel
       | S fuel' => p <- get_parent iter ;; successor_up fuel' iter p
       end.

Definition rb_tree_node_successor (fuel : nat) (node : addr) : M addr :=
  r <- get_right node ;;
  if negb (N.eqb r rb_null) then
    r <- get_right node ;; successor_down fuel r
  else
    p <- get_parent node ;; successor_up fuel node p.

(** *** rb_tree_node_remove_restore *)

Fixpoint rb_tree_node_remove_restore (fuel : nat) (tree x : addr) : M unit :=
  rt <- get_root tree ;;
  continue <- (if N.eqb x rt then ret false
               else (c <- get_color x ;; ret (color_eqb c BLACK))) ;;
  if negb continue then set_color x BLACK
  else match fuel with
       | O => fail OutOfFuel
       | S fuel' =>
           p <- get_parent x ;;
           pl <- get_left p ;;
           if N.eqb x pl then
             w <- (p <- get_parent x ;; get_right p) ;;
             wc <- get_color w ;;
             w <- (if color_eqb wc RED then
                     set_color w BLACK ;;;
                     p <- get_parent x ;; set_color p RED ;;;
                     p <- get_parent x ;; rb_tree_rotate_left tree p ;;;
                     p <- get_parent x ;; get_right p
                   else ret w) ;;
             wl <- get_left w ;;
             wlc <- get_color wl ;;
             both <- (if color_eqb wlc BLACK
                      then (wr <- get_right w ;; wrc <- get_color wr ;;
                            ret (color_eqb wrc BLACK))
                      else ret false) ;;
             if both then
               set_color w RED ;;;
               p <- get_parent x ;;
               rb_tree_node_remove_restore fuel' tree p
             else
               wr <- get_right w ;;
               wrc <- get_color wr ;;
               w <- (if color_eqb wrc BLACK then
                       wl <- get_left w ;; set_color wl BLACK ;;;
                       set_color w RED ;;;
                       rb_tree_rotate_right tree w ;;;
                       p <- get_parent x ;; get_right p
                     else ret w) ;;
               p <- get_parent x ;; pc <- get_color p ;; set_color w pc ;;;
               p <- get_parent x ;; set_color p BLACK ;;;
               wr <- get_right w ;; set_color wr BLACK ;;;
               p <- get_parent x ;; rb_tree_rotate_left tree p ;;;
               rt <- get_root tree ;;
               rb_tree_node_remove_restore fuel' tree rt
           else
             w <- (p <- get_parent x ;; get_left p) ;;
             wc <- get_color w ;;
             w <- (if color_eqb wc RED then
                     set_color w BLACK ;;;
                     p <- get_parent x ;; set_color p RED ;;;
                     p <- get_parent x ;; rb_tree_rotate_right tree p ;;;
                     p <- get_parent x ;; get_left p
                   else ret w) ;;
             wr <- get_right w ;;
             wrc <- get_color wr ;;
             both <- (if color_eqb wrc BLACK
                      then (wl <- get_left w ;; wlc <- get_color wl ;;
                            ret (color_eqb wlc BLACK))
                      else ret false) ;;
             if both then
               set_color w RED ;;;
               p <- get_parent x ;;
               rb_tree_node_remove_restore fuel' tree p
             else
               wl <- get_left w ;;
               wlc <- get_color wl ;;
               w <- (if color_eqb wlc BLACK then
                       wr <- get_right w ;; set_color wr BLACK ;;;
                       set_color w RED ;;;
                       rb_tree_rotate_left tree w ;;;
                       p <- get_parent x ;; get_left p
                     else ret w) ;;
               p <- get_parent x ;; pc <- get_color p ;; set_color w pc ;;;
               p <- get_parent x ;; set_color p BLACK ;;;
               wl <- get_left w ;; set_color wl BLACK ;;;
               p <- get_parent x ;; rb_tree_rotate_right tree p ;;;
               rt <- get_root tree ;;
               rb_tree_node_remove_restore fuel' tree rt
       end.

(** *** rb_tree_node_remove, rb_tree_remove, rb_tree_steal *)

(** The physical victim [y] chosen for target [z]. *)
Definition remove_victim (fuel : nat) (z : addr) : M addr :=
  zl <- get_left z ;;
  single <- (if N.eqb zl rb_null then ret true
             else (zr <- get_right z ;; ret (N.eqb zr rb_null))) ;;
  if single then ret z else rb_tree_node_successor fuel z.

Definition rb_tree_node_remove (fuel : nat) (tree z : addr) (notify_owner : bool)
    : M unit :=
  y <- remove_victim fuel z ;;
  yl <- get_left y ;;
  x <- (if negb (N.eqb yl rb_null) then get_left y else get_right y) ;;
  yp <- get_parent y ;;
  set_parent x yp ;;;
  yp <- get_parent y ;;
  (if N.eqb yp rb_null then set_root tree x
   else
     ypl <- get_left yp ;;
     if N.eqb y ypl then set_left yp x else set_right yp x) ;;;
  (* unless (y == z) { z->key = y->key; } *)
  (if negb (N.eqb y z) then (k <- get_key y ;; set_key z k) else ret tt) ;;;
  yc <- get_color y ;;
  (if color_eqb yc BLACK then rb_tree_node_remove_restore fuel tree x
   else ret tt) ;;;
  (* the notifiers receive y->key and y->value *)
  (if notify_owner then
     T <- load_tree tree ;;
     notify (key_release T) (get_key y) ;;;
     notify (value_release T) (get_value y)
   else ret tt) ;;;
  fl <- get_free_list ;;
  set_left y fl ;;;
  set_free_list y.

Definition rb_tree_remove (fuel : nat) (tree : addr) (key : pointer) : M unit :=
  invariant (negb (N.eqb tree NULL)) ;;;
  node <- rb_tree_find fuel tree key null false false ;;
  if negb (N.eqb node rb_null) then rb_tree_node_remove fuel tree node true
  else ret tt.

Definition rb_tree_steal (fuel : nat) (tree : addr) (key : pointer) : M unit :=
  invariant (negb (N.eqb tree NULL)) ;;;
  node <- rb_tree_find fuel tree key null false false ;;
  if negb (N.eqb node rb_null) then rb_tree_node_remove fuel tree node false
  else ret tt.

End Operations.

(** ** Abstract view of a stored tree

    [shape] is the unfolding of the pointer graph below an address: every
    non-sentinel address carries its node record, every sentinel link is a
    [Leaf].  [rep m a s] says that the node store [m] unfolds to [s] from
    address [a]. *)

Inductive shape :=
| Leaf
| Node (l : shape) (a : addr) (n : RBTreeNode) (r : shape).

Fixpoint rep (m : gmap N RBTreeNode) (a : addr) (s : shape) : Prop :=
  match s with
  | Leaf => a = rb_null
  | Node l a' n r =>
      a = a' /\ a <> rb_null /\ m !! a = Some n /\
      rep m (left n) l /\ rep m (right n) r
  end.

Fixpoint depth (s : shape) : nat :=
  match s with
  | Leaf => O
  | Node l _ _ r => S (Nat.max (depth l) (depth r))
  end.

Fixpoint shape_count (s : shape) : Z :=
  match s with
  | Leaf => 0
  | Node l _ _ r => 1 + shape_count l + shape_count r
  end.

Fixpoint shape_height (s : shape) : Z :=
  match s with
  | Leaf => 0
  | Node l _ _ r => Z.max (shape_height l) (shape_height r) + 1
  end.

(** The height as [rb_tree_node_height] computes it, in [int] arithmetic. *)
Fixpoint int_height (s : shape) : Z :=
  match s with
  | Leaf => 0
  | Node l _ _ r => int_add (Z.max (int_height l) (int_height r)) 1
  end.

(** Key/value pairs, left subtree first, then the node, then the right
    subtree. *)
Fixpoint shape_inorder (s : shape) : list (pointer * pointer) :=
  match s with
  | Leaf => []
  | Node l _ n r => shape_inorder l ++ (key n, value n) :: shape_inorder r
  end.

(** The node a comparator-driven descent ends at. *)
Fixpoint shape_find (cmp : CompareDataFunc) (data k : pointer) (s : shape)
    : addr :=
  match s with
  | Leaf => rb_null
  | Node l a n r =>
      let c := cmp k (key n) data in
      if c <? 0 then shape_find cmp data k l
      else if c =? 0 then a
      else shape_find cmp data k r
  end.

(** Rewriting the record stored at address [a] wherever it occurs. *)
Fixpoint shape_update (a : addr) (f : RBTreeNode -> RBTreeNode) (s : shape)
    : shape :=
  match s with
  | Leaf => Leaf
  | Node l b n r =>
      Node (shape_update a f l) b (if N.eqb a b then f n else n)
           (shape_update a f r)
  end.

(** Search-tree ordering with respect to a comparator. *)
Fixpoint ordered (cmp : CompareDataFunc) (data : pointer) (s : shape) : Prop :=
  match s with
  | Leaf => True
  | Node l _ n r =>
      ordered cmp data l /\ ordered cmp data r /\
      Forall (fun kv => cmp (fst kv) (key n) data < 0) (shape_inorder l) /\
      Forall (fun kv => cmp (fst kv) (key n) data > 0) (shape_inorder r)
  end.

(** Strictly ascending sequence of keys. *)
Inductive ascending (cmp : CompareDataFunc) (data : pointer)
    : list pointer -> Prop :=
| ascending_nil : ascending cmp data []
| ascending_cons k ks :
    Forall (fun k' => cmp k k' data < 0) ks ->
    ascending cmp data ks ->
    ascending cmp data (k :: ks).

Section Views.

Context {U : Type}.

(** Handle [t] is live, holds [T], and its root unfolds to [s]. *)
Definition tree_at (w : world U) (t : addr) (T : RBTree U) (s : shape) : Prop :=
  t <> NULL /\ trees w !! t = Some T /\ rep (nodes w) (root T) s.

(** What a notifier does to the client state, when there is one. *)
Definition released (f : option (ReleaseNotify U)) (p : pointer) (u : U) : U :=
  match f with
  | Some g => g p u
  | None => u
  end.

(** Calling the visitor along a list of pairs until it first answers
    [false]. *)
Fixpoint visit_all (f : MappingMapFunc U) (closure : pointer)
    (kvs : list (pointer * pointer)) (u : U) : bool * U :=
  match kvs with
  | [] => (true, u)
  | (k, v) :: rest =>
      let r := f k v closure u in
      if fst r then visit_all f closure rest (snd r) else (false, snd r)
  end.

Definition with_nodes (m : gmap N RBTreeNode) (w : world U) : world U :=
  mkWorld m (trees w) (node_free_list w) (user w).
Definition with_user (u : U) (w : world U) : world U :=
  mkWorld (nodes w) (trees w) (node_free_list w) u.

(** *** The red-black invariants of the data model

    Invariant 1 (every node is RED or BLACK) is the type of [color]; the
    record [red_black] below holds invariants 2 to 5 for the nodes linked
    from the root of tree [t]. *)

Inductive reachable (m : gmap N RBTreeNode) (r : addr) : addr -> Prop :=
| reach_root : reachable m r r
| reach_left a n :
    reachable m r a -> a <> rb_null -> m !! a = Some n ->
    reachable m r (left n)
| reach_right a n :
    reachable m r a -> a <> rb_null -> m !! a = Some n ->
    reachable m r (right n).

(** [path_blacks m a k]: some downward path from [a] to the sentinel crosses
    [k] BLACK nodes. *)
Inductive path_blacks (m : gmap N RBTreeNode) : addr -> nat -> Prop :=
| path_end : path_blacks m rb_null O
| path_left a n k :
    a <> rb_null -> m !! a = Some n -> path_blacks m (left n) k ->
    path_blacks m a (if color_eqb (color n) BLACK then S k else k)
| path_right a n k :
    a <> rb_null -> m !! a = Some n -> path_blacks m (right n) k ->
    path_blacks m a (if color_eqb (color n) BLACK then S k else k).

Definition color_at (m : gmap N RBTreeNode) (a : addr) (c : RBTreeNodeColor)
    : Prop :=
  exists n, m !! a = Some n /\ color n = c.

Record red_black (w : world U) (t : addr) : Prop := {
  rb_root_black :
    forall T, trees w !! t = Some T -> root T <> rb_null ->
              color_at (nodes w) (root T) BLACK;
  rb_sentinel_black : color_at (nodes w) rb_null BLACK;
  rb_no_red_red :
    forall T a n, trees w !! t = Some T -> reachable (nodes w) (root T) a ->
                  a <> rb_null -> nodes w !! a = Some n -> color n = RED ->
                  color_at (nodes w) (left n) BLACK /\
                  color_at (nodes w) (right n) BLACK;
  rb_black_height :
    forall T a k1 k2, trees w !! t = Some T ->
                      reachable (nodes w) (root T) a ->
                      path_blacks (nodes w) a k1 ->
                      path_blacks (nodes w) a k2 -> k1 = k2
}.

End Views.

(** ** A recording client

    The client state is the list of callback invocations seen so far. *)

Inductive event :=
| KeyRelease (p : pointer)
| ValueRelease (p : pointer)
| Visit (k v closure : pointer).

Definition log_key_release : ReleaseNotify (list event) :=
  fun p u => u ++ [KeyRelease p].
Definition log_value_release : ReleaseNotify (list event) :=
  fun p u => u ++ [ValueRelease p].
Definition log_visit (stop : pointer -> bool) : MappingMapFunc (list event) :=
  fun k v c u => (negb (stop k), u ++ [Visit k v c]).

(** Keys compared as integers. *)
Definition compare_pointers : CompareDataFunc := fun a b _ => a - b.

(** The process at start-up: only the sentinel exists, the free list is
    empty, nothing has been recorded. *)
Definition initial_world : world (list event) :=
  mkWorld {[ rb_null := s_null_node ]} ∅ NULL [].

Inductive operation :=
| Insert (k v : pointer)
| Replace (k v : pointer)
| Remove (k : pointer)
| Steal (k : pointer).

Definition apply_operation (fuel : nat) (t : addr) (o : operation)
    : M (list event) unit :=
  match o with
  | Insert k v => rb_tree_insert fuel t k v
  | Replace k v => rb_tree_replace fuel t k v
  | Remove k => rb_tree_remove fuel t k
  | Steal k => rb_tree_steal fuel t k
  end.

Fixpoint apply_operations (fuel : nat) (t : addr) (os : list operation)
    : M (list event) unit :=
  match os with
  | [] => ret tt
  | o :: os' => apply_operation fuel t o ;;; apply_operations fuel t os'
  end.

(** A fresh recording tree, then the operations in order. *)
Definition run (fuel : nat) (os : list operation) : res (list event) addr :=
  (t <- rb_tree_new_full (Some compare_pointers) null
                         (Some log_key_release) (Some log_value_release) ;;
   apply_operations fuel t os ;;; ret t) initial_world.

(** The map the operations describe: the value most recently stored under
    each key and not removed since. *)
Fixpoint stored (os : list operation) (acc : gmap Z pointer) : gmap Z pointer :=
  match os with
  | [] => acc
  | Insert k v :: os' => stored os' (<[k := v]> acc)
  | Replace k v :: os' => stored os' (<[k := v]> acc)
  | Remove k :: os' => stored os' (delete k acc)
  | Steal k :: os' => stored os' (delete k acc)
  end.

(** A constructor result that is a live, empty tree: the root is the
    sentinel, size and height are zero, every lookup answers [null] and a
    map leaves the client state as it was, whatever the visitor. *)
Definition fresh_and_empty {U : Type} (r : res U addr) : Prop :=
  exists t w T,
    r = Ok t w /\ t <> NULL /\ trees w !! t = Some T /\ root T = rb_null /\
    forall fuel k (f : MappingMapFunc U) closure,
      rb_tree_size fuel t w = Ok 0 w /\
      rb_tree_height fuel t w = Ok 0 w /\
      rb_tree_lookup fuel t k w = Ok null w /\
      rb_tree_map fuel t (Some f) closure w = Ok tt w.

(** *** A three-node tree: keys 1, 2, 3 with values 10, 20, 30 *)

Definition sample_tree : RBTree (list event) :=
  mkTree compare_pointers null (Some log_key_release)
         (Some log_value_release) 2%N.

Definition sample_root : RBTreeNode := mkNode 3%N 4%N rb_null BLACK 2 20.
Definition sample_low : RBTreeNode := mkNode rb_null rb_null 2%N RED 1 10.
Definition sample_high : RBTreeNode := mkNode rb_null rb_null 2%N RED 3 30.

Definition sample_world : world (list event) :=
  mkWorld (<[4%N := sample_high]> (<[3%N := sample_low]>
            (<[2%N := sample_root]> {[ rb_null := s_null_node ]})))
          {[ 1%N := sample_tree ]} NULL [].

Definition sample_shape : shape :=
  Node (Node Leaf 3%N sample_low Leaf) 2%N sample_root
       (Node Leaf 4%N sample_high Leaf).

(** *** Six insertions and one removal *)

Definition six_inserts_one_remove : list operation :=
  [Insert 0 0; Insert 4 40; Insert 5 50; Insert 1 10; Insert 2 20;
   Insert 3 30; Remove 4].

(** The store those operations leave behind: the sentinel at [rb_null] is
    RED, and the nodes of keys 2 and 3 (addresses 6 and 7) are no longer
    linked from the root. *)
Definition six_inserts_one_remove_world : world (list event) :=
  mkWorld
    (<[7%N := mkNode 1 1 6 RED 3 30]>
     (<[6%N := mkNode 1 7 5 BLACK 2 20]>
      (<[5%N := mkNode 2 3 1 BLACK 1 10]>
       (<[4%N := mkNode 0 1 3 BLACK 5 50]>
        (<[3%N := mkNode 1 1 5 BLACK 5 40]>
         (<[2%N := mkNode 1 1 5 BLACK 0 0]>
          {[ rb_null := mkNode 1 1 3 RED 0 0 ]}))))))
    {[ 1%N := mkTree compare_pointers null (Some log_key_release)
                     (Some log_value_release) 5%N ]}
    4%N [KeyRelease 5; ValueRelease 50].

(** *** Ten insertions: keys 7 down to 0, then 8 and 9 *)

Definition ten_inserts : list operation :=
  [Insert 7 70; Insert 6 60; Insert 5 50; Insert 4 40; Insert 3 30;
   Insert 2 20; Insert 1 10; Insert 0 0; Insert 8 80; Insert 9 90].

(** The store those insertions leave behind. *)
Definition ten_inserts_world : world (list event) :=
  mkWorld
    (<[11%N := mkNode 1 1 10 RED 9 90]>
     (<[10%N := mkNode 2 11 3 BLACK 8 80]>
      (<[9%N := mkNode 1 1 8 RED 0 0]>
       (<[8%N := mkNode 9 1 7 BLACK 1 10]>
        (<[7%N := mkNode 8 6 5 RED 2 20]>
         (<[6%N := mkNode 1 1 7 BLACK 3 30]>
          (<[5%N := mkNode 7 3 1 BLACK 4 40]>
           (<[4%N := mkNode 1 1 5 BLACK 5 50]>
            (<[3%N := mkNode 10 2 5 RED 6 60]>
             (<[2%N := mkNode 1 1 10 RED 7 70]>
              {[ rb_null := s_null_node ]}))))))))))
    {[ 1%N := mkTree compare_pointers null (Some log_key_release)
                     (Some log_value_release) 5%N ]}
    NULL [].

(** ** Further views of a stored tree *)

(** The address of the leftmost node, [rb_null] for an empty shape. *)
Fixpoint shape_leftmost (s : shape) : addr :=
  match s with
  | Leaf => rb_null
  | Node Leaf a _ _ => a
  | Node l _ _ _ => shape_leftmost l
  end.

(** The node addresses of a shape, in order. *)
Fixpoint shape_addrs (s : shape) : list addr :=
  match s with
  | Leaf => []
  | Node l a _ r => shape_addrs l ++ a :: shape_addrs r
  end.

(** *** Relations every successful run respects *)

(** [keeps R m]: whenever [m] returns, the world it returns is related by
    [R] to the world it started from. *)
Definition keeps {U A : Type} (R : world U -> world U -> Prop) (m : M U A)
    : Prop :=
  forall w x w', m w = Ok x w' -> R w w'.

(** The client state is the same: no callback ran. *)
Definition same_user {U : Type} (w w' : world U) : Prop := user w' = user w.

(** Every handle other than [t] is as it was, and handle [t] keeps its
    comparator, comparator data and notifiers: only its root may differ. *)
Definition same_handles {U : Type} (t : addr) (w w' : world U) : Prop :=
  (forall t', t' <> t -> trees w' !! t' = trees w !! t') /\
  (forall T, trees w !! t = Some T ->
             exists r, trees w' !! t = Some (with_root r T)).

(** Node addresses stay mapped: storage is never handed back. *)
Definition still_mapped {U : Type} (w w' : world U) : Prop :=
  forall a, is_Some (nodes w !! a) -> is_Some (nodes w' !! a).

(** *** The phases of [rb_tree_node_remove]

    The body of [rb_tree_node_remove] in four consecutive pieces: unlinking
    the victim [y] (with [x] the child that takes its place), rebalancing,
    notifying the owner, and pushing [y] on the free list. *)

Section RemovePhases.

Context {U : Type}.

Definition node_remove_unlink (fuel : nat) (tree z : addr)
    : M U (addr * addr) :=
  y <- remove_victim fuel z ;;
  yl <- get_left y ;;
  x <- (if negb (N.eqb yl rb_null) then get_left y else get_right y) ;;
  yp <- get_parent y ;;
  set_parent x yp ;;;
  yp <- get_parent y ;;
  (if N.eqb yp rb_null then set_root tree x
   else
     ypl <- get_left yp ;;
     if N.eqb y ypl then set_left yp x else set_right yp x) ;;;
  (if negb (N.eqb y z) then (k <- get_key y ;; set_key z k) else ret tt) ;;;
  ret (x, y).

Definition node_remove_rebalance (fuel : nat) (tree x y : addr) : M U unit :=
  yc <- get_color y ;;
  if color_eqb yc BLACK then rb_tree_node_remove_restore fuel tree x
  else ret tt.

Definition node_remove_notify (tree y : addr) (notify_owner : bool)
    : M U unit :=
  if notify_owner then
    T <- load_tree tree ;;
    notify (key_release T) (get_key y) ;;;
    notify (value_release T) (get_value y)
  else ret tt.

Definition node_remove_recycle (y : addr) : M U unit :=
  fl <- get_free_list ;;
  set_left y fl ;;;
  set_free_list y.

End RemovePhases.

(** *** Attaching a new leaf *)

(** The last node a descent for [k] visits ([ip] when the shape is empty):
    the [iters_parent] of [rb_tree_find]. *)
Fixpoint shape_parent (cmp : CompareDataFunc) (data k : pointer) (ip : addr)
    (s : shape) : addr :=
  match s with
  | Leaf => ip
  | Node l b n r =>
      let c := cmp k (key n) data in
      if c <? 0 then shape_parent cmp data k b l
      else if c =? 0 then b
      else shape_parent cmp data k b r
  end.

(** The shape with a RED leaf for [(k, v)] stored at address [a] hung where
    the descent for [k] leaves the tree; the node above it gets [a] as its
    left or right link. *)
Fixpoint shape_insert (cmp : CompareDataFunc) (data k v : pointer)
    (a ip : addr) (s : shape) : shape :=
  match s with
  | Leaf => Node Leaf a (mkNode rb_null rb_null ip RED k v) Leaf
  | Node l b n r =>
      let c := cmp k (key n) data in
      if c <? 0 then
        Node (shape_insert cmp data k v a b l) b
             (if N.eqb (left n) rb_null then with_left a n else n) r
      else if c =? 0 then s
      else
        Node l b (if N.eqb (right n) rb_null then with_right a n else n)
             (shape_insert cmp data k v a b r)
  end.

(** The allocator can serve a request without touching the tree [s]: the
    sentinel is stored, and the free list is empty or starts at a stored
    node that is neither the sentinel nor part of [s]. *)
Definition allocatable {U : Type} (w : world U) (s : shape) : Prop :=
  is_Some (nodes w !! rb_null) /\
  (node_free_list w = NULL \/
   (node_free_list w <> rb_null /\
    (node_free_list w ∉ shape_addrs s) /\
    is_Some (nodes w !! node_free_list w))).

(** *** A two-node tree: keys 1 and 2 with values 10 and 20 *)

Definition pair_root : RBTreeNode := mkNode 3%N rb_null rb_null BLACK 2 20.

Definition pair_world : world (list event) :=
  mkWorld (<[3%N := sample_low]>
            (<[2%N := pair_root]> {[ rb_null := s_null_node ]}))
          {[ 1%N := sample_tree ]} NULL [].

Definition pair_shape : shape :=
  Node (Node Leaf 3%N sample_low Leaf) 2%N pair_root Leaf.

(** *** Rotations *)

(** The subtree [x(A, y(B, C))] after [rb_tree_rotate_left]: [y(x(A, B), C)],
    with the three parent links and the two child links the function
    writes. *)
Definition rotated_left (x : addr) (nx : RBTreeNode) (y : addr)
    (ny : RBTreeNode) (A B C : shape) : shape :=
  Node (Node A x (with_parent y (with_right (left ny) nx))
             (shape_update (left ny) (with_parent x) B))
       y (with_left x (with_parent (parent nx) ny)) C.

(** *** Releasing a tree *)

(** The nodes of a shape, each before its subtrees. *)
Fixpoint shape_preorder (s : shape) : list addr :=
  match s with
  | Leaf => []
  | Node l a _ r => a :: shape_preorder l ++ shape_preorder r
  end.

(** The free list: nodes linked through [left], ending at [NULL]. *)
Fixpoint free_chain (m : gmap N RBTreeNode) (a : addr) (l : list addr)
    : Prop :=
  match l with
  | [] => a = NULL
  | b :: l' =>
      a = b /\ a <> NULL /\
      exists n, m !! a = Some n /\ free_chain m (left n) l'
  end.

(** The store and the head of the free list once [rb_tree_node_release] has
    gone through a shape: the right subtree, the left subtree, then the node
    itself, pushed through its [left] link. *)
Fixpoint release_store (s : shape) (fl : addr) (m : gmap N RBTreeNode)
    : gmap N RBTreeNode * addr :=
  match s with
  | Leaf => (m, fl)
  | Node l a n r =>
      let mr := release_store r fl m in
      let ml := release_store l (snd mr) (fst mr) in
      (<[a := with_left (snd ml) n]> (fst ml), a)
  end.

(** The client state once both notifiers have been called for every node of
    a shape, in the order of [rb_tree_node_release]; both are handed
    [node->key]. *)
Fixpoint released_all {U : Type}
    (key_release value_release : option (ReleaseNotify U)) (s : shape)
    (u : U) : U :=
  match s with
  | Leaf => u
  | Node l _ n r =>
      released value_release (key n)
        (released key_release (key n)
           (released_all key_release value_release l
              (released_all key_release value_release r u)))
  end.

(** *** Taking a node with at most one child out of the tree *)

Definition shape_root (s : shape) : addr :=
  match s with
  | Leaf => rb_null
  | Node _ a _ _ => a
  end.

Definition shape_root_update (f : RBTreeNode -> RBTreeNode) (s : shape)
    : shape :=
  match s with
  | Leaf => Leaf
  | Node l a n r => Node l a (f n) r
  end.

(** The record of the node a descent for [k] stops at. *)
Fixpoint shape_record (cmp : CompareDataFunc) (data k : pointer) (s : shape)
    : RBTreeNode :=
  match s with
  | Leaf => s_null_node
  | Node l _ n r =>
      let c := cmp k (key n) data in
      if c <? 0 then shape_record cmp data k l
      else if c =? 0 then n
      else shape_record cmp data k r
  end.

(** The node above the one a descent for [k] stops at ([ip] when it stops at
    the root of the shape). *)
Fixpoint shape_above (cmp : CompareDataFunc) (data k : pointer) (ip : addr)
    (s : shape) : addr :=
  match s with
  | Leaf => ip
  | Node l a n r =>
      let c := cmp k (key n) data in
      if c <? 0 then shape_above cmp data k a l
      else if c =? 0 then ip
      else shape_above cmp data k a r
  end.

(** [x = (y->left != rb_null) ? y->left : y->right] *)
Definition child_of (n : RBTreeNode) : addr :=
  if negb (N.eqb (left n) rb_null) then left n else right n.

(** What [rb_tree_node_remove] writes to the child [x] of a victim with
    record [ny] when no rebalancing loop runs: [x->parent = y->parent], and
    [x->color = BLACK] at the end of [rb_tree_node_remove_restore] when the
    victim was BLACK. *)
Definition unlink_child (ny n : RBTreeNode) : RBTreeNode :=
  if color_eqb (color ny) BLACK
  then with_color BLACK (with_parent (parent ny) n)
  else with_parent (parent ny) n.

(** The shape once the node a descent for [k] stops at has been taken out:
    its only subtree takes its place, the record at the root of that subtree
    rewritten by [f], and the node above points at it. *)
Fixpoint shape_unlink (cmp : CompareDataFunc) (data k : pointer)
    (f : RBTreeNode -> RBTreeNode) (s : shape) : shape :=
  match s with
  | Leaf => Leaf
  | Node l a n r =>
      let c := cmp k (key n) data in
      if c <? 0 then
        Node (shape_unlink cmp data k f l) a
             (with_left (shape_root (shape_unlink cmp data k f l)) n) r
      else if c =? 0 then
        shape_root_update f (match l with Leaf => r | Node _ _ _ _ => l end)
      else
        Node l a (with_right (shape_root (shape_unlink cmp data k f r)) n)
             (shape_unlink cmp data k f r)
  end.

(** * Verification *)

(** ** [int] arithmetic *)

Lemma int_wrap_small z : INT_MIN <= z <= INT_MAX -> int_wrap z = z.
Proof.
  unfold int_wrap, INT_MIN, INT_MAX. intros H.
  rewrite Z.mod_small by lia. lia.
Qed.

Lemma int_wrap_range z : INT_MIN <= int_wrap z <= INT_MAX.
Proof.
  unfold int_wrap, INT_MIN, INT_MAX.
  pose proof (Z.mod_pos_bound (z + 2 ^ 31) (2 ^ 32) ltac:(lia)). lia.
Qed.

Lemma int_wrap_idem z : int_wrap (int_wrap z) = int_wrap z.
Proof. apply int_wrap_small, int_wrap_range. Qed.

Lemma int_wrap_add_l a b : int_wrap (int_wrap a + b) = int_wrap (a + b).
Proof.
  unfold int_wrap. f_equal.
  replace ((a + 2 ^ 31) mod 2 ^ 32 - 2 ^ 31 + b + 2 ^ 31)
    with ((a + 2 ^ 31) mod 2 ^ 32 + b) by lia.
  rewrite Zplus_mod_idemp_l. f_equal. lia.
Qed.

Lemma int_wrap_add_r a b : int_wrap (a + int_wrap b) = int_wrap (a + b).
Proof. rewrite (Z.add_comm a), int_wrap_add_l. f_equal. lia. Qed.

(** ** Running monadic code *)

Section Running.

Context {U : Type}.
Implicit Types (w : world U) (a : addr) (n : RBTreeNode).

Lemma bind_ok {A B} (m : M U A) (f : A -> M U B) w x w' :
  m w = Ok x w' -> bind m f w = f x w'.
Proof. unfold bind. intros ->. reflexivity. Qed.

Lemma bind_ret_ok {A B} (m : M U A) (g : A -> B) w x w' :
  m w = Ok x w' -> bind m (fun y => ret (g y)) w = Ok (g x) w'.
Proof. unfold bind. intros ->. reflexivity. Qed.

Lemma load_node_ok w a n : nodes w !! a = Some n -> load_node a w = Ok n w.
Proof. unfold load_node. intros ->. reflexivity. Qed.

Lemma load_tree_ok w t (T : RBTree U) :
  trees w !! t = Some T -> load_tree t w = Ok T w.
Proof. unfold load_tree. intros ->. reflexivity. Qed.

Lemma get_left_ok w a n : nodes w !! a = Some n -> get_left a w = Ok (left n) w.
Proof. intros H. unfold get_left. rewrite (bind_ok _ _ _ _ _ (load_node_ok _ _ _ H)). reflexivity. Qed.

Lemma get_right_ok w a n : nodes w !! a = Some n -> get_right a w = Ok (right n) w.
Proof. intros H. unfold get_right. rewrite (bind_ok _ _ _ _ _ (load_node_ok _ _ _ H)). reflexivity. Qed.

Lemma get_key_ok w a n : nodes w !! a = Some n -> get_key a w = Ok (key n) w.
Proof. intros H. unfold get_key. rewrite (bind_ok _ _ _ _ _ (load_node_ok _ _ _ H)). reflexivity. Qed.

Lemma get_value_ok w a n : nodes w !! a = Some n -> get_value a w = Ok (value n) w.
Proof. intros H. unfold get_value. rewrite (bind_ok _ _ _ _ _ (load_node_ok _ _ _ H)). reflexivity. Qed.

Lemma get_root_ok w t (T : RBTree U) :
  trees w !! t = Some T -> get_root t w = Ok (root T) w.
Proof. intros H. unfold get_root. rewrite (bind_ok _ _ _ _ _ (load_tree_ok _ _ _ H)). reflexivity. Qed.

Lemma invariant_ok w b : b = true -> invariant b w = Ok tt w.
Proof. intros ->. reflexivity. Qed.

Lemma handle_check_ok w t : t <> NULL -> invariant (negb (N.eqb t NULL)) w = Ok tt w.
Proof.
  intros H. apply invariant_ok. apply negb_true_iff, N.eqb_neq, H.
Qed.

End Running.

Create HintDb rb.
#[local] Hint Resolve load_node_ok load_tree_ok get_left_ok get_right_ok
  get_key_ok get_value_ok get_root_ok handle_check_ok : rb.

(** One step of a computation whose first action is known to succeed. *)
Ltac mstep := erewrite bind_ok by eauto with rb.
Ltac msteps := repeat mstep.

Lemma rep_sentinel m s : rep m rb_null s -> s = Leaf.
Proof. destruct s; [reflexivity|]. simpl. intros (_ & H & _). congruence. Qed.

Lemma rep_not_sentinel m a s :
  rep m a s -> a <> rb_null ->
  exists l n r, s = Node l a n r /\ m !! a = Some n /\
                rep m (left n) l /\ rep m (right n) r.
Proof.
  destruct s as [|l b n r]; simpl.
  - congruence.
  - intros (-> & _ & Hn & Hl & Hr) _. eauto 10.
Qed.

Section ReadOnly.

Context {U : Type}.
Implicit Types (w : world U) (a t : addr) (n : RBTreeNode) (s : shape).

Lemma not_sentinel_test a : a <> rb_null -> negb (N.eqb a rb_null) = true.
Proof. intros H. apply negb_true_iff, N.eqb_neq, H. Qed.

(** The guarded recursive call [unless (child == rb_null) count += ...]:
    the count of the nodes below, in [int] arithmetic. *)
Lemma rb_tree_node_count_rep s : forall fuel a w,
  rep (nodes w) a s -> (depth s <= fuel)%nat ->
  (if negb (N.eqb a rb_null) then rb_tree_node_count fuel a else ret 0) w
  = Ok (int_wrap (shape_count s)) w.
Proof.
  induction s as [|l IHl b n r IHr]; intros fuel a w Hrep Hfuel.
  - simpl in Hrep. subst a. reflexivity.
  - destruct Hrep as (-> & Hnn & Hn & Hl & Hr).
    rewrite (not_sentinel_test _ Hnn).
    destruct fuel as [|fuel]; simpl in Hfuel; [lia|].
    cbn [rb_tree_node_count shape_count]. mstep.
    specialize (IHl fuel _ w Hl ltac:(lia)).
    specialize (IHr fuel _ w Hr ltac:(lia)).
    erewrite (bind_ok _ _ _ (int_wrap (1 + shape_count l)) w).
    2:{ destruct (negb (N.eqb (left n) rb_null)).
        - erewrite bind_ok by exact IHl. unfold int_add.
          rewrite int_wrap_add_r. reflexivity.
        - injection IHl as E. unfold ret. rewrite <- int_wrap_add_r, <- E.
          reflexivity. }
    mstep.
    destruct (negb (N.eqb (right n) rb_null)).
    + erewrite bind_ok by exact IHr. unfold int_add.
      rewrite int_wrap_add_l, int_wrap_add_r. reflexivity.
    + injection IHr as E. unfold ret.
      rewrite <- (int_wrap_add_r (1 + shape_count l)), <- E, Z.add_0_r.
      reflexivity.
Qed.

Lemma rb_tree_node_height_rep s : forall fuel a w,
  rep (nodes w) a s -> (depth s <= fuel)%nat ->
  (if negb (N.eqb a rb_null) then rb_tree_node_height fuel a else ret 0) w
  = Ok (int_height s) w.
Proof.
  induction s as [|l IHl b n r IHr]; intros fuel a w Hrep Hfuel.
  - simpl in Hrep. subst a. reflexivity.
  - destruct Hrep as (-> & Hnn & Hn & Hl & Hr).
    rewrite (not_sentinel_test _ Hnn).
    destruct fuel as [|fuel]; simpl in Hfuel; [lia|].
    cbn [rb_tree_node_height int_height].
    rewrite (not_sentinel_test _ Hnn). mstep.
    erewrite bind_ok by (apply IHl; [exact Hl | lia]). mstep.
    erewrite bind_ok by (apply IHr; [exact Hr | lia]). reflexivity.
Qed.

Lemma rb_tree_size_rep w t T s fuel :
  tree_at w t T s -> (depth s <= fuel)%nat ->
  rb_tree_size fuel t w = Ok (int_wrap (shape_count s)) w.
Proof.
  intros (Ht & HT & Hrep) Hfuel. unfold rb_tree_size. msteps.
  apply rb_tree_node_count_rep; assumption.
Qed.

Lemma rb_tree_height_rep w t T s fuel :
  tree_at w t T s -> (depth s <= fuel)%nat ->
  rb_tree_height fuel t w = Ok (int_height s) w.
Proof.
  intros (Ht & HT & Hrep) Hfuel. unfold rb_tree_height. msteps.
  apply rb_tree_node_height_rep; assumption.
Qed.

Lemma shape_find_stored cmp data k s m a :
  rep m a s -> shape_find cmp data k s <> rb_null ->
  exists n, m !! shape_find cmp data k s = Some n.
Proof.
  revert a. induction s as [|l IHl b n r IHr]; intros a Hrep Hf; simpl in *.
  - congruence.
  - destruct Hrep as (-> & Hnn & Hn & Hl & Hr).
    destruct (_ <? 0); [eauto|]. destruct (_ =? 0); eauto.
Qed.

(** The descent of [rb_tree_find] follows [shape_find] and leaves the store
    alone. *)
Lemma find_descend_rep s : forall fuel t (T : RBTree U) w k ip a,
  trees w !! t = Some T -> rep (nodes w) a s -> (depth s <= fuel)%nat ->
  exists ip',
    find_descend fuel t k ip a false w
    = Ok (ip', shape_find (key_compare T) (key_compare_data T) k s,
          negb (N.eqb (shape_find (key_compare T) (key_compare_data T) k s)
                      rb_null)) w.
Proof.
  induction s as [|l IHl b n r IHr]; intros fuel t T w k ip a HT Hrep Hfuel.
  - simpl in Hrep. subst a. exists ip. destruct fuel; reflexivity.
  - destruct Hrep as (-> & Hnn & Hn & Hl & Hr).
    destruct fuel as [|fuel]; simpl in Hfuel; [lia|].
    cbn [find_descend shape_find].
    apply N.eqb_neq in Hnn as Hb. rewrite Hb. cbn [orb]. msteps.
    destruct (_ <? 0) eqn:Elt.
    + mstep. apply (IHl fuel t T w k b (left n) HT Hl). lia.
    + destruct (_ =? 0) eqn:Eeq.
      * exists b. destruct fuel; cbn [find_descend]; rewrite Hb, orb_true_r;
          reflexivity.
      * mstep. apply (IHr fuel t T w k b (right n) HT Hr). lia.
Qed.

Lemma rb_tree_find_lookup_rep w t T s fuel k v :
  tree_at w t T s -> (depth s <= fuel)%nat ->
  rb_tree_find fuel t k v false false w
  = Ok (shape_find (key_compare T) (key_compare_data T) k s) w.
Proof.
  intros (Ht & HT & Hrep) Hfuel. unfold rb_tree_find. cbn [negb orb invariant].
  msteps.
  destruct (find_descend_rep s fuel t T w k rb_null (root T) HT Hrep Hfuel)
    as [ip' Hd].
  erewrite bind_ok by exact Hd. cbn.
  rewrite !andb_false_r, orb_true_r. reflexivity.
Qed.


Lemma visit_all_app (f : MappingMapFunc U) c l1 l2 u :
  visit_all f c (l1 ++ l2) u
  = if fst (visit_all f c l1 u)
    then visit_all f c l2 (snd (visit_all f c l1 u))
    else (false, snd (visit_all f c l1 u)).
Proof.
  revert u. induction l1 as [|[k v] l1 IH]; intros u; simpl.
  - reflexivity.
  - destruct (fst (f k v c u)); [apply IH | reflexivity].
Qed.

Lemma rb_tree_node_map_rep s : forall fuel a w (f : MappingMapFunc U) c,
  rep (nodes w) a s -> (depth s <= fuel)%nat ->
  (if negb (N.eqb a rb_null) then rb_tree_node_map fuel a f c else ret true) w
  = Ok (fst (visit_all f c (shape_inorder s) (user w)))
       (with_user (snd (visit_all f c (shape_inorder s) (user w))) w).
Proof.
  induction s as [|l IHl b n r IHr]; intros fuel a w f c Hrep Hfuel.
  - simpl in Hrep. subst a. destruct w; reflexivity.
  - destruct Hrep as (-> & Hnn & Hn & Hl & Hr).
    rewrite (not_sentinel_test _ Hnn).
    destruct fuel as [|fuel]; simpl in Hfuel; [lia|].
    cbn [rb_tree_node_map shape_inorder]. rewrite visit_all_app. mstep.
    erewrite bind_ok by (apply IHl; [exact Hl | lia]).
    destruct (fst (visit_all f c (shape_inorder l) (user w))); cbn [negb];
      [|reflexivity].
    set (u1 := snd (visit_all f c (shape_inorder l) (user w))).
    erewrite bind_ok by (apply get_key_ok; exact Hn).
    erewrite bind_ok by (apply get_value_ok; exact Hn).
    unfold bind at 1, call_visitor at 1. cbn [visit_all user with_user fst snd].
    destruct (fst (f (key n) (value n) c u1)); cbn [negb]; [|reflexivity].
    erewrite bind_ok by (apply get_right_ok; exact Hn).
    erewrite bind_ok by (apply IHr; [exact Hr | lia]).
    cbn [user with_user nodes trees node_free_list].
    destruct (fst (visit_all f c (shape_inorder r) _)); reflexivity.
Qed.

Lemma rb_tree_map_rep w t T s fuel (f : MappingMapFunc U) c :
  tree_at w t T s -> (depth s <= fuel)%nat ->
  rb_tree_map fuel t (Some f) c w
  = Ok tt (with_user (snd (visit_all f c (shape_inorder s) (user w))) w).
Proof.
  intros (Ht & HT & Hrep) Hfuel. unfold rb_tree_map. msteps.
  pose proof (rb_tree_node_map_rep s fuel (root T) w f c Hrep Hfuel) as H.
  destruct (negb (N.eqb (root T) rb_null)).
  - erewrite bind_ok by exact H. reflexivity.
  - unfold ret in H |- *. congruence.
Qed.

End ReadOnly.

(** ** The sample tree *)

Lemma sample_world_built :
  run 4 [Insert 2 20; Insert 1 10; Insert 3 30] = Ok 1%N sample_world.
Proof. vm_compute. reflexivity. Qed.

Lemma sample_tree_at : tree_at sample_world 1%N sample_tree sample_shape.
Proof.
  unfold tree_at. split; [discriminate|]. split; [reflexivity|].
  simpl. repeat split; try reflexivity; discriminate.
Qed.

(** ** Construction *)

Section Construction.

Context {U : Type}.

Lemma rb_tree_new_full_empty (w : world U) cmp data kr vr :
  fresh_and_empty (rb_tree_new_full (Some cmp) data kr vr w).
Proof.
  unfold rb_tree_new_full, new_struct_tree. cbv beta zeta.
  match goal with
  | |- context [fresh ?X] =>
      pose proof (is_fresh X) as Ht; revert Ht; generalize (fresh X)
  end.
  intros t Ht. unfold place_tree.
  assert (t <> NULL) as Hnn by (intros ->; apply Ht; set_solver).
  clear Ht. rename Hnn into Ht.
  set (T := mkTree cmp data kr vr rb_null).
  set (w' := mkWorld _ _ _ _).
  assert (HT : trees w' !! t = Some T) by apply lookup_insert_eq.
  assert (Hat : tree_at w' t T Leaf) by (repeat split; assumption).
  exists t, w', T. repeat split; try assumption; try reflexivity.
  - apply (rb_tree_size_rep w' t T Leaf); [exact Hat | simpl; lia].
  - apply (rb_tree_height_rep w' t T Leaf); [exact Hat | simpl; lia].
  - unfold rb_tree_lookup. mstep.
    erewrite bind_ok
      by (apply (rb_tree_find_lookup_rep w' t T Leaf); [exact Hat|simpl; lia]).
    reflexivity.
  - rewrite (rb_tree_map_rep w' t T Leaf); [|exact Hat|simpl; lia].
    reflexivity.
Qed.

End Construction.

(** C10. A tree freshly constructed by [rb_tree_new], [rb_tree_new_with_data]
    or [rb_tree_new_full] is empty: its root is the sentinel, size and
    height are 0, every lookup returns null, and map never calls the
    visitor (the client state is untouched whatever the visitor does). *)
Theorem C10_new_tree_is_empty {U : Type} (w : world U)
    (cmp2 : CompareFunc) (cmp : CompareDataFunc) (data : pointer)
    (kr vr : option (ReleaseNotify U)) :
  fresh_and_empty (rb_tree_new (Some cmp2) w) /\
  fresh_and_empty (rb_tree_new_with_data (Some cmp) data w) /\
  fresh_and_empty (rb_tree_new_full (Some cmp) data kr vr w).
Proof.
  split; [|split].
  - unfold rb_tree_new. erewrite bind_ok by reflexivity.
    apply rb_tree_new_full_empty.
  - unfold rb_tree_new_with_data. erewrite bind_ok by reflexivity.
    apply rb_tree_new_full_empty.
  - apply rb_tree_new_full_empty.
Qed.

(** ** Queries and absent keys *)

Section Queries.

Context {U : Type}.
Implicit Types (w : world U) (a t : addr) (n : RBTreeNode) (s : shape).

Lemma rb_tree_lookup_extended_absent w t T s fuel k ok ov :
  tree_at w t T s -> (depth s <= fuel)%nat ->
  shape_find (key_compare T) (key_compare_data T) k s = rb_null ->
  rb_tree_lookup_extended fuel t k ok ov w = Ok (false, ok, ov) w.
Proof.
  intros Hat Hfuel Habs. pose proof Hat as (Ht & HT & Hrep).
  unfold rb_tree_lookup_extended. mstep.
  erewrite bind_ok by (eapply rb_tree_find_lookup_rep; eauto).
  rewrite Habs. reflexivity.
Qed.

Lemma rb_tree_lookup_extended_present w t T s fuel k n :
  tree_at w t T s -> (depth s <= fuel)%nat ->
  shape_find (key_compare T) (key_compare_data T) k s <> rb_null ->
  nodes w !! shape_find (key_compare T) (key_compare_data T) k s = Some n ->
  (forall x y, rb_tree_lookup_extended fuel t k (Some x) (Some y) w
               = Ok (true, Some (key n), Some (value n)) w) /\
  (forall ov, rb_tree_lookup_extended fuel t k None ov w
              = Ok (true, None, ov) w).
Proof.
  intros Hat Hfuel Hpres Hn. pose proof Hat as (Ht & HT & Hrep).
  split; intros; unfold rb_tree_lookup_extended; mstep;
    (erewrite bind_ok by (eapply rb_tree_find_lookup_rep; eauto));
    rewrite (not_sentinel_test _ Hpres).
  - erewrite bind_ok
      by (apply (bind_ret_ok _ Some); apply get_key_ok; exact Hn).
    erewrite bind_ok
      by (apply (bind_ret_ok _ Some); apply get_value_ok; exact Hn).
    reflexivity.
  - reflexivity.
Qed.



End Queries.



(** ** In-order traversal of an ordered tree *)

Section Ordering.

Variable cmp : CompareDataFunc.
Variable data : pointer.

(** The comparator contract used here: swapping the arguments of a positive
    comparison gives a negative one, and "less than" is transitive. *)
Hypothesis cmp_swap : forall x y, cmp x y data > 0 -> cmp y x data < 0.
Hypothesis cmp_trans :
  forall x y z, cmp x y data < 0 -> cmp y z data < 0 -> cmp x z data < 0.

Lemma ascending_app l1 l2 :
  ascending cmp data l1 -> ascending cmp data l2 ->
  Forall (fun x => Forall (fun y => cmp x y data < 0) l2) l1 ->
  ascending cmp data (l1 ++ l2).
Proof.
  induction l1 as [|x l1 IH]; intros H1 H2 H12; simpl.
  - exact H2.
  - inversion H1 as [|? ? Hx Hrest]; subst.
    inversion H12 as [|? ? Hx2 Hrest2]; subst.
    constructor.
    + apply Forall_app. split; assumption.
    + apply IH; assumption.
Qed.

Lemma ordered_ascending s :
  ordered cmp data s -> ascending cmp data (map fst (shape_inorder s)).
Proof.
  induction s as [|l IHl b n r IHr]; simpl.
  - intros _. constructor.
  - intros (Hol & Hor & Hlt & Hgt).
    rewrite map_app. cbn [map fst].
    assert (Hnr : Forall (fun k' => cmp (key n) k' data < 0)
                         (map fst (shape_inorder r))).
    { apply Forall_map. eapply Forall_impl; [exact Hgt|].
      intros kv Hkv. apply cmp_swap, Hkv. }
    apply ascending_app.
    + apply IHl, Hol.
    + constructor; [exact Hnr | apply IHr, Hor].
    + apply Forall_map. eapply Forall_impl; [exact Hlt|].
      intros kv Hkv. cbn beta. constructor; [exact Hkv|].
      eapply Forall_impl; [exact Hnr|].
      intros k' Hk'. cbn beta in *. eapply cmp_trans; eassumption.
Qed.

End Ordering.

Lemma sample_ordered : ordered compare_pointers null sample_shape.
Proof.
  simpl. unfold compare_pointers.
  repeat split; repeat constructor; simpl; lia.
Qed.


(** ** Insert and replace on a key already present *)

Lemma shape_update_depth a f s : depth (shape_update a f s) = depth s.
Proof. induction s; simpl; congruence. Qed.


(** Overwriting the payload of a stored node keeps the unfolding, up to the
    rewritten record. *)
Lemma rep_update (m : gmap N RBTreeNode) a n f :
  m !! a = Some n -> left (f n) = left n -> right (f n) = right n ->
  forall s r, rep m r s -> rep (<[a := f n]> m) r (shape_update a f s).
Proof.
  intros Ha Hl Hr. induction s as [|l IHl b nb r IHr]; intros r0 Hrep.
  - exact Hrep.
  - destruct Hrep as (-> & Hnn & Hb & Hrl & Hrr).
    cbn [shape_update rep]. destruct (N.eqb a b) eqn:E.
    + apply N.eqb_eq in E. subst b.
      assert (nb = n) by congruence. subst nb.
      rewrite lookup_insert_eq, Hl, Hr. repeat split; auto.
    + apply N.eqb_neq in E. rewrite lookup_insert_ne by exact E.
      repeat split; auto.
Qed.

Section ExistingKey.

Context {U : Type}.
Implicit Types (w : world U) (a t : addr) (n : RBTreeNode) (s : shape).

Lemma notify_ok w (g : option (ReleaseNotify U)) (arg : M U pointer) p :
  arg w = Ok p w ->
  notify g arg w = Ok tt (with_user (released g p (user w)) w).
Proof.
  intros H. destruct g as [g|]; simpl.
  - erewrite bind_ok by exact H. reflexivity.
  - destruct w; reflexivity.
Qed.

Lemma set_value_ok w a n v :
  nodes w !! a = Some n ->
  set_value a v w = Ok tt (with_nodes (<[a := with_value v n]> (nodes w)) w).
Proof.
  intros H. unfold set_value, update_node. mstep. reflexivity.
Qed.

Lemma set_key_ok w a n k :
  nodes w !! a = Some n ->
  set_key a k w = Ok tt (with_nodes (<[a := with_key k n]> (nodes w)) w).
Proof.
  intros H. unfold set_key, update_node. mstep. reflexivity.
Qed.

Lemma found_descent w t T s fuel k :
  tree_at w t T s -> (depth s <= fuel)%nat ->
  shape_find (key_compare T) (key_compare_data T) k s <> rb_null ->
  exists ip,
    find_descend fuel t k rb_null (root T) false w
    = Ok (ip, shape_find (key_compare T) (key_compare_data T) k s, true) w.
Proof.
  intros (Ht & HT & Hrep) Hfuel Hpres.
  destruct (find_descend_rep s fuel t T w k rb_null (root T) HT Hrep Hfuel)
    as [ip Hd].
  exists ip. rewrite Hd, (not_sentinel_test _ Hpres). reflexivity.
Qed.

Lemma rb_tree_find_insert_existing w t T s fuel k v n :
  tree_at w t T s -> (depth s <= fuel)%nat ->
  shape_find (key_compare T) (key_compare_data T) k s <> rb_null ->
  nodes w !! shape_find (key_compare T) (key_compare_data T) k s = Some n ->
  rb_tree_find fuel t k v true false w
  = Ok (shape_find (key_compare T) (key_compare_data T) k s)
       (mkWorld
          (<[shape_find (key_compare T) (key_compare_data T) k s
             := with_value v n]> (nodes w))
          (trees w) (node_free_list w)
          (released (value_release T) (value n)
             (released (key_release T) k (user w)))).
Proof.
  intros Hat Hfuel Hpres Hn. pose proof Hat as (Ht & HT & Hrep).
  destruct (found_descent w t T s fuel k Hat Hfuel Hpres) as [ip Hd].
  unfold rb_tree_find. cbn [negb orb invariant]. msteps.
  cbn beta iota zeta. cbn [andb]. msteps.
  erewrite bind_ok by (apply notify_ok; reflexivity).
  erewrite bind_ok by (apply notify_ok, get_value_ok; exact Hn).
  erewrite bind_ok by (apply set_value_ok; exact Hn).
  reflexivity.
Qed.

Lemma rb_tree_find_replace_existing w t T s fuel k v n :
  tree_at w t T s -> (depth s <= fuel)%nat ->
  shape_find (key_compare T) (key_compare_data T) k s <> rb_null ->
  nodes w !! shape_find (key_compare T) (key_compare_data T) k s = Some n ->
  rb_tree_find fuel t k v true true w
  = Ok (shape_find (key_compare T) (key_compare_data T) k s)
       (mkWorld
          (<[shape_find (key_compare T) (key_compare_data T) k s
             := with_value v (with_key k n)]> (nodes w))
          (trees w) (node_free_list w)
          (released (value_release T) (value n)
             (released (key_release T) (key n) (user w)))).
Proof.
  intros Hat Hfuel Hpres Hn. pose proof Hat as (Ht & HT & Hrep).
  destruct (found_descent w t T s fuel k Hat Hfuel Hpres) as [ip Hd].
  unfold rb_tree_find. cbn [negb orb invariant]. msteps.
  cbn beta iota zeta. cbn [andb]. msteps.
  erewrite bind_ok by (apply notify_ok, get_key_ok; exact Hn).
  erewrite bind_ok by (apply notify_ok, get_value_ok; exact Hn).
  erewrite bind_ok by (apply set_key_ok; exact Hn).
  erewrite bind_ok
    by (apply set_value_ok; cbn [nodes with_nodes with_user];
        apply lookup_insert_eq).
  cbn [nodes trees node_free_list user with_nodes with_user].
  rewrite insert_insert_eq. reflexivity.
Qed.

End ExistingKey.



(** ** Where the code departs from the specification *)

Lemma reachable_right_eq (m : gmap N RBTreeNode) r a n b :
  reachable m r a -> a <> rb_null -> m !! a = Some n -> right n = b ->
  reachable m r b.
Proof. intros Ha Hnn Hn <-. eapply reach_right; eassumption. Qed.

(** C1. The red-black invariants do not survive the public mutations.
    After inserting 0, 4, 5, 1, 2, 3 and removing 4, every call having
    returned, the sentinel is RED.  After the ten insertions 7, 6, 5, 4, 3,
    2, 1, 0, 8, 9 the RED node holding key 6 has the RED node holding key 7
    as its right child. *)
Theorem C1_mutations_break_red_black :
  (run 3 six_inserts_one_remove = Ok 1%N six_inserts_one_remove_world /\
   ~ red_black six_inserts_one_remove_world 1%N) /\
  (run 10 ten_inserts = Ok 1%N ten_inserts_world /\
   ~ red_black ten_inserts_world 1%N).
Proof.
  split; (split; [vm_compute; reflexivity|]).
  - intros [_ Hsentinel _ _].
    destruct Hsentinel as (n & Hn & Hc). vm_compute in Hn.
    injection Hn as <-. discriminate.
  - intros [_ _ Hred _].
    destruct (Hred _ 3%N (mkNode 10 2 5 RED 6 60) eq_refl) as [_ Hright].
    + eapply (reachable_right_eq _ _ 5%N);
        [apply reach_root | discriminate | |]; reflexivity.
    + discriminate.
    + reflexivity.
    + reflexivity.
    + destruct Hright as (n & Hn & Hc). vm_compute in Hn.
      injection Hn as <-. discriminate.
Qed.

(** C2. Lookup after a removal returns the wrong value: with 1, 2, 3 stored
    under 10, 20, 30, removing key 2 makes lookup of key 3 answer 20, the
    value of the removed key.  Lookup also loses keys that were never
    removed: after inserting 7 down to 0, key 5 is reported absent. *)
Theorem C2_lookup_after_remove_and_after_rotation :
  (exists t w,
      run 4 [Insert 2 20; Insert 1 10; Insert 3 30; Remove 2] = Ok t w /\
      rb_tree_lookup 4 t 3 w = Ok 20 w /\
      stored [Insert 2 20; Insert 1 10; Insert 3 30; Remove 2] ∅ !! 3
      = Some 30) /\
  (exists t w,
      run 4 [Insert 7 70; Insert 6 60; Insert 5 50; Insert 4 40;
             Insert 3 30; Insert 2 20; Insert 1 10; Insert 0 0] = Ok t w /\
      rb_tree_lookup 4 t 5 w = Ok null w /\
      stored [Insert 7 70; Insert 6 60; Insert 5 50; Insert 4 40;
              Insert 3 30; Insert 2 20; Insert 1 10; Insert 0 0] ∅ !! 5
      = Some 50).
Proof.
  split; eexists _, _; (split; [vm_compute; reflexivity|]);
    (split; [vm_compute; reflexivity|]); reflexivity.
Qed.

(** C3. Removing key 2 from the tree holding 1, 2, 3 (values 10, 20, 30)
    calls the notifiers with key 3 and value 30, the payload of the
    successor, although key 3 stays in the tree; key 2 and value 20 are never
    released.  Stealing key 2 changes the store in the same way and calls no
    notifier. *)
Theorem C3_remove_releases_successor_payload :
  exists w_removed w_stolen,
    rb_tree_remove 2 1%N 2 sample_world = Ok tt w_removed /\
    user w_removed = [KeyRelease 3; ValueRelease 30] /\
    key <$> nodes w_removed !! 2%N = Some 3 /\
    rb_tree_steal 2 1%N 2 sample_world = Ok tt w_stolen /\
    user w_stolen = [] /\
    nodes w_stolen = nodes w_removed.
Proof.
  eexists _, _. split; [vm_compute; reflexivity|].
  split; [reflexivity|]. split; [vm_compute; reflexivity|].
  split; [vm_compute; reflexivity|]. split; reflexivity.
Qed.

(** C4. For the two-child root of the sample tree (key 2, value 20) the
    victim is the successor, the node of key 3; after the removal the target
    node holds the successor's key 3 but still its own value 20: the
    successor's value 30 was not copied. *)
Theorem C4_successor_value_not_copied :
  remove_victim 2 2%N sample_world = Ok 4%N sample_world /\
  nodes sample_world !! 4%N = Some sample_high /\
  exists w,
    rb_tree_node_remove 2 1%N 2%N false sample_world = Ok tt w /\
    nodes w !! 2%N = Some (mkNode 3 rb_null rb_null BLACK 3 20).
Proof.
  split; [vm_compute; reflexivity|]. split; [reflexivity|].
  eexists. split; vm_compute; reflexivity.
Qed.

(** C6. With a null [orig_key] and a valid [value] out-parameter, a lookup
    of the present key 2 returns true but leaves the caller's variable as it
    was (77) instead of storing the value 20; with a valid [orig_key] and a
    null [value] it writes through the null pointer. *)
Theorem C6_value_out_parameter_guarded_by_orig_key :
  rb_tree_lookup_extended 2 1%N 2 None (Some 77) sample_world
  = Ok (true, None, Some 77) sample_world /\
  rb_tree_lookup 2 1%N 2 sample_world = Ok 20 sample_world /\
  rb_tree_lookup_extended 2 1%N 2 (Some 77) None sample_world
  = Err BadPointer.
Proof. repeat split; vm_compute; reflexivity. Qed.

(** C7. Releasing the sample tree calls the value notifier with the keys 3,
    1, 2 of the nodes, never with their values 30, 10, 20. *)
Theorem C7_release_passes_key_to_value_release :
  exists w,
    rb_tree_release 2 1%N sample_world = Ok tt w /\
    user w = [KeyRelease 3; ValueRelease 3; KeyRelease 1; ValueRelease 1;
              KeyRelease 2; ValueRelease 2].
Proof. eexists. split; vm_compute; reflexivity. Qed.

(** C8. [rb_tree_map] does not visit the keys in ascending order on every
    tree the module builds.  After the insertions of 7, 6, 5, 4, 3, 2, 1, 0
    into an empty tree, every call having returned, a visitor that never asks
    to stop is called on the keys 0, 1, 2, 3, 4, 7, 6, 7 in this order: key 7
    comes before key 6 and a second time after it, and key 5 is not visited
    at all.  The walk is the in-order walk of the nodes as they are linked;
    [rb_tree_rotate_right] has linked them that way. *)
Theorem C8_map_after_right_rotations_is_not_ascending :
  exists t w w',
    run 4 [Insert 7 70; Insert 6 60; Insert 5 50; Insert 4 40;
           Insert 3 30; Insert 2 20; Insert 1 10; Insert 0 0] = Ok t w /\
    rb_tree_map 8 t (Some (log_visit (fun _ => false))) 0 w = Ok tt w' /\
    user w' = [Visit 0 0 0; Visit 1 10 0; Visit 2 20 0; Visit 3 30 0;
               Visit 4 40 0; Visit 7 70 0; Visit 6 60 0; Visit 7 70 0] /\
    ~ ascending compare_pointers null [0; 1; 2; 3; 4; 7; 6; 7].
Proof.
  eexists _, _, _.
  split; [vm_compute; reflexivity|].
  split; [vm_compute; reflexivity|].
  split; [reflexivity|].
  intros H.
  do 5 (inversion H as [|? ? _ H']; subst; clear H; rename H' into H).
  inversion H as [|? ? Hlt _]; subst.
  inversion Hlt as [|? ? H76 _]; subst.
  unfold compare_pointers in H76. lia.
Qed.

(** * Further properties of the module *)

(** ** What a lookup finds *)

Section LookupMeaning.

Variable cmp : CompareDataFunc.
Variable data : pointer.

(** The found node holds a pair of the in-order sequence whose key compares
    equal to the one looked up. *)
Lemma shape_find_hit k s m a :
  rep m a s -> shape_find cmp data k s <> rb_null ->
  exists n, m !! shape_find cmp data k s = Some n /\
            In (key n, value n) (shape_inorder s) /\
            cmp k (key n) data = 0.
Proof.
  revert a. induction s as [|l IHl b n r IHr]; intros a Hrep Hf; simpl in *.
  - congruence.
  - destruct Hrep as (-> & Hnn & Hn & Hl & Hr).
    destruct (cmp k (key n) data <? 0) eqn:Elt.
    + destruct (IHl _ Hl Hf) as (n' & Hn' & Hin & Hc).
      exists n'. repeat split; try assumption.
      apply in_or_app. left. exact Hin.
    + destruct (cmp k (key n) data =? 0) eqn:Eeq.
      * exists n. repeat split; try assumption.
        -- apply in_or_app. right. left. reflexivity.
        -- apply Z.eqb_eq, Eeq.
      * destruct (IHr _ Hr Hf) as (n' & Hn' & Hin & Hc).
        exists n'. repeat split; try assumption.
        apply in_or_app. right. right. exact Hin.
Qed.

Hypothesis cmp_swap : forall x y, cmp x y data > 0 -> cmp y x data < 0.
Hypothesis cmp_trans :
  forall x y z, cmp x y data < 0 -> cmp y z data < 0 -> cmp x z data < 0.
Hypothesis cmp_eq_sym : forall x y, cmp x y data = 0 -> cmp y x data = 0.

(** On a search-ordered shape a descent that ends at the sentinel has passed
    every key that could compare equal. *)
Lemma shape_find_miss k s m a :
  rep m a s -> ordered cmp data s -> shape_find cmp data k s = rb_null ->
  Forall (fun kv => cmp k (fst kv) data <> 0) (shape_inorder s).
Proof.
  revert a. induction s as [|l IHl b n r IHr]; simpl.
  - intros a _ _ _. constructor.
  - intros a (-> & Hnn & Hn & Hl & Hr) (Hol & Hor & Hlt & Hgt) Hf.
    destruct (cmp k (key n) data <? 0) eqn:Elt.
    + apply Z.ltb_lt in Elt.
      apply Forall_app. split; [eapply IHl; eassumption|].
      constructor; [simpl; lia|].
      eapply Forall_impl; [exact Hgt|]. intros kv Hkv. cbn beta in *.
      pose proof (cmp_trans _ _ _ Elt (cmp_swap _ _ Hkv)). lia.
    + apply Z.ltb_ge in Elt.
      destruct (cmp k (key n) data =? 0) eqn:Eeq; [congruence|].
      apply Z.eqb_neq in Eeq.
      assert (Hgt' : cmp k (key n) data > 0) by lia.
      apply Forall_app. split.
      * eapply Forall_impl; [exact Hlt|]. intros kv Hkv. cbn beta in *.
        intros E. apply cmp_eq_sym in E.
        pose proof (cmp_trans _ _ _ Hkv (cmp_swap _ _ Hgt')). lia.
      * constructor; [simpl; lia | eapply IHr; eassumption].
Qed.

End LookupMeaning.

Section LookupResults.

Context {U : Type}.
Implicit Types (w : world U) (a t : addr) (n : RBTreeNode) (s : shape).

Lemma rb_tree_lookup_present w t T s fuel k n :
  tree_at w t T s -> (depth s <= fuel)%nat ->
  shape_find (key_compare T) (key_compare_data T) k s <> rb_null ->
  nodes w !! shape_find (key_compare T) (key_compare_data T) k s = Some n ->
  rb_tree_lookup fuel t k w = Ok (value n) w.
Proof.
  intros Hat Hfuel Hpres Hn. pose proof Hat as (Ht & HT & Hrep).
  unfold rb_tree_lookup. mstep.
  erewrite bind_ok by (eapply rb_tree_find_lookup_rep; eauto).
  rewrite (not_sentinel_test _ Hpres). apply get_value_ok, Hn.
Qed.

Lemma rb_tree_lookup_absent w t T s fuel k :
  tree_at w t T s -> (depth s <= fuel)%nat ->
  shape_find (key_compare T) (key_compare_data T) k s = rb_null ->
  rb_tree_lookup fuel t k w = Ok null w.
Proof.
  intros Hat Hfuel Habs. pose proof Hat as (Ht & HT & Hrep).
  unfold rb_tree_lookup. mstep.
  erewrite bind_ok by (eapply rb_tree_find_lookup_rep; eauto).
  rewrite Habs. reflexivity.
Qed.

End LookupResults.

(** X1. On a search-ordered tree, [rb_tree_lookup_extended] answers true
    exactly when some stored key compares equal to the key looked up, and it
    then hands out a stored pair whose key compares equal; when it answers
    false no stored key compares equal and the caller's variables are left
    alone. *)
Theorem X1_lookup_extended_finds_exactly_the_stored_keys {U : Type}
    (w : world U) (t : addr) (T : RBTree U) (s : shape) (fuel : nat)
    (k x y : pointer) :
  tree_at w t T s ->
  (depth s <= fuel)%nat ->
  ordered (key_compare T) (key_compare_data T) s ->
  (forall a b, key_compare T a b (key_compare_data T) > 0 ->
               key_compare T b a (key_compare_data T) < 0) ->
  (forall a b c, key_compare T a b (key_compare_data T) < 0 ->
                 key_compare T b c (key_compare_data T) < 0 ->
                 key_compare T a c (key_compare_data T) < 0) ->
  (forall a b, key_compare T a b (key_compare_data T) = 0 ->
               key_compare T b a (key_compare_data T) = 0) ->
  (exists k0 v0,
      In (k0, v0) (shape_inorder s) /\
      key_compare T k k0 (key_compare_data T) = 0 /\
      rb_tree_lookup_extended fuel t k (Some x) (Some y) w
      = Ok (true, Some k0, Some v0) w)
  \/
  (Forall (fun kv => key_compare T k (fst kv) (key_compare_data T) <> 0)
          (shape_inorder s) /\
   rb_tree_lookup_extended fuel t k (Some x) (Some y) w
   = Ok (false, Some x, Some y) w).
Proof.
  intros Hat Hfuel Hord Hswap Htrans Hsym. pose proof Hat as (Ht & HT & Hrep).
  destruct (N.eq_dec (shape_find (key_compare T) (key_compare_data T) k s)
                     rb_null) as [E|E].
  - right. split.
    + eapply shape_find_miss; eassumption.
    + eapply rb_tree_lookup_extended_absent; eassumption.
  - left.
    destruct (shape_find_hit _ _ k s _ _ Hrep E) as (n & Hn & Hin & Hc).
    exists (key n), (value n). repeat split; try assumption.
    eapply rb_tree_lookup_extended_present; eassumption.
Qed.

Lemma X1_sample_lookup_3 :
  ((exists k0 v0,
       In (k0, v0) (shape_inorder sample_shape) /\
       compare_pointers 3 k0 null = 0 /\
       rb_tree_lookup_extended 2 1%N 3 (Some 0) (Some 0) sample_world
       = Ok (true, Some k0, Some v0) sample_world)
   \/
   (Forall (fun kv => compare_pointers 3 (fst kv) null <> 0)
           (shape_inorder sample_shape) /\
    rb_tree_lookup_extended 2 1%N 3 (Some 0) (Some 0) sample_world
    = Ok (false, Some 0, Some 0) sample_world)).
Proof.
  apply (X1_lookup_extended_finds_exactly_the_stored_keys sample_world 1%N
           sample_tree sample_shape 2%nat 3 0 0).
  - exact sample_tree_at.
  - simpl. lia.
  - exact sample_ordered.
  - intros a b. simpl. unfold compare_pointers. lia.
  - intros a b c. simpl. unfold compare_pointers. lia.
  - intros a b. simpl. unfold compare_pointers. lia.
Defined.

(** X2. [rb_tree_lookup] and [rb_tree_lookup_extended] agree: when the
    extended lookup finds the key, the plain lookup returns the value it
    reports; when it does not, the plain lookup returns null. *)
Theorem X2_lookup_agrees_with_lookup_extended {U : Type}
    (w : world U) (t : addr) (T : RBTree U) (s : shape) (fuel : nat)
    (k x y : pointer) :
  tree_at w t T s ->
  (depth s <= fuel)%nat ->
  (exists k0 v0,
      rb_tree_lookup_extended fuel t k (Some x) (Some y) w
      = Ok (true, Some k0, Some v0) w /\
      rb_tree_lookup fuel t k w = Ok v0 w)
  \/
  (rb_tree_lookup_extended fuel t k (Some x) (Some y) w
   = Ok (false, Some x, Some y) w /\
   rb_tree_lookup fuel t k w = Ok null w).
Proof.
  intros Hat Hfuel. pose proof Hat as (Ht & HT & Hrep).
  destruct (N.eq_dec (shape_find (key_compare T) (key_compare_data T) k s)
                     rb_null) as [E|E].
  - right. split.
    + eapply rb_tree_lookup_extended_absent; eassumption.
    + eapply rb_tree_lookup_absent; eassumption.
  - left. destruct (shape_find_stored _ _ _ _ _ _ Hrep E) as (n & Hn).
    exists (key n), (value n). split.
    + eapply rb_tree_lookup_extended_present; eassumption.
    + eapply rb_tree_lookup_present; eassumption.
Qed.

Lemma X2_sample_lookup_agreement :
  (exists k0 v0,
      rb_tree_lookup_extended 2 1%N 1 (Some 0) (Some 0) sample_world
      = Ok (true, Some k0, Some v0) sample_world /\
      rb_tree_lookup 2 1%N 1 sample_world = Ok v0 sample_world)
  \/
  (rb_tree_lookup_extended 2 1%N 1 (Some 0) (Some 0) sample_world
   = Ok (false, Some 0, Some 0) sample_world /\
   rb_tree_lookup 2 1%N 1 sample_world = Ok null sample_world).
Proof.
  apply (X2_lookup_agrees_with_lookup_extended sample_world 1%N sample_tree
           sample_shape 2%nat 1 0 0).
  - exact sample_tree_at.
  - simpl. lia.
Defined.

(** ** Size, height and traversal together *)

Lemma shape_count_length s :
  shape_count s = Z.of_nat (length (shape_inorder s)).
Proof.
  induction s as [|l IHl b n r IHr]; simpl; [reflexivity|].
  rewrite length_app. simpl. lia.
Qed.

Lemma shape_height_depth s : shape_height s = Z.of_nat (depth s).
Proof. induction s as [|l IHl b n r IHr]; simpl; lia. Qed.

Lemma shape_height_le_count s : shape_height s <= shape_count s.
Proof.
  induction s as [|l IHl b n r IHr]; simpl; [lia|].
  pose proof (shape_height_depth l). pose proof (shape_height_depth r). lia.
Qed.

Lemma shape_count_lt_pow s : shape_count s <= 2 ^ shape_height s - 1.
Proof.
  induction s as [|l IHl b n r IHr]; simpl; [reflexivity|].
  pose proof (shape_height_depth l) as Hl.
  pose proof (shape_height_depth r) as Hr.
  set (h := Z.max (shape_height l) (shape_height r)) in *.
  assert (0 <= h) by lia.
  rewrite Z.pow_add_r by lia. change (2 ^ 1) with 2.
  assert (2 ^ shape_height l <= 2 ^ h) by (apply Z.pow_le_mono_r; lia).
  assert (2 ^ shape_height r <= 2 ^ h) by (apply Z.pow_le_mono_r; lia).
  lia.
Qed.

Lemma visit_all_never_stops {U : Type} (f : MappingMapFunc U) c kvs :
  (forall k v u, fst (f k v c u) = true) ->
  forall u,
    visit_all f c kvs u
    = (true, fold_left (fun u kv => snd (f (fst kv) (snd kv) c u)) kvs u).
Proof.
  intros Hgo. induction kvs as [|[k v] kvs IH]; intros u; simpl.
  - reflexivity.
  - rewrite Hgo. apply IH.
Qed.

(** X3. With a visitor that never asks to stop, [rb_tree_map] calls it once
    on every pair of the in-order sequence, and [rb_tree_size] returns the
    number of those pairs as an [int]: the number itself when it is at most
    [INT_MAX], and the number reduced modulo 2^32 into the [int] range in
    general. *)
Theorem X3_size_counts_the_pairs_map_visits {U : Type}
    (w : world U) (t : addr) (T : RBTree U) (s : shape) (fuel : nat)
    (f : MappingMapFunc U) (closure : pointer) :
  tree_at w t T s ->
  (depth s <= fuel)%nat ->
  (forall k v u, fst (f k v closure u) = true) ->
  rb_tree_map fuel t (Some f) closure w
  = Ok tt (with_user
             (fold_left (fun u kv => snd (f (fst kv) (snd kv) closure u))
                        (shape_inorder s) (user w)) w) /\
  rb_tree_size fuel t w
  = Ok (int_wrap (Z.of_nat (length (shape_inorder s)))) w /\
  (Z.of_nat (length (shape_inorder s)) <= INT_MAX ->
   rb_tree_size fuel t w = Ok (Z.of_nat (length (shape_inorder s))) w).
Proof.
  intros Hat Hfuel Hgo.
  assert (Hsize : rb_tree_size fuel t w
                  = Ok (int_wrap (Z.of_nat (length (shape_inorder s)))) w).
  { rewrite <- shape_count_length. eapply rb_tree_size_rep; eassumption. }
  split; [|split].
  - rewrite (rb_tree_map_rep w t T s fuel f closure Hat Hfuel).
    rewrite (visit_all_never_stops f closure _ Hgo). reflexivity.
  - exact Hsize.
  - intros Hfit. rewrite Hsize, int_wrap_small; [reflexivity|].
    unfold INT_MIN. lia.
Qed.

Lemma X3_sample_size_and_full_map :
  rb_tree_map 2 1%N (Some (log_visit (fun _ => false))) 9 sample_world
  = Ok tt (with_user [Visit 1 10 9; Visit 2 20 9; Visit 3 30 9] sample_world)
  /\ rb_tree_size 2 1%N sample_world = Ok 3 sample_world.
Proof.
  destruct (X3_size_counts_the_pairs_map_visits sample_world 1%N sample_tree
              sample_shape 2%nat (log_visit (fun _ => false)) 9)
    as (Hmap & _ & Hsize).
  - exact sample_tree_at.
  - simpl. lia.
  - reflexivity.
  - split; [exact Hmap|]. apply Hsize. unfold INT_MAX. simpl. lia.
Defined.

Lemma int_height_small s :
  shape_height s <= INT_MAX -> int_height s = shape_height s.
Proof.
  induction s as [|l IHl b n r IHr]; cbn [int_height shape_height];
    [reflexivity|].
  intros H. pose proof (shape_height_depth l). pose proof (shape_height_depth r).
  rewrite IHl, IHr by lia. unfold int_add. apply int_wrap_small.
  unfold INT_MIN. lia.
Qed.

(** X4. When the number of nodes the store unfolds to fits an [int], size
    and height bound each other: the height never exceeds the size, a tree of
    height h holds at most 2^h - 1 nodes, and both are 0 exactly when the
    root is the sentinel. *)
Theorem X4_height_and_size_bound_each_other {U : Type}
    (w : world U) (t : addr) (T : RBTree U) (s : shape) (fuel : nat) :
  tree_at w t T s ->
  (depth s <= fuel)%nat ->
  shape_count s <= INT_MAX ->
  exists n h,
    rb_tree_size fuel t w = Ok n w /\
    rb_tree_height fuel t w = Ok h w /\
    n = shape_count s /\ h = shape_height s /\
    0 <= h <= n /\ n <= 2 ^ h - 1 /\
    (root T = rb_null <-> n = 0) /\ (root T = rb_null <-> h = 0).
Proof.
  intros Hat Hfuel Hfit. pose proof Hat as (Ht & HT & Hrep).
  pose proof (shape_height_depth s). pose proof (shape_height_le_count s).
  pose proof (shape_count_lt_pow s).
  exists (shape_count s), (shape_height s).
  split.
  { rewrite (rb_tree_size_rep w t T s fuel Hat Hfuel), int_wrap_small;
      [reflexivity|]. unfold INT_MIN. lia. }
  split.
  { rewrite (rb_tree_height_rep w t T s fuel Hat Hfuel), int_height_small;
      [reflexivity|lia]. }
  assert (Hempty : root T = rb_null <-> s = Leaf).
  { split.
    - intros E. rewrite E in Hrep. eapply rep_sentinel, Hrep.
    - intros ->. exact Hrep. }
  repeat split; try lia.
  - intros E. apply Hempty in E. subst s. reflexivity.
  - intros E. apply Hempty. destruct s; [reflexivity|].
    simpl in *. lia.
  - intros E. apply Hempty in E. subst s. reflexivity.
  - intros E. apply Hempty. destruct s; [reflexivity|].
    simpl in *. lia.
Qed.

Lemma X4_sample_bounds :
  exists n h,
    rb_tree_size 2 1%N sample_world = Ok n sample_world /\
    rb_tree_height 2 1%N sample_world = Ok h sample_world /\
    n = 3 /\ h = 2 /\
    0 <= h <= n /\ n <= 2 ^ h - 1 /\
    (root sample_tree = rb_null <-> n = 0) /\
    (root sample_tree = rb_null <-> h = 0).
Proof.
  apply (X4_height_and_size_bound_each_other sample_world 1%N sample_tree
           sample_shape 2%nat).
  - exact sample_tree_at.
  - simpl. lia.
  - unfold INT_MAX. simpl. lia.
Defined.

(** ** The in-order successor and the removal victim *)

Section Successor.

Context {U : Type}.
Implicit Types (w : world U) (a : addr) (n : RBTreeNode) (s : shape).

Lemma shape_leftmost_first (m : gmap N RBTreeNode) s : forall a,
  rep m a s -> a <> rb_null ->
  exists n rest,
    m !! shape_leftmost s = Some n /\ left n = rb_null /\
    shape_leftmost s <> rb_null /\
    shape_inorder s = (key n, value n) :: rest.
Proof.
  induction s as [|l IHl b n r IHr]; intros a Hrep Hnn.
  - simpl in Hrep. congruence.
  - destruct Hrep as (-> & _ & Hn & Hl & Hr).
    destruct l as [|ll lb ln lr].
    + simpl in Hl. exists n, (shape_inorder r). simpl. auto.
    + assert (Hlnn : left n <> rb_null) by (destruct Hl as (-> & ? & _); auto).
      destruct (IHl _ Hl Hlnn) as (n' & rest & Hn' & Hleft & Hne & Hin).
      exists n', (rest ++ (key n, value n) :: shape_inorder r).
      cbn [shape_leftmost shape_inorder] in *. rewrite Hin. auto.
Qed.

Lemma successor_down_rep s : forall fuel a w,
  rep (nodes w) a s -> a <> rb_null -> (depth s <= S fuel)%nat ->
  successor_down fuel a w = Ok (shape_leftmost s) w.
Proof.
  induction s as [|l IHl b n r IHr]; intros fuel a w Hrep Hnn Hfuel.
  - simpl in Hrep. congruence.
  - destruct Hrep as (-> & _ & Hn & Hl & Hr).
    destruct l as [|ll lb ln lr].
    + simpl in Hl. destruct fuel; cbn [successor_down]; mstep;
        rewrite Hl; reflexivity.
    + assert (Hlnn : left n <> rb_null) by (destruct Hl as (-> & ? & _); auto).
      destruct fuel as [|fuel]; [simpl in Hfuel; lia|].
      cbn [successor_down]. mstep.
      apply N.eqb_neq in Hlnn as Hb. rewrite Hb. mstep.
      apply IHl; [exact Hl | exact Hlnn | simpl in *; lia].
Qed.

Lemma rb_tree_node_successor_rep w z l n r fuel :
  rep (nodes w) z (Node l z n r) -> right n <> rb_null ->
  (depth r <= S fuel)%nat ->
  rb_tree_node_successor fuel z w = Ok (shape_leftmost r) w.
Proof.
  intros (_ & Hnn & Hn & Hl & Hr) Hright Hfuel.
  unfold rb_tree_node_successor. mstep.
  rewrite (not_sentinel_test _ Hright). mstep.
  apply successor_down_rep; assumption.
Qed.

Lemma remove_victim_rep w z l n r fuel :
  rep (nodes w) z (Node l z n r) -> (depth r <= S fuel)%nat ->
  remove_victim fuel z w
  = Ok (if N.eqb (left n) rb_null || N.eqb (right n) rb_null
        then z else shape_leftmost r) w.
Proof.
  intros Hrep Hfuel. pose proof Hrep as (_ & Hnn & Hn & Hl & Hr).
  unfold remove_victim. mstep.
  destruct (N.eqb (left n) rb_null) eqn:El; cbn [orb].
  - mstep. reflexivity.
  - erewrite bind_ok by (apply (bind_ret_ok _ (fun zr => N.eqb zr rb_null));
                         apply get_right_ok; exact Hn).
    destruct (N.eqb (right n) rb_null) eqn:Er; [reflexivity|].
    apply N.eqb_neq in Er. eapply rb_tree_node_successor_rep; eassumption.
Qed.

End Successor.

(** X5. For a node with a right child, [rb_tree_node_successor] returns,
    without changing anything, the leftmost node of the right subtree: the
    node holding the pair that follows the node's own pair in the in-order
    sequence, and that node has no left child. *)
Theorem X5_successor_holds_the_next_pair {U : Type}
    (w : world U) (z : addr) (l r : shape) (n : RBTreeNode) (fuel : nat) :
  rep (nodes w) z (Node l z n r) ->
  right n <> rb_null ->
  (depth r <= S fuel)%nat ->
  exists y ny rest,
    rb_tree_node_successor fuel z w = Ok y w /\
    y <> rb_null /\ nodes w !! y = Some ny /\ left ny = rb_null /\
    shape_inorder (Node l z n r)
    = shape_inorder l ++ (key n, value n) :: (key ny, value ny) :: rest.
Proof.
  intros Hrep Hright Hfuel. pose proof Hrep as (_ & Hnn & Hn & Hl & Hr).
  destruct (shape_leftmost_first _ r _ Hr Hright)
    as (ny & rest & Hny & Hleft & Hne & Hin).
  exists (shape_leftmost r), ny, rest.
  split; [eapply rb_tree_node_successor_rep; eassumption|].
  repeat split; try assumption.
  cbn [shape_inorder]. rewrite Hin. reflexivity.
Qed.

Lemma sample_root_rep :
  rep (nodes sample_world) 2%N
      (Node (Node Leaf 3%N sample_low Leaf) 2%N sample_root
            (Node Leaf 4%N sample_high Leaf)).
Proof. simpl. repeat split; try reflexivity; discriminate. Qed.

Lemma X5_sample_successor_of_root :
  exists y ny rest,
    rb_tree_node_successor 0 2%N sample_world = Ok y sample_world /\
    y <> rb_null /\ nodes sample_world !! y = Some ny /\
    left ny = rb_null /\
    shape_inorder sample_shape
    = [(1, 10)] ++ (2, 20) :: (key ny, value ny) :: rest.
Proof.
  apply (X5_successor_holds_the_next_pair sample_world 2%N
           (Node Leaf 3%N sample_low Leaf) (Node Leaf 4%N sample_high Leaf)
           sample_root 0%nat).
  - exact sample_root_rep.
  - discriminate.
  - simpl. lia.
Defined.

(** X6. The node that remove and steal unlink for a target: the target
    itself when one of its children is the sentinel, otherwise the node that
    holds the next pair of the in-order sequence.  Either way the victim has
    at most one child, and choosing it changes nothing. *)
Theorem X6_victim_has_at_most_one_child {U : Type}
    (w : world U) (z : addr) (l r : shape) (n : RBTreeNode) (fuel : nat) :
  rep (nodes w) z (Node l z n r) ->
  (depth r <= S fuel)%nat ->
  exists y ny,
    remove_victim fuel z w = Ok y w /\
    y <> rb_null /\ nodes w !! y = Some ny /\
    (left ny = rb_null \/ right ny = rb_null) /\
    ((left n = rb_null \/ right n = rb_null) -> y = z) /\
    (left n <> rb_null -> right n <> rb_null ->
     exists rest, shape_inorder r = (key ny, value ny) :: rest).
Proof.
  intros Hrep Hfuel. pose proof Hrep as (_ & Hnn & Hn & Hl & Hr).
  rewrite (remove_victim_rep w z l n r fuel Hrep Hfuel).
  destruct (N.eqb (left n) rb_null) eqn:El; cbn [orb].
  - apply N.eqb_eq in El. exists z, n. repeat split; auto. congruence.
  - apply N.eqb_neq in El.
    destruct (N.eqb (right n) rb_null) eqn:Er.
    + apply N.eqb_eq in Er. exists z, n. repeat split; auto. congruence.
    + apply N.eqb_neq in Er.
      destruct (shape_leftmost_first _ r _ Hr Er)
        as (ny & rest & Hny & Hleft & Hne & Hin).
      exists (shape_leftmost r), ny. repeat split; auto.
      * intros [E|E]; congruence.
      * intros _ _. exists rest. exact Hin.
Qed.

Lemma X6_sample_victim_of_root :
  exists y ny,
    remove_victim 0 2%N sample_world = Ok y sample_world /\
    y <> rb_null /\ nodes sample_world !! y = Some ny /\
    (left ny = rb_null \/ right ny = rb_null) /\
    ((left sample_root = rb_null \/ right sample_root = rb_null) -> y = 2%N) /\
    (left sample_root <> rb_null -> right sample_root <> rb_null ->
     exists rest, [(3, 30)] = (key ny, value ny) :: rest).
Proof.
  apply (X6_victim_has_at_most_one_child sample_world 2%N
           (Node Leaf 3%N sample_low Leaf) (Node Leaf 4%N sample_high Leaf)
           sample_root 0%nat).
  - exact sample_root_rep.
  - simpl. lia.
Defined.

(** ** Reading a successful run backwards *)

Section Inversion.

Context {U : Type}.
Implicit Types (w : world U) (a t : addr) (n : RBTreeNode).

Lemma bind_inv {A B} (m : M U A) (f : A -> M U B) w b w' :
  bind m f w = Ok b w' ->
  exists x w1, m w = Ok x w1 /\ f x w1 = Ok b w'.
Proof.
  unfold bind. destruct (m w) as [x w1|e]; [eauto | discriminate].
Qed.

Lemma ret_inv {A} (x y : A) w w' : ret x w = Ok y w' -> y = x /\ w' = w.
Proof. unfold ret. intros H. injection H as <- <-. auto. Qed.

Lemma load_node_inv w a n w' :
  load_node a w = Ok n w' -> w' = w /\ nodes w !! a = Some n.
Proof.
  unfold load_node. destruct (nodes w !! a); [|discriminate].
  intros H. injection H as <- <-. auto.
Qed.

Lemma load_tree_inv w t (T : RBTree U) w' :
  load_tree t w = Ok T w' -> w' = w /\ trees w !! t = Some T.
Proof.
  unfold load_tree. destruct (trees w !! t); [|discriminate].
  intros H. injection H as <- <-. auto.
Qed.

Lemma get_root_inv w t r w' :
  get_root t w = Ok r w' ->
  w' = w /\ exists T, trees w !! t = Some T /\ root T = r.
Proof.
  unfold get_root. intros H. apply bind_inv in H as (T & w1 & HT & Hr).
  apply load_tree_inv in HT as (-> & HT). apply ret_inv in Hr as (-> & ->).
  eauto.
Qed.

Lemma get_left_inv w a l w' :
  get_left a w = Ok l w' ->
  w' = w /\ exists n, nodes w !! a = Some n /\ left n = l.
Proof.
  unfold get_left. intros H. apply bind_inv in H as (n & w1 & Hn & Hr).
  apply load_node_inv in Hn as (-> & Hn). apply ret_inv in Hr as (-> & ->).
  eauto.
Qed.

Lemma get_right_inv w a r w' :
  get_right a w = Ok r w' ->
  w' = w /\ exists n, nodes w !! a = Some n /\ right n = r.
Proof.
  unfold get_right. intros H. apply bind_inv in H as (n & w1 & Hn & Hr).
  apply load_node_inv in Hn as (-> & Hn). apply ret_inv in Hr as (-> & ->).
  eauto.
Qed.

Lemma get_key_inv w a k w' :
  get_key a w = Ok k w' ->
  w' = w /\ exists n, nodes w !! a = Some n /\ key n = k.
Proof.
  unfold get_key. intros H. apply bind_inv in H as (n & w1 & Hn & Hr).
  apply load_node_inv in Hn as (-> & Hn). apply ret_inv in Hr as (-> & ->).
  eauto.
Qed.

Lemma invariant_inv w b w' (u : unit) :
  invariant b w = Ok u w' -> b = true /\ w' = w.
Proof.
  destruct b; simpl; [|discriminate]. intros H. apply ret_inv in H as (_ & ->).
  auto.
Qed.

(** The descent changes nothing, and it reports "found" exactly when it
    stops at a node rather than at the sentinel. *)
Lemma find_descend_inv fuel : forall t k ip a w ip' it f w',
  find_descend fuel t k ip a false w = Ok (ip', it, f) w' ->
  w' = w /\ f = negb (N.eqb it rb_null).
Proof.
  assert (Hstop : forall fuel' t k ip a w ip' it f w',
             a <> rb_null ->
             find_descend fuel' t k ip a true w = Ok (ip', it, f) w' ->
             w' = w /\ f = negb (N.eqb it rb_null)).
  { intros fuel' t k ip a w ip' it f w' Hnn H.
    destruct fuel'; cbn [find_descend] in H; rewrite orb_true_r in H;
      apply ret_inv in H as (H & ->); injection H as -> -> ->;
      rewrite (not_sentinel_test _ Hnn); auto. }
  induction fuel as [|fuel IH]; intros t k ip a w ip' it f w' H;
    cbn [find_descend] in H; rewrite orb_false_r in H;
    destruct (N.eqb a rb_null) eqn:Ea.
  - apply ret_inv in H as (H & ->). injection H as -> -> ->.
    rewrite Ea. auto.
  - discriminate.
  - apply ret_inv in H as (H & ->). injection H as -> -> ->.
    rewrite Ea. auto.
  - apply N.eqb_neq in Ea.
    apply bind_inv in H as (T & w1 & HT & H).
    apply load_tree_inv in HT as (-> & HT).
    apply bind_inv in H as (kk & w1 & Hk & H).
    apply get_key_inv in Hk as (-> & _).
    destruct (_ <? 0).
    + apply bind_inv in H as (l & w1 & Hl & H).
      apply get_left_inv in Hl as (-> & _). eapply IH, H.
    + destruct (_ =? 0).
      * eapply Hstop; eassumption.
      * apply bind_inv in H as (r & w1 & Hr & H).
        apply get_right_inv in Hr as (-> & _). eapply IH, H.
Qed.

(** What a lookup-only [rb_tree_find] tells about the descent. *)
Lemma rb_tree_find_lookup_inv fuel t k v w node w' :
  rb_tree_find fuel t k v false false w = Ok node w' ->
  w' = w /\
  exists T ip,
    trees w !! t = Some T /\
    find_descend fuel t k rb_null (root T) false w
    = Ok (ip, node, negb (N.eqb node rb_null)) w.
Proof.
  unfold rb_tree_find. cbn [negb orb invariant]. intros H.
  apply bind_inv in H as (u & w1 & Hu & H). apply ret_inv in Hu as (_ & ->).
  apply bind_inv in H as (rt & w1 & Hrt & H).
  apply get_root_inv in Hrt as (-> & T & HT & <-).
  apply bind_inv in H as ([[ip it] f] & w1 & Hd & H).
  pose proof (find_descend_inv _ _ _ _ _ _ _ _ _ _ Hd) as (-> & ->).
  rewrite !andb_false_r, orb_true_r in H.
  apply ret_inv in H as (-> & ->). eauto.
Qed.

End Inversion.

(** X7. On a key that [rb_tree_lookup_extended] reports absent,
    [rb_tree_replace] is [rb_tree_insert]: the two calls give the same
    result and the same world, whatever the store looks like. *)
Theorem X7_replace_of_absent_key_is_insert {U : Type}
    (w : world U) (t : addr) (fuel : nat) (k v x y : pointer) :
  rb_tree_lookup_extended fuel t k (Some x) (Some y) w
  = Ok (false, Some x, Some y) w ->
  rb_tree_replace fuel t k v w = rb_tree_insert fuel t k v w.
Proof.
  intros H. unfold rb_tree_lookup_extended in H.
  apply bind_inv in H as (u & w1 & Hu & H).
  apply invariant_inv in Hu as (Hu & ->).
  apply bind_inv in H as (node & w1 & Hfind & H).
  apply rb_tree_find_lookup_inv in Hfind as (-> & T & ip & HT & Hd).
  destruct (N.eqb node rb_null) eqn:En; cbn [negb] in H.
  2:{ apply bind_inv in H as (ok & w1 & _ & H).
      apply bind_inv in H as (ov & w2 & _ & H).
      apply ret_inv in H as (H & _). discriminate. }
  cbn [negb] in Hd.
  unfold rb_tree_replace, rb_tree_insert. rewrite Hu.
  erewrite !(bind_ok (invariant true)) by reflexivity.
  assert (Hsame : rb_tree_find fuel t k v true true w
                  = rb_tree_find fuel t k v true false w).
  { unfold rb_tree_find. cbn [negb orb invariant].
    erewrite !(bind_ok (ret tt)) by reflexivity.
    erewrite !(bind_ok (get_root t)) by (apply get_root_ok; exact HT).
    erewrite !(bind_ok (find_descend _ _ _ _ _ _)) by exact Hd.
    reflexivity. }
  unfold bind. rewrite Hsame. reflexivity.
Qed.

Lemma X7_sample_replace_absent_key :
  rb_tree_replace 2 1%N 7 70 sample_world
  = rb_tree_insert 2 1%N 7 70 sample_world.
Proof.
  apply (X7_replace_of_absent_key_is_insert sample_world 1%N 2%nat 7 70 0 0).
  vm_compute. reflexivity.
Defined.

(** ** Frames: what no run of the module changes *)

Create HintDb keeps.

Section Frames.

Context {U : Type}.
Variable R : world U -> world U -> Prop.
Variable t : addr.

Hypothesis R_refl : forall w, R w w.
Hypothesis R_trans : forall w1 w2 w3, R w1 w2 -> R w2 w3 -> R w1 w3.
Hypothesis R_store :
  forall w a n,
    R w (mkWorld (<[a := n]> (nodes w)) (trees w) (node_free_list w) (user w)).
Hypothesis R_root :
  forall w T v,
    trees w !! t = Some T ->
    R w (mkWorld (nodes w) (<[t := with_root v T]> (trees w))
                 (node_free_list w) (user w)).
Hypothesis R_free_list :
  forall w a, R w (mkWorld (nodes w) (trees w) a (user w)).

Lemma keeps_ret {A} (x : A) : keeps R (ret x).
Proof. intros w y w' H. apply ret_inv in H as (_ & ->). apply R_refl. Qed.

Lemma keeps_fail {A} e : keeps R (fail (A := A) e).
Proof. intros w y w' H. discriminate. Qed.

Lemma keeps_bind {A B} (m : M U A) (f : A -> M U B) :
  keeps R m -> (forall x, keeps R (f x)) -> keeps R (bind m f).
Proof.
  intros Hm Hf w y w' H. apply bind_inv in H as (x & w1 & H1 & H2).
  eapply R_trans; [eapply Hm, H1 | eapply Hf, H2].
Qed.

Lemma keeps_load_node a : keeps R (load_node a).
Proof. intros w y w' H. apply load_node_inv in H as (-> & _). apply R_refl. Qed.

Lemma keeps_store_node a n : keeps R (store_node a n).
Proof.
  intros w y w' H. unfold store_node in H. injection H as _ <-. apply R_store.
Qed.

Lemma keeps_load_tree t' : keeps R (load_tree t').
Proof. intros w y w' H. apply load_tree_inv in H as (-> & _). apply R_refl. Qed.

Lemma keeps_set_root v : keeps R (set_root t v).
Proof.
  intros w y w' H. unfold set_root in H.
  apply bind_inv in H as (T & w1 & HT & H).
  apply load_tree_inv in HT as (-> & HT).
  unfold store_tree in H. injection H as _ <-. apply R_root, HT.
Qed.

Lemma keeps_get_free_list : keeps R get_free_list.
Proof.
  intros w y w' H. unfold get_free_list in H. injection H as _ <-.
  apply R_refl.
Qed.

Lemma keeps_set_free_list a : keeps R (set_free_list a).
Proof.
  intros w y w' H. unfold set_free_list in H. injection H as _ <-.
  apply R_free_list.
Qed.

Lemma keeps_invariant b : keeps R (invariant b).
Proof. destruct b; [apply keeps_ret | apply keeps_fail]. Qed.

Lemma keeps_new_struct_node : keeps R new_struct_node.
Proof.
  intros w y w' H. unfold new_struct_node in H. injection H as _ <-.
  apply R_refl.
Qed.

#[local] Hint Resolve keeps_ret keeps_fail keeps_load_node keeps_store_node
  keeps_load_tree keeps_set_root keeps_get_free_list keeps_set_free_list
  keeps_invariant keeps_new_struct_node : keeps.

(** Breaking a computation into its steps. *)
Ltac keeps_steps :=
  repeat first
    [ apply keeps_ret
    | apply keeps_fail
    | solve [eauto with keeps]
    | apply keeps_bind; [|intro]
    | match goal with
      | |- keeps _ (if ?b then _ else _) => destruct b
      | |- keeps _ (match ?x with _ => _ end) => destruct x
      end ].

Lemma keeps_update_node a f : keeps R (update_node a f).
Proof. unfold update_node. keeps_steps. Qed.

#[local] Hint Resolve keeps_update_node : keeps.

Lemma keeps_get_left a : keeps R (get_left a).
Proof. unfold get_left. keeps_steps. Qed.
Lemma keeps_get_right a : keeps R (get_right a).
Proof. unfold get_right. keeps_steps. Qed.
Lemma keeps_get_parent a : keeps R (get_parent a).
Proof. unfold get_parent. keeps_steps. Qed.
Lemma keeps_get_color a : keeps R (get_color a).
Proof. unfold get_color. keeps_steps. Qed.
Lemma keeps_get_key a : keeps R (get_key a).
Proof. unfold get_key. keeps_steps. Qed.
Lemma keeps_get_value a : keeps R (get_value a).
Proof. unfold get_value. keeps_steps. Qed.
Lemma keeps_get_root t' : keeps R (get_root t').
Proof. unfold get_root. keeps_steps. Qed.
Lemma keeps_set_left a v : keeps R (set_left a v).
Proof. unfold set_left. keeps_steps. Qed.
Lemma keeps_set_right a v : keeps R (set_right a v).
Proof. unfold set_right. keeps_steps. Qed.
Lemma keeps_set_parent a v : keeps R (set_parent a v).
Proof. unfold set_parent. keeps_steps. Qed.
Lemma keeps_set_color a c : keeps R (set_color a c).
Proof. unfold set_color. keeps_steps. Qed.
Lemma keeps_set_key a k : keeps R (set_key a k).
Proof. unfold set_key. keeps_steps. Qed.
Lemma keeps_set_value a v : keeps R (set_value a v).
Proof. unfold set_value. keeps_steps. Qed.
Lemma keeps_get_grandparent a : keeps R (get_grandparent a).
Proof. unfold get_grandparent. keeps_steps; apply keeps_get_parent. Qed.

#[local] Hint Resolve keeps_get_left keeps_get_right keeps_get_parent
  keeps_get_color keeps_get_key keeps_get_value keeps_get_root keeps_set_left
  keeps_set_right keeps_set_parent keeps_set_color keeps_set_key
  keeps_set_value keeps_get_grandparent : keeps.

Lemma keeps_rb_tree_node_new k v p c : keeps R (rb_tree_node_new k v p c).
Proof. unfold rb_tree_node_new. keeps_steps. Qed.

Lemma keeps_rb_tree_rotate_left x : keeps R (rb_tree_rotate_left t x).
Proof. unfold rb_tree_rotate_left. keeps_steps. Qed.

Lemma keeps_rb_tree_rotate_right y : keeps R (rb_tree_rotate_right t y).
Proof. unfold rb_tree_rotate_right. keeps_steps. Qed.

#[local] Hint Resolve keeps_rb_tree_node_new keeps_rb_tree_rotate_left
  keeps_rb_tree_rotate_right : keeps.

Lemma keeps_find_descend fuel : forall k ip a f,
  keeps R (find_descend fuel t k ip a f).
Proof.
  induction fuel as [|fuel IH]; intros k ip a f; cbn [find_descend];
    keeps_steps.
Qed.

Lemma keeps_insert_restore fuel : forall a, keeps R (insert_restore fuel t a).
Proof.
  induction fuel as [|fuel IH]; intros a; cbn [insert_restore]; keeps_steps.
Qed.

Lemma keeps_successor_down fuel : forall a, keeps R (successor_down fuel a).
Proof.
  induction fuel as [|fuel IH]; intros a; cbn [successor_down]; keeps_steps.
Qed.

Lemma keeps_successor_up fuel : forall a b, keeps R (successor_up fuel a b).
Proof.
  induction fuel as [|fuel IH]; intros a b; cbn [successor_up]; keeps_steps.
Qed.

#[local] Hint Resolve keeps_find_descend keeps_insert_restore
  keeps_successor_down keeps_successor_up : keeps.

Lemma keeps_rb_tree_node_successor fuel a :
  keeps R (rb_tree_node_successor fuel a).
Proof. unfold rb_tree_node_successor. keeps_steps. Qed.

Lemma keeps_rb_tree_node_remove_restore fuel : forall x,
  keeps R (rb_tree_node_remove_restore fuel t x).
Proof.
  induction fuel as [|fuel IH]; intros x; cbn [rb_tree_node_remove_restore];
    keeps_steps.
Qed.

#[local] Hint Resolve keeps_rb_tree_node_successor
  keeps_rb_tree_node_remove_restore : keeps.

Lemma keeps_remove_victim fuel z : keeps R (remove_victim fuel z).
Proof. unfold remove_victim. keeps_steps. Qed.

#[local] Hint Resolve keeps_remove_victim : keeps.

Lemma keeps_rb_tree_find_lookup fuel k v :
  keeps R (rb_tree_find fuel t k v false false).
Proof.
  unfold rb_tree_find. cbn [negb orb invariant].
  apply keeps_bind; [keeps_steps|intros _].
  apply keeps_bind; [keeps_steps|intros rt].
  apply keeps_bind; [keeps_steps|intros [[ip it] f]].
  rewrite !andb_false_r, orb_true_r. keeps_steps.
Qed.

#[local] Hint Resolve keeps_rb_tree_find_lookup : keeps.

Lemma keeps_rb_tree_node_remove_quiet fuel z :
  keeps R (rb_tree_node_remove fuel t z false).
Proof. unfold rb_tree_node_remove. keeps_steps. Qed.

Lemma keeps_rb_tree_steal fuel k : keeps R (rb_tree_steal fuel t k).
Proof.
  unfold rb_tree_steal. keeps_steps; apply keeps_rb_tree_node_remove_quiet.
Qed.

Lemma keeps_node_remove_unlink fuel z : keeps R (node_remove_unlink fuel t z).
Proof. unfold node_remove_unlink. keeps_steps. Qed.

Lemma keeps_node_remove_rebalance fuel x y :
  keeps R (node_remove_rebalance fuel t x y).
Proof. unfold node_remove_rebalance. keeps_steps. Qed.

(** With a relation that also tolerates what the callbacks do to the
    client state, the notifying operations are covered as well. *)
Hypothesis R_user :
  forall w u, R w (mkWorld (nodes w) (trees w) (node_free_list w) u).

Lemma keeps_call f : keeps R (call f).
Proof.
  intros w y w' H. unfold call in H. injection H as _ <-. apply R_user.
Qed.

Lemma keeps_call_visitor f : keeps R (call_visitor f).
Proof.
  intros w y w' H. unfold call_visitor in H. injection H as _ <-.
  apply R_user.
Qed.

#[local] Hint Resolve keeps_call keeps_call_visitor : keeps.

Lemma keeps_notify g (arg : M U pointer) :
  keeps R arg -> keeps R (notify g arg).
Proof. intros Harg. unfold notify. keeps_steps. Qed.

#[local] Hint Resolve keeps_notify : keeps.

Lemma keeps_rb_tree_find fuel k v insert replace :
  keeps R (rb_tree_find fuel t k v insert replace).
Proof. unfold rb_tree_find. keeps_steps. Qed.

#[local] Hint Resolve keeps_rb_tree_find : keeps.

Lemma keeps_rb_tree_insert fuel k v : keeps R (rb_tree_insert fuel t k v).
Proof. unfold rb_tree_insert. keeps_steps. Qed.

Lemma keeps_rb_tree_replace fuel k v : keeps R (rb_tree_replace fuel t k v).
Proof. unfold rb_tree_replace. keeps_steps. Qed.

Lemma keeps_rb_tree_node_remove fuel z b :
  keeps R (rb_tree_node_remove fuel t z b).
Proof. unfold rb_tree_node_remove. keeps_steps. Qed.

#[local] Hint Resolve keeps_rb_tree_node_remove : keeps.

Lemma keeps_rb_tree_remove fuel k : keeps R (rb_tree_remove fuel t k).
Proof. unfold rb_tree_remove. keeps_steps. Qed.

Lemma keeps_rb_tree_node_map fuel : forall a f c,
  keeps R (rb_tree_node_map fuel a f c).
Proof.
  induction fuel as [|fuel IH]; intros a f c; cbn [rb_tree_node_map];
    keeps_steps.
Qed.

#[local] Hint Resolve keeps_rb_tree_node_map : keeps.

Lemma keeps_rb_tree_map fuel f c : keeps R (rb_tree_map fuel t f c).
Proof. unfold rb_tree_map. keeps_steps. Qed.

Lemma keeps_rb_tree_node_release fuel : forall a kr vr,
  keeps R (rb_tree_node_release fuel a kr vr).
Proof.
  induction fuel as [|fuel IH]; intros a kr vr; cbn [rb_tree_node_release];
    keeps_steps.
Qed.

End Frames.

(** ** What steal, remove and the other mutations leave alone *)

Lemma same_user_refl {U} (w : world U) : same_user w w.
Proof. reflexivity. Qed.

Lemma same_user_trans {U} (w1 w2 w3 : world U) :
  same_user w1 w2 -> same_user w2 w3 -> same_user w1 w3.
Proof. unfold same_user. congruence. Qed.

(** X8. [rb_tree_steal] never calls [key_release] or [value_release]:
    whenever it returns, the client state, which only the notifiers and the
    map visitor can change, is the one it started with.  (Steal does call the
    comparator, at every step of its descent; a comparator is a pure function
    here and has no access to the client state.) *)
Theorem X8_steal_never_calls_a_notifier {U : Type}
    (w w' : world U) (t : addr) (fuel : nat) (k : pointer) :
  rb_tree_steal fuel t k w = Ok tt w' ->
  user w' = user w.
Proof.
  intros H.
  change (same_user w w').
  eapply keeps_rb_tree_steal; [..|exact H];
    first [exact same_user_refl | exact same_user_trans
          | intros; reflexivity].
Qed.

Lemma X8_sample_steal_is_quiet :
  exists w',
    rb_tree_steal 2 1%N 2 sample_world = Ok tt w' /\
    user w' = user sample_world.
Proof.
  eexists. split; [vm_compute; reflexivity|].
  apply (X8_steal_never_calls_a_notifier sample_world _ 1%N 2%nat 2).
  vm_compute. reflexivity.
Defined.

Section HandleFrames.

Context {U : Type}.
Variable t : addr.

Lemma same_handles_refl (w : world U) : same_handles t w w.
Proof.
  split; [reflexivity|]. intros T HT. exists (root T). rewrite HT.
  destruct T; reflexivity.
Qed.

Lemma same_handles_trans (w1 w2 w3 : world U) :
  same_handles t w1 w2 -> same_handles t w2 w3 -> same_handles t w1 w3.
Proof.
  intros [H1 H1'] [H2 H2']. split.
  - intros t' Hne. rewrite H2, H1; auto.
  - intros T HT. destruct (H1' _ HT) as [r Hr].
    destruct (H2' _ Hr) as [r' Hr']. exists r'. exact Hr'.
Qed.

Lemma same_handles_store (w : world U) a n :
  same_handles t w
    (mkWorld (<[a := n]> (nodes w)) (trees w) (node_free_list w) (user w)).
Proof. apply (same_handles_refl w). Qed.

Lemma same_handles_root (w : world U) T v :
  trees w !! t = Some T ->
  same_handles t w
    (mkWorld (nodes w) (<[t := with_root v T]> (trees w))
             (node_free_list w) (user w)).
Proof.
  intros HT. split; cbn [trees].
  - intros t' Hne. apply lookup_insert_ne. congruence.
  - intros T' HT'. exists v. rewrite lookup_insert_eq. congruence.
Qed.

Lemma same_handles_free_list (w : world U) a :
  same_handles t w (mkWorld (nodes w) (trees w) a (user w)).
Proof. apply (same_handles_refl w). Qed.

Lemma same_handles_user (w : world U) u :
  same_handles t w (mkWorld (nodes w) (trees w) (node_free_list w) u).
Proof. apply (same_handles_refl w). Qed.

End HandleFrames.

(** X9. The mutations and the traversal of one tree never touch another
    tree's handle, and they never change the comparator, the comparator data
    or the notifiers of their own tree: whenever [rb_tree_insert],
    [rb_tree_replace], [rb_tree_remove], [rb_tree_steal] or [rb_tree_map]
    returns, every other handle is as it was and the handle of the tree
    differs at most in its root. *)
Theorem X9_mutations_keep_the_handles {U : Type}
    (w w' : world U) (t : addr) (fuel : nat) (k v closure : pointer)
    (f : option (MappingMapFunc U)) :
  rb_tree_insert fuel t k v w = Ok tt w' \/
  rb_tree_replace fuel t k v w = Ok tt w' \/
  rb_tree_remove fuel t k w = Ok tt w' \/
  rb_tree_steal fuel t k w = Ok tt w' \/
  rb_tree_map fuel t f closure w = Ok tt w' ->
  (forall t', t' <> t -> trees w' !! t' = trees w !! t') /\
  (forall T, trees w !! t = Some T ->
             exists r, trees w' !! t = Some (with_root r T)).
Proof.
  pose proof (same_handles_refl (U := U) t) as Hrefl.
  pose proof (same_handles_trans (U := U) t) as Htrans.
  pose proof (same_handles_store (U := U) t) as Hstore.
  pose proof (same_handles_root (U := U) t) as Hroot.
  pose proof (same_handles_free_list (U := U) t) as Hfl.
  pose proof (same_handles_user (U := U) t) as Huser.
  intros H. change (same_handles t w w').
  destruct H as [H|[H|[H|[H|H]]]].
  - eapply keeps_rb_tree_insert; [..|exact H]; eauto.
  - eapply keeps_rb_tree_replace; [..|exact H]; eauto.
  - eapply keeps_rb_tree_remove; [..|exact H]; eauto.
  - eapply keeps_rb_tree_steal; [..|exact H]; eauto.
  - eapply keeps_rb_tree_map; [..|exact H]; eauto.
Qed.

Lemma X9_sample_insert_keeps_handles :
  exists w',
    rb_tree_insert 3 1%N 7 70 sample_world = Ok tt w' /\
    (forall t', t' <> 1%N -> trees w' !! t' = trees sample_world !! t') /\
    (forall T, trees sample_world !! 1%N = Some T ->
               exists r, trees w' !! 1%N = Some (with_root r T)).
Proof.
  eexists. split; [vm_compute; reflexivity|].
  apply (X9_mutations_keep_the_handles sample_world _ 1%N 3%nat 7 70 0 None).
  left. vm_compute. reflexivity.
Defined.

(** ** Remove is steal plus the notifications *)

Section RemoveAndSteal.

Context {U : Type}.
Implicit Types (w : world U) (a t x y z : addr).

(** [rb_tree_node_remove] is its four phases in sequence. *)
Lemma rb_tree_node_remove_phases fuel t z b w :
  rb_tree_node_remove fuel t z b w
  = (xy <- node_remove_unlink fuel t z ;;
     node_remove_rebalance fuel t (fst xy) (snd xy) ;;;
     node_remove_notify t (snd xy) b ;;;
     node_remove_recycle (snd xy)) w.
Proof.
  unfold rb_tree_node_remove, node_remove_unlink, node_remove_rebalance,
    node_remove_notify, node_remove_recycle.
  unfold bind, ret.
  repeat match goal with
         | |- context [match ?e with Ok _ _ => _ | Err _ => _ end] =>
             lazymatch e with
             | match _ with _ => _ end => fail
             | Ok _ _ => fail
             | Err _ => fail
             | _ => destruct e; cbn beta iota; cbn [fst snd]
             end
         end.
  all: reflexivity.
Qed.

(** Recycling does not look at the client state. *)
Lemma node_remove_recycle_user y w u w' :
  node_remove_recycle y w = Ok tt w' ->
  node_remove_recycle y (with_user u w) = Ok tt (with_user u w').
Proof.
  unfold node_remove_recycle, set_left, update_node, get_free_list,
    set_free_list, store_node, load_node, bind, with_user.
  cbn [nodes trees node_free_list user].
  destruct (nodes w !! y); [|discriminate].
  intros H. injection H as <-. reflexivity.
Qed.

Lemma node_remove_notify_ok t y w T n :
  trees w !! t = Some T -> nodes w !! y = Some n ->
  node_remove_notify t y true w
  = Ok tt (with_user (released (value_release T) (value n)
                        (released (key_release T) (key n) (user w))) w).
Proof.
  intros HT Hn. unfold node_remove_notify. mstep.
  erewrite bind_ok by (apply notify_ok, get_key_ok; exact Hn).
  rewrite (notify_ok _ _ _ (value n)) by (apply get_value_ok; exact Hn).
  reflexivity.
Qed.

Lemma still_mapped_refl w : still_mapped w w.
Proof. intros a H. exact H. Qed.

Lemma still_mapped_trans w1 w2 w3 :
  still_mapped w1 w2 -> still_mapped w2 w3 -> still_mapped w1 w3.
Proof. unfold still_mapped. auto. Qed.

Lemma still_mapped_store w a n :
  still_mapped w
    (mkWorld (<[a := n]> (nodes w)) (trees w) (node_free_list w) (user w)).
Proof.
  intros b H. cbn [nodes]. destruct (N.eq_dec a b) as [->|Hne].
  - rewrite lookup_insert_eq. eauto.
  - rewrite lookup_insert_ne by exact Hne. exact H.
Qed.

Lemma still_mapped_same_nodes w trs fl u :
  still_mapped w (mkWorld (nodes w) trs fl u).
Proof. intros a H. exact H. Qed.

Lemma get_color_inv w a c w' :
  get_color a w = Ok c w' ->
  w' = w /\ exists n, nodes w !! a = Some n /\ color n = c.
Proof.
  unfold get_color. intros H. apply bind_inv in H as (n & w1 & Hn & Hr).
  apply load_node_inv in Hn as (-> & Hn). apply ret_inv in Hr as (-> & ->).
  eauto.
Qed.

(** After the victim has been unlinked and the tree rebalanced, the victim
    is still stored and the handle is still there. *)
Lemma node_remove_rebalance_mapped fuel t x y w w' :
  node_remove_rebalance fuel t x y w = Ok tt w' ->
  is_Some (nodes w' !! y).
Proof.
  intros H.
  assert (Hmap : still_mapped w w').
  { eapply keeps_node_remove_rebalance; [..|exact H];
      first [exact still_mapped_refl | exact still_mapped_trans
            | exact still_mapped_store
            | intros; apply still_mapped_same_nodes]. }
  apply Hmap. unfold node_remove_rebalance in H.
  apply bind_inv in H as (c & w1 & Hc & _).
  apply get_color_inv in Hc as (_ & n & Hn & _). eauto.
Qed.

(** What [rb_tree_node_remove] adds when it notifies: the two notifiers,
    called with the key and the value of the node it then puts at the head of
    the free list. *)
Lemma rb_tree_node_remove_notifying fuel t z w w1 T :
  trees w !! t = Some T ->
  rb_tree_node_remove fuel t z false w = Ok tt w1 ->
  exists ny,
    nodes w1 !! node_free_list w1 = Some ny /\
    rb_tree_node_remove fuel t z true w
    = Ok tt (with_user (released (value_release T) (value ny)
                          (released (key_release T) (key ny) (user w1))) w1).
Proof.
  intros HT H. rewrite rb_tree_node_remove_phases in H |- *.
  apply bind_inv in H as ([x y] & wa & Hunlink & H). cbn [fst snd] in H.
  apply bind_inv in H as ([] & wb & Hreb & H).
  apply bind_inv in H as ([] & wc & Hnot & Hrec).
  unfold node_remove_notify in Hnot. apply ret_inv in Hnot as (_ & ->).
  assert (Hh : same_handles t w wb).
  { eapply same_handles_trans.
    - eapply keeps_node_remove_unlink; [..|exact Hunlink];
        eauto using same_handles_refl, same_handles_trans, same_handles_store,
          same_handles_root, same_handles_free_list.
    - eapply keeps_node_remove_rebalance; [..|exact Hreb];
        eauto using same_handles_refl, same_handles_trans, same_handles_store,
          same_handles_root, same_handles_free_list. }
  destruct Hh as [_ Hh]. destruct (Hh _ HT) as [r HTb].
  destruct (node_remove_rebalance_mapped _ _ _ _ _ _ Hreb) as [ny Hny].
  assert (Hrec' : node_remove_recycle y wb
                  = Ok tt (mkWorld
                             (<[y := with_left (node_free_list wb) ny]>
                                (nodes wb))
                             (trees wb) y (user wb))).
  { unfold node_remove_recycle. erewrite bind_ok by reflexivity.
    erewrite bind_ok
      by (unfold set_left, update_node;
          erewrite bind_ok by (apply load_node_ok; exact Hny); reflexivity).
    reflexivity. }
  rewrite Hrec' in Hrec. injection Hrec as <-.
  exists (with_left (node_free_list wb) ny).
  cbn [nodes node_free_list user key value with_left].
  split; [apply lookup_insert_eq|].
  erewrite bind_ok by exact Hunlink. cbn [fst snd].
  erewrite bind_ok by exact Hreb.
  erewrite bind_ok by (eapply node_remove_notify_ok; eassumption).
  cbn [key_release value_release with_root].
  apply node_remove_recycle_user, Hrec'.
Qed.

End RemoveAndSteal.

(** X10. [rb_tree_remove] is [rb_tree_steal] plus the two notifications.
    Whenever steal returns, remove returns too.  When the key is not found,
    both leave the world as it was.  When it is found, remove ends with the
    nodes, the handles and the free list steal ends with, steal has left the
    client state alone, and remove has called [key_release] and then
    [value_release] once each, with the key and the value of the node that
    is now the head of the free list. *)
Theorem X10_remove_is_steal_plus_notifications {U : Type}
    (w w1 : world U) (t : addr) (fuel : nat) (k : pointer) :
  rb_tree_steal fuel t k w = Ok tt w1 ->
  exists found,
    rb_tree_lookup_extended fuel t k None None w
    = Ok (found, None, None) w /\
    user w1 = user w /\
    if found then
      exists T ny,
        trees w !! t = Some T /\
        nodes w1 !! node_free_list w1 = Some ny /\
        rb_tree_remove fuel t k w
        = Ok tt (with_user
                   (released (value_release T) (value ny)
                      (released (key_release T) (key ny) (user w))) w1)
    else
      w1 = w /\ rb_tree_remove fuel t k w = Ok tt w.
Proof.
  intros H.
  assert (Hquiet : same_user w w1).
  { eapply keeps_rb_tree_steal; [..|exact H];
      first [exact same_user_refl | exact same_user_trans
            | intros; reflexivity]. }
  unfold rb_tree_steal in H.
  unfold rb_tree_remove, rb_tree_lookup_extended.
  apply bind_inv in H as ([] & w0 & Hinv & H).
  apply invariant_inv in Hinv as (Hinv & ->). rewrite Hinv.
  apply bind_inv in H as (node & w0 & Hfind & H).
  pose proof (rb_tree_find_lookup_inv _ _ _ _ _ _ _ Hfind)
    as (-> & T & ip & HT & _).
  exists (negb (N.eqb node rb_null)).
  erewrite !(bind_ok (invariant true)) by reflexivity.
  erewrite !bind_ok by exact Hfind.
  destruct (negb (N.eqb node rb_null)).
  - split; [reflexivity|]. split; [exact Hquiet|].
    destruct (rb_tree_node_remove_notifying fuel t node w w1 T HT H)
      as (ny & Hny & Hrun).
    exists T, ny. rewrite <- Hquiet. auto.
  - apply ret_inv in H as (_ & ->). repeat split; reflexivity.
Qed.

Lemma X10_sample_remove_and_steal :
  exists w1,
    rb_tree_steal 2 1%N 1 sample_world = Ok tt w1 /\
    user w1 = [] /\
    node_free_list w1 = 3%N /\
    rb_tree_remove 2 1%N 1 sample_world
    = Ok tt (with_user [KeyRelease 1; ValueRelease 10] w1).
Proof.
  eexists.
  assert (H : rb_tree_steal 2 1%N 1 sample_world = Ok tt _)
    by (vm_compute; reflexivity).
  destruct (X10_remove_is_steal_plus_notifications sample_world _ 1%N 2%nat 1
              H) as (found & Hfound & Hu & Hrest).
  assert (found = true) as ->
    by (destruct found; [reflexivity | vm_compute in Hfound; discriminate]).
  destruct Hrest as (T & ny & HT & Hny & Hrun).
  assert (Some T = Some sample_tree) as E by (rewrite <- HT; reflexivity).
  injection E as ->.
  assert (Some ny = Some (mkNode NULL rb_null 2%N RED 1 10)) as E
    by (rewrite <- Hny; reflexivity).
  injection E as ->.
  split; [exact H|]. split; [exact Hu|]. split; [reflexivity|]. exact Hrun.
Defined.

(** ** Attaching a new key without rebalancing *)

Lemma rep_addrs_mapped (m : gmap N RBTreeNode) s : forall a b,
  rep m a s -> b ∈ shape_addrs s -> is_Some (m !! b) /\ b <> rb_null.
Proof.
  induction s as [|l IHl c n r IHr]; intros a b Hrep Hin; simpl in *.
  - inversion Hin.
  - destruct Hrep as (-> & Hnn & Hn & Hl & Hr).
    apply elem_of_app in Hin as [Hin|Hin]; [eauto|].
    apply elem_of_cons in Hin as [->|Hin]; eauto.
Qed.

(** A store that agrees with [m] on the addresses of a shape unfolds to the
    same shape. *)
Lemma rep_frame (m m' : gmap N RBTreeNode) s : forall a,
  rep m a s -> (forall b, b ∈ shape_addrs s -> m' !! b = m !! b) ->
  rep m' a s.
Proof.
  induction s as [|l IHl c n r IHr]; intros a Hrep Hsame; simpl in *.
  - exact Hrep.
  - destruct Hrep as (-> & Hnn & Hn & Hl & Hr).
    repeat split; auto.
    + rewrite Hsame; [exact Hn|]. apply elem_of_app. right. left.
    + apply IHl; [exact Hl|]. intros b Hb. apply Hsame, elem_of_app. auto.
    + apply IHr; [exact Hr|]. intros b Hb. apply Hsame, elem_of_app.
      right. right. exact Hb.
Qed.

Lemma shape_addrs_nodup_node l b n r :
  NoDup (shape_addrs (Node l b n r)) ->
  NoDup (shape_addrs l) /\ NoDup (shape_addrs r) /\
  (b ∉ shape_addrs l) /\ (b ∉ shape_addrs r) /\
  (forall x, x ∈ shape_addrs l -> x ∉ shape_addrs r).
Proof.
  simpl. intros H. apply NoDup_app in H as (Hl & Hlr & Hr).
  apply NoDup_cons in Hr as (Hb & Hr).
  repeat split; auto.
  - intros Hin. apply (Hlr _ Hin). left.
  - intros x Hx Hx'. apply (Hlr _ Hx). right. exact Hx'.
Qed.

Section Attach.

Variable cmp : CompareDataFunc.
Variable data : pointer.
Variables k v : pointer.
Variable a : addr.

Lemma shape_parent_in s : forall ip,
  s <> Leaf -> shape_parent cmp data k ip s ∈ shape_addrs s.
Proof.
  induction s as [|l IHl b n r IHr]; intros ip Hs; [congruence|].
  cbn [shape_parent shape_addrs].
  destruct (_ <? 0).
  - destruct l as [|ll lb ln lr].
    + simpl. set_solver.
    + apply elem_of_app. left. apply IHl. discriminate.
  - destruct (_ =? 0); [set_solver|].
    destruct r as [|rl rb rn rr].
    + simpl. set_solver.
    + apply elem_of_app. right. right. apply IHr. discriminate.
Qed.

(** Addresses and pairs of the shape with the new leaf. *)
Lemma shape_insert_addrs s : forall ip,
  shape_find cmp data k s = rb_null ->
  (forall b, b ∈ shape_addrs s -> b <> rb_null) ->
  exists l1 l2,
    shape_addrs s = l1 ++ l2 /\
    shape_addrs (shape_insert cmp data k v a ip s) = l1 ++ a :: l2.
Proof.
  induction s as [|l IHl b n r IHr]; intros ip Habs Hnn.
  - exists [], []. auto.
  - cbn [shape_find shape_insert shape_addrs] in *.
    destruct (_ <? 0).
    + destruct (IHl b Habs) as (l1 & l2 & H1 & H2).
      { intros c Hc. apply Hnn. set_solver. }
      exists l1, (l2 ++ b :: shape_addrs r). cbn [shape_addrs].
      rewrite H1, H2, <- !app_assoc. auto.
    + destruct (_ =? 0).
      * exfalso. apply (Hnn b); [set_solver | exact Habs].
      * destruct (IHr b Habs) as (l1 & l2 & H1 & H2).
        { intros c Hc. apply Hnn. set_solver. }
        exists (shape_addrs l ++ b :: l1), l2. cbn [shape_addrs].
        rewrite H1, H2, <- !app_assoc. auto.
Qed.

Lemma shape_insert_inorder s : forall ip,
  shape_find cmp data k s = rb_null ->
  (forall b, b ∈ shape_addrs s -> b <> rb_null) ->
  exists l1 l2,
    shape_inorder s = l1 ++ l2 /\
    shape_inorder (shape_insert cmp data k v a ip s) = l1 ++ (k, v) :: l2.
Proof.
  induction s as [|l IHl b n r IHr]; intros ip Habs Hnn.
  - exists [], []. auto.
  - cbn [shape_find shape_insert shape_addrs shape_inorder] in *.
    destruct (_ <? 0).
    + destruct (IHl b Habs) as (l1 & l2 & H1 & H2).
      { intros c Hc. apply Hnn. set_solver. }
      exists l1, (l2 ++ (key n, value n) :: shape_inorder r).
      cbn [shape_inorder]. rewrite H1, H2, <- !app_assoc.
      destruct (N.eqb (left n) rb_null); auto.
    + destruct (_ =? 0).
      * exfalso. apply (Hnn b); [set_solver | exact Habs].
      * destruct (IHr b Habs) as (l1 & l2 & H1 & H2).
        { intros c Hc. apply Hnn. set_solver. }
        exists (shape_inorder l ++ (key n, value n) :: l1), l2.
        cbn [shape_inorder]. rewrite H1, H2, <- !app_assoc.
        destruct (N.eqb (right n) rb_null); auto.
Qed.

(** The store after the new node has been written and linked unfolds to
    the shape with the new leaf. *)
Lemma rep_shape_insert (m : gmap N RBTreeNode) s : forall r ip0 n_ip,
  rep m r s -> NoDup (shape_addrs s) -> a ∉ shape_addrs s -> a <> rb_null ->
  shape_find cmp data k s = rb_null -> s <> Leaf ->
  m !! shape_parent cmp data k ip0 s = Some n_ip ->
  rep (<[shape_parent cmp data k ip0 s :=
           if cmp k (key n_ip) data <? 0
           then with_left a n_ip else with_right a n_ip]>
         (<[a := mkNode rb_null rb_null (shape_parent cmp data k ip0 s)
                        RED k v]> m))
      r (shape_insert cmp data k v a ip0 s).
Proof.
  induction s as [|l IHl b n r IHr];
    intros r0 ip0 n_ip Hrep Hnd Ha Hann Habs Hs Hip; [congruence|].
  destruct Hrep as (-> & Hnn & Hn & Hl & Hr).
  destruct (shape_addrs_nodup_node _ _ _ _ Hnd)
    as (Hndl & Hndr & Hbl & Hbr & Hlr).
  assert (Hab : a <> b) by (intros ->; apply Ha; simpl; set_solver).
  assert (Hal : a ∉ shape_addrs l) by (intros ?; apply Ha; simpl; set_solver).
  assert (Har : a ∉ shape_addrs r) by (intros ?; apply Ha; simpl; set_solver).
  cbn [shape_parent shape_insert shape_find] in *.
  destruct (cmp k (key n) data <? 0) eqn:Elt.
  - destruct l as [|ll lb ln lr].
    + (* the leaf hangs below b on the left *)
      simpl in Hl. cbn [shape_parent shape_insert] in *.
      assert (n_ip = n) by congruence. subst n_ip.
      rewrite Hl, Elt. cbn [N.eqb rb_null Pos.eqb].
      cbn [rep with_left left right].
      rewrite lookup_insert_eq.
      rewrite (lookup_insert_ne _ b a) by congruence.
      rewrite lookup_insert_eq. cbn [left right].
      repeat split; auto.
      eapply rep_frame; [exact Hr|]. intros c Hc.
      rewrite !lookup_insert_ne; [reflexivity| |]; intros ->; auto.
    + (* the descent continues in the left subtree *)
      assert (Hlnn : left n <> rb_null) by (destruct Hl as (-> & ? & _); auto).
      apply N.eqb_neq in Hlnn as Hlb. rewrite Hlb.
      pose proof (shape_parent_in (Node ll lb ln lr) b ltac:(discriminate))
        as Hin.
      set (ip := shape_parent cmp data k b (Node ll lb ln lr)) in *.
      assert (Hipb : ip <> b) by (intros E; rewrite E in Hin; auto).
      cbn [rep]. repeat split; auto.
      * rewrite !lookup_insert_ne by congruence. exact Hn.
      * apply IHl; auto; discriminate.
      * eapply rep_frame; [exact Hr|]. intros c Hc.
        rewrite !lookup_insert_ne; [reflexivity| |]; intros ->; auto.
        eapply Hlr; eassumption.
  - destruct (cmp k (key n) data =? 0) eqn:Eeq; [congruence|].
    destruct r as [|rl rb rn rr].
    + simpl in Hr. cbn [shape_parent shape_insert] in *.
      assert (n_ip = n) by congruence. subst n_ip.
      rewrite Hr, Elt. cbn [N.eqb rb_null Pos.eqb].
      cbn [rep with_right left right].
      rewrite lookup_insert_eq.
      rewrite (lookup_insert_ne _ b a) by congruence.
      rewrite lookup_insert_eq. cbn [left right].
      repeat split; auto.
      eapply rep_frame; [exact Hl|]. intros c Hc.
      rewrite !lookup_insert_ne; [reflexivity| |]; intros ->; auto.
    + assert (Hrnn : right n <> rb_null) by (destruct Hr as (-> & ? & _); auto).
      apply N.eqb_neq in Hrnn as Hrb. rewrite Hrb.
      pose proof (shape_parent_in (Node rl rb rn rr) b ltac:(discriminate))
        as Hin.
      set (ip := shape_parent cmp data k b (Node rl rb rn rr)) in *.
      assert (Hipb : ip <> b) by (intros E; rewrite E in Hin; auto).
      cbn [rep]. repeat split; auto.
      * rewrite !lookup_insert_ne by congruence. exact Hn.
      * eapply rep_frame; [exact Hl|]. intros c Hc.
        rewrite !lookup_insert_ne; [reflexivity| |]; intros ->; auto.
        eapply Hlr; eassumption.
      * apply IHr; auto; discriminate.
Qed.

End Attach.

Section AttachFacts.

Variable cmp : CompareDataFunc.
Variable data : pointer.
Variables k v : pointer.
Variable a : addr.

Lemma shape_update_inorder b f s :
  (forall n, key (f n) = key n /\ value (f n) = value n) ->
  shape_inorder (shape_update b f s) = shape_inorder s.
Proof.
  intros Hf. induction s as [|l IHl c n r IHr]; simpl; [reflexivity|].
  rewrite IHl, IHr. destruct (N.eqb b c); [|reflexivity].
  destruct (Hf n) as [-> ->]. reflexivity.
Qed.

Lemma shape_update_addrs b f s :
  shape_addrs (shape_update b f s) = shape_addrs s.
Proof. induction s; simpl; congruence. Qed.

Lemma shape_update_find b f s k' :
  (forall n, key (f n) = key n) ->
  shape_find cmp data k' (shape_update b f s) = shape_find cmp data k' s.
Proof.
  intros Hf. induction s as [|l IHl c n r IHr]; simpl; [reflexivity|].
  assert (key (if N.eqb b c then f n else n) = key n) as ->
      by (destruct (N.eqb b c); auto).
  rewrite IHl, IHr. reflexivity.
Qed.

Lemma shape_update_ordered b f s :
  (forall n, key (f n) = key n /\ value (f n) = value n) ->
  ordered cmp data s -> ordered cmp data (shape_update b f s).
Proof.
  intros Hf. induction s as [|l IHl c n r IHr]; simpl; [auto|].
  intros (Hl & Hr & Hlt & Hgt).
  assert (key (if N.eqb b c then f n else n) = key n) as ->
      by (destruct (N.eqb b c); [apply Hf | reflexivity]).
  rewrite !shape_update_inorder by exact Hf. auto.
Qed.

Lemma shape_insert_depth s ip :
  (depth (shape_insert cmp data k v a ip s) <= S (depth s))%nat.
Proof.
  revert ip. induction s as [|l IHl b n r IHr]; intros ip; simpl; [lia|].
  destruct (_ <? 0); [specialize (IHl b); simpl; lia|].
  destruct (_ =? 0); [simpl; lia|]. specialize (IHr b). simpl. lia.
Qed.

Lemma shape_insert_find s ip :
  cmp k k data = 0 ->
  shape_find cmp data k s = rb_null ->
  (forall b, b ∈ shape_addrs s -> b <> rb_null) ->
  shape_find cmp data k (shape_insert cmp data k v a ip s) = a.
Proof.
  intros Hkk. revert ip.
  induction s as [|l IHl b n r IHr]; intros ip Habs Hnn.
  - simpl. rewrite Hkk. reflexivity.
  - cbn [shape_insert shape_find] in *.
    destruct (cmp k (key n) data <? 0) eqn:Elt.
    + cbn [shape_find].
      assert (key (if N.eqb (left n) rb_null then with_left a n else n)
              = key n) as -> by (destruct (N.eqb _ _); reflexivity).
      rewrite Elt. apply IHl; [exact Habs|].
      intros c Hc. apply Hnn. simpl. set_solver.
    + destruct (cmp k (key n) data =? 0) eqn:Eeq.
      * exfalso. apply (Hnn b); [simpl; set_solver | exact Habs].
      * cbn [shape_find].
        assert (key (if N.eqb (right n) rb_null then with_right a n else n)
                = key n) as -> by (destruct (N.eqb _ _); reflexivity).
        rewrite Elt, Eeq. apply IHr; [exact Habs|].
        intros c Hc. apply Hnn. simpl. set_solver.
Qed.

Lemma shape_insert_ordered s ip :
  shape_find cmp data k s = rb_null ->
  (forall b, b ∈ shape_addrs s -> b <> rb_null) ->
  ordered cmp data s ->
  ordered cmp data (shape_insert cmp data k v a ip s).
Proof.
  revert ip. induction s as [|l IHl b n r IHr]; intros ip Habs Hnn Hord.
  - simpl. auto.
  - cbn [shape_insert shape_find ordered] in *.
    destruct Hord as (Hl & Hr & Hlt & Hgt).
    destruct (cmp k (key n) data <? 0) eqn:Elt.
    + cbn [ordered].
      assert (key (if N.eqb (left n) rb_null then with_left a n else n)
              = key n) as -> by (destruct (N.eqb _ _); reflexivity).
      assert (Hnnl : forall c, c ∈ shape_addrs l -> c <> rb_null)
        by (intros c Hc; apply Hnn; simpl; set_solver).
      repeat split; auto.
      destruct (shape_insert_inorder cmp data k v a l b Habs Hnnl)
        as (l1 & l2 & H1 & H2).
      rewrite H2. rewrite H1 in Hlt. apply Forall_app in Hlt as [? ?].
      apply Forall_app. split; [assumption|]. constructor; [|assumption].
      simpl. apply Z.ltb_lt, Elt.
    + destruct (cmp k (key n) data =? 0) eqn:Eeq.
      * exfalso. apply (Hnn b); [simpl; set_solver | exact Habs].
      * cbn [ordered].
        assert (key (if N.eqb (right n) rb_null then with_right a n else n)
                = key n) as -> by (destruct (N.eqb _ _); reflexivity).
        assert (Hnnr : forall c, c ∈ shape_addrs r -> c <> rb_null)
          by (intros c Hc; apply Hnn; simpl; set_solver).
        repeat split; auto.
        destruct (shape_insert_inorder cmp data k v a r b Habs Hnnr)
          as (l1 & l2 & H1 & H2).
        rewrite H2. rewrite H1 in Hgt. apply Forall_app in Hgt as [? ?].
        apply Forall_app. split; [assumption|]. constructor; [|assumption].
        simpl. apply Z.ltb_ge in Elt. apply Z.eqb_neq in Eeq. lia.
Qed.

End AttachFacts.

Section InsertRun.

Context {U : Type}.
Implicit Types (w : world U) (a t : addr) (n : RBTreeNode) (s : shape).

Lemma with_root_id (T : RBTree U) : with_root (root T) T = T.
Proof. destruct T; reflexivity. Qed.

Lemma find_descend_parent s : forall fuel t (T : RBTree U) w k ip a,
  trees w !! t = Some T -> rep (nodes w) a s -> (depth s <= fuel)%nat ->
  shape_find (key_compare T) (key_compare_data T) k s = rb_null ->
  find_descend fuel t k ip a false w
  = Ok (shape_parent (key_compare T) (key_compare_data T) k ip s,
        rb_null, false) w.
Proof.
  induction s as [|l IHl b n r IHr]; intros fuel t T w k ip a HT Hrep Hfuel Habs.
  - simpl in Hrep. subst a. destruct fuel; reflexivity.
  - destruct Hrep as (-> & Hnn & Hn & Hl & Hr).
    destruct fuel as [|fuel]; simpl in Hfuel; [lia|].
    cbn [find_descend shape_find shape_parent] in *.
    apply N.eqb_neq in Hnn as Hb. rewrite Hb. cbn [orb]. msteps.
    destruct (_ <? 0).
    + mstep. apply IHl; auto. lia.
    + destruct (_ =? 0); [apply N.eqb_neq in Hb; congruence|].
      mstep. apply IHr; auto. lia.
Qed.

Lemma set_left_ok w a n v :
  nodes w !! a = Some n ->
  set_left a v w = Ok tt (with_nodes (<[a := with_left v n]> (nodes w)) w).
Proof. intros H. unfold set_left, update_node. mstep. reflexivity. Qed.

Lemma set_right_ok w a n v :
  nodes w !! a = Some n ->
  set_right a v w = Ok tt (with_nodes (<[a := with_right v n]> (nodes w)) w).
Proof. intros H. unfold set_right, update_node. mstep. reflexivity. Qed.

Lemma set_parent_ok w a n v :
  nodes w !! a = Some n ->
  set_parent a v w = Ok tt (with_nodes (<[a := with_parent v n]> (nodes w)) w).
Proof. intros H. unfold set_parent, update_node. mstep. reflexivity. Qed.

Lemma set_color_ok w a n c :
  nodes w !! a = Some n ->
  set_color a c w = Ok tt (with_nodes (<[a := with_color c n]> (nodes w)) w).
Proof. intros H. unfold set_color, update_node. mstep. reflexivity. Qed.

Lemma get_parent_ok w a n :
  nodes w !! a = Some n -> get_parent a w = Ok (parent n) w.
Proof.
  intros H. unfold get_parent.
  rewrite (bind_ok _ _ _ _ _ (load_node_ok _ _ _ H)). reflexivity.
Qed.

Lemma get_color_ok w a n :
  nodes w !! a = Some n -> get_color a w = Ok (color n) w.
Proof.
  intros H. unfold get_color.
  rewrite (bind_ok _ _ _ _ _ (load_node_ok _ _ _ H)). reflexivity.
Qed.

Lemma set_root_ok w t (T : RBTree U) v :
  trees w !! t = Some T ->
  set_root t v w
  = Ok tt (mkWorld (nodes w) (<[t := with_root v T]> (trees w))
                   (node_free_list w) (user w)).
Proof. intros H. unfold set_root. mstep. reflexivity. Qed.

(** The allocator hands out an address outside the tree, initialised as
    requested, and changes no other node. *)
Lemma rb_tree_node_new_ok w s r k v p c :
  rep (nodes w) r s -> allocatable w s ->
  exists a fl,
    rb_tree_node_new k v p c w
    = Ok a (mkWorld (<[a := mkNode rb_null rb_null p c k v]> (nodes w))
                    (trees w) fl (user w)) /\
    a <> rb_null /\ (a ∉ shape_addrs s) /\ a <> NULL.
Proof.
  intros Hrep (Hsent & Hfl). unfold rb_tree_node_new.
  erewrite bind_ok by reflexivity.
  destruct (N.eqb (node_free_list w) NULL) eqn:E.
  - erewrite bind_ok by reflexivity.
    erewrite bind_ok by reflexivity.
    eexists _, _. split; [reflexivity|].
    pose proof (is_fresh ({[NULL]} ∪ dom (nodes w))) as Hfresh.
    split; [|split].
    + intros E'. apply Hfresh. rewrite E'. apply elem_of_union. right.
      apply elem_of_dom, Hsent.
    + intros Hin. apply Hfresh. apply elem_of_union. right.
      apply elem_of_dom.
      exact (proj1 (rep_addrs_mapped _ _ _ _ Hrep Hin)).
    + intros E'. apply Hfresh. rewrite E'. apply elem_of_union. left.
      apply elem_of_singleton. reflexivity.
  - apply N.eqb_neq in E.
    destruct Hfl as [Hnull | (Hne & Hout & [nf Hnf])]; [congruence|].
    erewrite bind_ok
      by (erewrite bind_ok by (apply get_left_ok; exact Hnf);
          erewrite bind_ok by reflexivity; reflexivity).
    erewrite bind_ok by reflexivity.
    eexists _, _. split; [reflexivity|]. auto.
Qed.

(** The rebalancing loop stops at once below a BLACK parent, and at the
    root. *)
Lemma insert_restore_at_root fuel t (T : RBTree U) a w :
  trees w !! t = Some T -> root T = a ->
  insert_restore fuel t a w = Ok tt w.
Proof.
  intros HT Hroot. destruct fuel; cbn [insert_restore]; mstep;
    rewrite Hroot, N.eqb_refl; reflexivity.
Qed.

Lemma insert_restore_black_parent fuel t (T : RBTree U) a na np w :
  trees w !! t = Some T -> root T <> a ->
  nodes w !! a = Some na -> nodes w !! parent na = Some np ->
  color np = BLACK ->
  insert_restore fuel t a w = Ok tt w.
Proof.
  intros HT Hroot Ha Hp Hc.
  assert (Hcont :
            (if N.eqb a (root T) then ret false
             else (p <- get_parent a ;; c <- get_color p ;;
                   ret (color_eqb c RED))) w = Ok false w).
  { assert (N.eqb a (root T) = false) as -> by (apply N.eqb_neq; congruence).
    erewrite bind_ok by (apply get_parent_ok; exact Ha).
    erewrite bind_ok by (apply get_color_ok; exact Hp).
    rewrite Hc. reflexivity. }
  destruct fuel; cbn [insert_restore]; mstep;
    erewrite bind_ok by exact Hcont; reflexivity.
Qed.

Lemma rb_tree_find_attach w t T s fuel k v replace :
  tree_at w t T s -> NoDup (shape_addrs s) -> (depth s <= fuel)%nat ->
  allocatable w s ->
  shape_find (key_compare T) (key_compare_data T) k s = rb_null ->
  (s = Leaf \/
   exists n,
     nodes w !! shape_parent (key_compare T) (key_compare_data T) k rb_null s
     = Some n /\ color n = BLACK) ->
  exists a w',
    rb_tree_find fuel t k v true replace w = Ok a w' /\
    a <> rb_null /\ (a ∉ shape_addrs s) /\ a <> NULL /\ user w' = user w /\
    (exists na, nodes w' !! a = Some na /\ key na = k /\ value na = v) /\
    tree_at w' t
      (with_root (match s with Leaf => a | Node _ b _ _ => b end) T)
      (shape_update (match s with Leaf => a | Node _ b _ _ => b end)
         (with_color BLACK)
         (shape_insert (key_compare T) (key_compare_data T) k v a rb_null s)).
Proof.
  intros (Ht & HT & Hrep) Hnd Hfuel Halloc Habs Hblack.
  set (cmp := key_compare T) in *. set (d := key_compare_data T) in *.
  set (ip := shape_parent cmp d k rb_null s) in *.
  destruct (rb_tree_node_new_ok w s (root T) k v ip RED Hrep Halloc)
    as (a & fl & Hnew & Hann & Haout & Hanull).
  exists a.
  unfold rb_tree_find. rewrite orb_true_r. cbn [invariant].
  erewrite bind_ok by reflexivity. mstep.
  erewrite bind_ok by (eapply find_descend_parent; eauto).
  cbn beta iota zeta. cbn [andb orb negb]. fold cmp d ip.
  erewrite bind_ok by exact Hnew.
  set (rec := mkNode rb_null rb_null ip RED k v) in *.
  set (w1 := mkWorld (<[a := rec]> (nodes w)) (trees w) fl (user w)) in *.
  destruct s as [|l b n r].
  - (* empty tree: the new node becomes the root *)
    simpl in Hrep. subst ip. cbn [shape_parent]. cbn [N.eqb rb_null Pos.eqb].
    erewrite bind_ok by (apply set_root_ok; exact HT).
    set (w2 := mkWorld _ _ _ _).
    assert (HT2 : trees w2 !! t = Some (with_root a T))
      by apply lookup_insert_eq.
    erewrite bind_ok by (eapply insert_restore_at_root; [exact HT2|reflexivity]).
    erewrite bind_ok by (eapply get_root_ok; exact HT2). cbn [root with_root].
    erewrite bind_ok
      by (apply (set_color_ok w2 a rec); apply lookup_insert_eq).
    eexists. split; [reflexivity|].
    subst w2 w1. cbn [nodes trees user with_nodes].
    refine (conj Hann (conj Haout (conj Hanull (conj eq_refl (conj _ _))))).
    + eexists. split; [apply lookup_insert_eq|]. auto.
    + split; [exact Ht|]. split; [apply lookup_insert_eq|].
      cbn [shape_insert shape_update root with_root]. rewrite N.eqb_refl.
      cbn [rep with_color left right nodes with_nodes].
      rewrite lookup_insert_eq. repeat split; auto.
  - (* the new node hangs below the last node of the descent *)
    destruct Hblack as [|(n_ip & Hip & Hcol)]; [discriminate|].
    pose proof Hrep as (Hb & Hbnn & Hn & Hl & Hr).
    subst b. set (b := root T) in *.
    pose proof (shape_parent_in cmp d k (Node l b n r) rb_null
                  ltac:(discriminate)) as Hin. fold ip in Hin.
    destruct (rep_addrs_mapped _ _ _ _ Hrep Hin) as (_ & Hipnn).
    assert (Hipa : ip <> a) by (intros E; rewrite E in Hin; auto).
    assert (Hba : b <> a) by (intros E; apply Haout; rewrite <- E; simpl;
                              set_solver).
    apply N.eqb_neq in Hipnn as Hipb. rewrite Hipb.
    assert (Hip1 : nodes w1 !! ip = Some n_ip)
      by (cbn [nodes w1]; rewrite lookup_insert_ne by congruence; exact Hip).
    assert (Ha1 : nodes w1 !! a = Some rec) by apply lookup_insert_eq.
    assert (HT1 : trees w1 !! t = Some T) by exact HT.
    set (n_ip' := if cmp k (key n_ip) d <? 0
                  then with_left a n_ip else with_right a n_ip).
    set (w2 := with_nodes (<[ip := n_ip']> (nodes w1)) w1).
    assert (Hlink :
              (T0 <- load_tree t ;;
               nk <- get_key a ;;
               pk <- get_key ip ;;
               (if key_compare T0 nk pk (key_compare_data T0) <? 0
                then set_left ip a else set_right ip a)) w1 = Ok tt w2).
    { erewrite bind_ok by (apply load_tree_ok; exact HT1).
      erewrite bind_ok by (apply get_key_ok; exact Ha1).
      erewrite bind_ok by (apply get_key_ok; exact Hip1).
      cbn [key rec]. fold cmp d. unfold w2, n_ip'.
      destruct (cmp k (key n_ip) d <? 0).
      - apply set_left_ok, Hip1.
      - apply set_right_ok, Hip1. }
    erewrite bind_ok by exact Hlink.
    assert (HT2 : trees w2 !! t = Some T) by exact HT.
    assert (Ha2 : nodes w2 !! a = Some rec).
    { cbn [nodes w2 with_nodes]. rewrite lookup_insert_ne by exact Hipa.
      exact Ha1. }
    assert (Hip2 : nodes w2 !! ip = Some n_ip') by apply lookup_insert_eq.
    assert (Hcol' : color n_ip' = BLACK)
      by (unfold n_ip'; destruct (_ <? 0); exact Hcol).
    erewrite bind_ok
      by (eapply (insert_restore_black_parent fuel t T a rec n_ip');
          [exact HT2 | exact Hba | exact Ha2 | exact Hip2
          | exact Hcol']).
    erewrite bind_ok by (eapply get_root_ok; exact HT2).
    assert (Hrep2 : rep (nodes w2) (root T)
                        (shape_insert cmp d k v a rb_null (Node l b n r))).
    { cbn [nodes w2 w1 with_nodes]. unfold n_ip', rec.
      apply rep_shape_insert; auto; discriminate. }
    assert (exists n_b, nodes w2 !! b = Some n_b) as [n_b Hnb].
    { cbn [shape_insert] in Hrep2.
      destruct (cmp k (key n) d <? 0); [destruct Hrep2 as (_ & _ & ? & _); eauto|].
      destruct (cmp k (key n) d =? 0); destruct Hrep2 as (_ & _ & ? & _); eauto. }
    erewrite bind_ok by (apply (set_color_ok w2 b n_b); exact Hnb).
    eexists. split; [reflexivity|].
    refine (conj Hann (conj Haout (conj Hanull (conj eq_refl (conj _ _))))).
    + eexists. split.
      * cbn [nodes with_nodes]. rewrite lookup_insert_ne by exact Hba.
        exact Ha2.
      * auto.
    + split; [exact Ht|]. split.
      * cbn [trees with_nodes]. rewrite HT2. unfold b.
        rewrite with_root_id. reflexivity.
      * cbn [root with_root nodes with_nodes].
        refine (rep_update (nodes w2) b n_b (with_color BLACK) Hnb eq_refl
                  eq_refl _ _ _).
        exact Hrep2.
Qed.

End InsertRun.

Lemma NoDup_insert_middle (l1 l2 : list addr) (a : addr) :
  NoDup (l1 ++ l2) -> a ∉ l1 ++ l2 -> NoDup (l1 ++ a :: l2).
Proof.
  intros Hnd Ha. apply NoDup_app in Hnd as (H1 & H12 & H2).
  apply NoDup_app. split; [exact H1|]. split.
  - intros x Hx Hx'. apply elem_of_cons in Hx' as [->|Hx'].
    + apply Ha, elem_of_app. auto.
    + exact (H12 _ Hx Hx').
  - apply NoDup_cons. split; [|exact H2].
    intros Hin. apply Ha, elem_of_app. auto.
Qed.

(** X11. Inserting a key that is not in the tree, where no rebalancing is
    called for (the tree is empty, or the node the new leaf hangs below is
    BLACK): [rb_tree_insert] and [rb_tree_replace] return the same world, no
    callback runs, the tree is again a tree of distinct nodes whose in-order
    sequence is the old one with the new pair put in at one place, search
    order is kept, [rb_tree_size] returns the old number of nodes plus one
    (as an [int]), and a lookup of the key returns the value (for a
    comparator that finds a key equal to itself). *)
Theorem X11_insert_of_new_key_without_rebalancing {U : Type}
    (w : world U) (t : addr) (T : RBTree U) (s : shape) (fuel : nat)
    (k v : pointer) :
  tree_at w t T s ->
  NoDup (shape_addrs s) ->
  (depth s <= fuel)%nat ->
  allocatable w s ->
  shape_find (key_compare T) (key_compare_data T) k s = rb_null ->
  (s = Leaf \/
   exists n,
     nodes w !! shape_parent (key_compare T) (key_compare_data T) k rb_null s
     = Some n /\ color n = BLACK) ->
  exists w' T' s',
    rb_tree_insert fuel t k v w = Ok tt w' /\
    rb_tree_replace fuel t k v w = Ok tt w' /\
    user w' = user w /\
    tree_at w' t T' s' /\ NoDup (shape_addrs s') /\
    (exists l1 l2,
        shape_inorder s = l1 ++ l2 /\
        shape_inorder s' = l1 ++ (k, v) :: l2) /\
    (ordered (key_compare T) (key_compare_data T) s ->
     ordered (key_compare T) (key_compare_data T) s') /\
    rb_tree_size (S fuel) t w' = Ok (int_wrap (shape_count s + 1)) w' /\
    (key_compare T k k (key_compare_data T) = 0 ->
     rb_tree_lookup (S fuel) t k w' = Ok v w').
Proof.
  intros Hat Hnd Hfuel Halloc Habs Hblack.
  pose proof Hat as (Ht & HT & Hrep).
  assert (Hnn : forall b, b ∈ shape_addrs s -> b <> rb_null)
    by (intros b Hb; eapply rep_addrs_mapped; eassumption).
  destruct (rb_tree_find_attach w t T s fuel k v false
              Hat Hnd Hfuel Halloc Habs Hblack)
    as (a & w' & Hins & Hann & Haout & _ & Huser & (na & Hna & Hk & Hv)
        & Hat').
  destruct (rb_tree_find_attach w t T s fuel k v true
              Hat Hnd Hfuel Halloc Habs Hblack)
    as (a2 & w2 & Hrepl & _).
  assert (Hsame : rb_tree_find fuel t k v true true w
                  = rb_tree_find fuel t k v true false w).
  { unfold rb_tree_find. rewrite !orb_true_r. cbn [invariant].
    erewrite !(bind_ok (ret tt)) by reflexivity.
    erewrite !(bind_ok (get_root t)) by (apply get_root_ok; exact HT).
    erewrite !(bind_ok (find_descend _ _ _ _ _ _))
      by (eapply find_descend_parent; eauto).
    reflexivity. }
  set (r' := match s with Leaf => a | Node _ b _ _ => b end) in *.
  set (s2 := shape_insert (key_compare T) (key_compare_data T) k v a
                          rb_null s) in *.
  set (s' := shape_update r' (with_color BLACK) s2) in *.
  assert (Hpaint : forall n, key (with_color BLACK n) = key n /\
                             value (with_color BLACK n) = value n)
    by (intros; split; reflexivity).
  assert (Hin_order : exists l1 l2,
             shape_inorder s = l1 ++ l2 /\
             shape_inorder s' = l1 ++ (k, v) :: l2).
  { unfold s'. rewrite shape_update_inorder by exact Hpaint.
    apply shape_insert_inorder; assumption. }
  assert (Hdepth : (depth s' <= S fuel)%nat).
  { unfold s'. rewrite shape_update_depth.
    pose proof (shape_insert_depth (key_compare T) (key_compare_data T)
                  k v a s rb_null). fold s2 in H. lia. }
  exists w', (with_root r' T), s'.
  split; [|split; [|split; [|split; [|split; [|split; [|split; [|split]]]]]]].
  - unfold rb_tree_insert. mstep. erewrite bind_ok by exact Hins. reflexivity.
  - unfold rb_tree_replace. mstep. rewrite <- Hsame in Hins.
    erewrite bind_ok by exact Hins. reflexivity.
  - exact Huser.
  - exact Hat'.
  - unfold s'. rewrite shape_update_addrs.
    destruct (shape_insert_addrs (key_compare T) (key_compare_data T)
                k v a s rb_null Habs Hnn) as (l1 & l2 & H1 & H2).
    fold s2 in H2. rewrite H2. rewrite H1 in Hnd, Haout.
    apply NoDup_insert_middle; assumption.
  - exact Hin_order.
  - intros Hord. unfold s'. apply shape_update_ordered; [exact Hpaint|].
    apply shape_insert_ordered; assumption.
  - rewrite (rb_tree_size_rep w' t _ s' (S fuel) Hat' Hdepth).
    rewrite !shape_count_length.
    destruct Hin_order as (l1 & l2 & -> & ->).
    rewrite !length_app. cbn [length]. do 2 f_equal. lia.
  - intros Hkk.
    assert (Hfind : shape_find (key_compare T) (key_compare_data T) k s' = a).
    { unfold s'. rewrite shape_update_find by reflexivity.
      apply shape_insert_find; assumption. }
    rewrite <- Hv.
    apply (rb_tree_lookup_present w' t (with_root r' T) s' (S fuel) k na
             Hat' Hdepth); cbn [key_compare key_compare_data with_root];
      rewrite Hfind; assumption.
Qed.

(** ** The two-node tree *)

Lemma pair_world_built :
  run 2 [Insert 2 20; Insert 1 10] = Ok 1%N pair_world.
Proof. vm_compute. reflexivity. Qed.

Lemma pair_tree_at : tree_at pair_world 1%N sample_tree pair_shape.
Proof.
  unfold tree_at. split; [discriminate|]. split; [reflexivity|].
  simpl. repeat split; try reflexivity; discriminate.
Qed.

Lemma pair_shape_nodup : NoDup (shape_addrs pair_shape).
Proof. simpl. repeat constructor; set_solver. Qed.

Lemma pair_world_allocatable : allocatable pair_world pair_shape.
Proof. split; [eexists; reflexivity | left; reflexivity]. Qed.

Lemma X11_pair_insert_3 :
  exists w' T' s',
    rb_tree_insert 2 1%N 3 30 pair_world = Ok tt w' /\
    rb_tree_replace 2 1%N 3 30 pair_world = Ok tt w' /\
    user w' = user pair_world /\
    tree_at w' 1%N T' s' /\ NoDup (shape_addrs s') /\
    (exists l1 l2,
        shape_inorder pair_shape = l1 ++ l2 /\
        shape_inorder s' = l1 ++ (3, 30) :: l2) /\
    (ordered compare_pointers null pair_shape ->
     ordered compare_pointers null s') /\
    rb_tree_size 3 1%N w' = Ok (int_wrap (shape_count pair_shape + 1)) w' /\
    (compare_pointers 3 3 null = 0 -> rb_tree_lookup 3 1%N 3 w' = Ok 30 w').
Proof.
  apply (X11_insert_of_new_key_without_rebalancing pair_world 1%N sample_tree
           pair_shape 2%nat 3 30).
  - exact pair_tree_at.
  - exact pair_shape_nodup.
  - simpl. lia.
  - exact pair_world_allocatable.
  - reflexivity.
  - right. exists pair_root. split; reflexivity.
Defined.

(** ** Looking a key up after it has been overwritten *)

Section Overwrite.

Variable cmp : CompareDataFunc.
Variable data : pointer.

(** Rewriting the node a descent for [k] ends at, with a key that still
    compares equal to [k], does not change where descents for [k] end. *)
Lemma shape_update_find_same (m : gmap N RBTreeNode) k a n f s : forall r,
  rep m r s -> m !! a = Some n ->
  cmp k (key n) data = 0 -> cmp k (key (f n)) data = 0 ->
  shape_find cmp data k (shape_update a f s) = shape_find cmp data k s.
Proof.
  intros r Hrep Ha Hold Hnew. revert r Hrep.
  induction s as [|l IHl b nb rr IHr]; intros r Hrep; [reflexivity|].
  destruct Hrep as (-> & Hnn & Hb & Hl & Hr).
  cbn [shape_update shape_find]. destruct (N.eqb a b) eqn:E.
  - apply N.eqb_eq in E. subst b. assert (nb = n) by congruence. subst nb.
    rewrite Hold, Hnew. reflexivity.
  - rewrite (IHl _ Hl), (IHr _ Hr). reflexivity.
Qed.

End Overwrite.

Section OverwriteRun.

Context {U : Type}.
Implicit Types (w : world U) (a t : addr) (n : RBTreeNode) (s : shape).

(** The world after [rb_tree_insert] or [rb_tree_replace] has overwritten
    the node of a present key. *)
Lemma overwritten_tree_at w t T s a n f u :
  tree_at w t T s -> nodes w !! a = Some n ->
  left (f n) = left n -> right (f n) = right n ->
  tree_at (mkWorld (<[a := f n]> (nodes w)) (trees w) (node_free_list w) u)
          t T (shape_update a f s).
Proof.
  intros (Ht & HT & Hrep) Hn Hl Hr. repeat split; auto.
  cbn [nodes]. apply rep_update; assumption.
Qed.

End OverwriteRun.

(** X12. After [rb_tree_insert] or [rb_tree_replace] has overwritten a
    present key, looking that key up returns the new value
    ([rb_tree_replace] needs a comparator for which the new key equals
    itself), and after [rb_tree_insert] every lookup that ended at another
    node answers exactly as before. *)
Theorem X12_lookup_after_overwriting {U : Type}
    (w : world U) (t : addr) (T : RBTree U) (s : shape) (fuel : nat)
    (k v x y k0 v0 : pointer) :
  tree_at w t T s ->
  (depth s <= fuel)%nat ->
  rb_tree_lookup_extended fuel t k (Some x) (Some y) w
  = Ok (true, Some k0, Some v0) w ->
  exists wi wr,
    rb_tree_insert fuel t k v w = Ok tt wi /\
    rb_tree_lookup fuel t k wi = Ok v wi /\
    rb_tree_lookup_extended fuel t k (Some x) (Some y) wi
    = Ok (true, Some k0, Some v) wi /\
    (forall k',
        shape_find (key_compare T) (key_compare_data T) k' s
        <> shape_find (key_compare T) (key_compare_data T) k s ->
        exists r,
          rb_tree_lookup_extended fuel t k' (Some x) (Some y) w = Ok r w /\
          rb_tree_lookup_extended fuel t k' (Some x) (Some y) wi = Ok r wi) /\
    rb_tree_replace fuel t k v w = Ok tt wr /\
    (key_compare T k k (key_compare_data T) = 0 ->
     rb_tree_lookup fuel t k wr = Ok v wr /\
     rb_tree_lookup_extended fuel t k (Some x) (Some y) wr
     = Ok (true, Some k, Some v) wr).
Proof.
  intros Hat Hfuel Hfound. pose proof Hat as (Ht & HT & Hrep).
  set (cmp := key_compare T) in *. set (d := key_compare_data T) in *.
  set (a := shape_find cmp d k s).
  assert (Hpres : a <> rb_null).
  { intros E.
    rewrite (rb_tree_lookup_extended_absent w t T s fuel k _ _ Hat Hfuel E)
      in Hfound.
    discriminate. }
  destruct (shape_find_hit cmp d k s _ _ Hrep Hpres) as (n & Hn & _ & Hc).
  fold a in Hn.
  destruct (rb_tree_lookup_extended_present w t T s fuel k n Hat Hfuel
              Hpres Hn) as [Hboth _].
  rewrite Hboth in Hfound. injection Hfound as Hk0 Hv0. subst k0 v0.
  eexists _, _.
  split.
  { unfold rb_tree_insert. mstep.
    erewrite bind_ok by (eapply rb_tree_find_insert_existing; eauto).
    reflexivity. }
  set (wi := mkWorld _ _ _ _).
  assert (Hati : tree_at wi t T (shape_update a (with_value v) s))
    by (apply overwritten_tree_at; auto).
  assert (Hdi : (depth (shape_update a (with_value v) s) <= fuel)%nat)
    by (rewrite shape_update_depth; exact Hfuel).
  assert (Hfi : forall k',
             shape_find cmp d k' (shape_update a (with_value v) s)
             = shape_find cmp d k' s)
    by (intros; apply shape_update_find; reflexivity).
  assert (Hai : nodes wi !! a = Some (with_value v n))
    by apply lookup_insert_eq.
  destruct (rb_tree_lookup_extended_present wi t T _ fuel k (with_value v n)
              Hati Hdi) as [Hbi _].
  { fold cmp d. rewrite Hfi. exact Hpres. }
  { fold cmp d. rewrite Hfi. exact Hai. }
  split.
  { apply (rb_tree_lookup_present wi t T _ fuel k (with_value v n) Hati Hdi);
      fold cmp d; rewrite Hfi; assumption. }
  split; [apply Hbi|].
  split.
  { intros k' Hother.
    destruct (N.eq_dec (shape_find cmp d k' s) rb_null) as [E|E].
    - exists (false, Some x, Some y). split.
      + eapply rb_tree_lookup_extended_absent; eassumption.
      + eapply rb_tree_lookup_extended_absent; try eassumption.
        fold cmp d. rewrite Hfi. exact E.
    - destruct (shape_find_stored cmp d k' s _ _ Hrep E) as (n' & Hn').
      exists (true, Some (key n'), Some (value n')). split.
      + eapply rb_tree_lookup_extended_present; eassumption.
      + eapply (rb_tree_lookup_extended_present wi t T _ fuel k' n');
          try eassumption; fold cmp d; rewrite Hfi; [exact E|].
        cbn [nodes wi]. rewrite lookup_insert_ne by (fold a in Hother; auto).
        exact Hn'. }
  split.
  { unfold rb_tree_replace. mstep.
    erewrite bind_ok by (eapply rb_tree_find_replace_existing; eauto).
    reflexivity. }
  intros Hkk.
  set (f := fun n => with_value v (with_key k n)).
  set (wr := mkWorld _ _ _ _).
  assert (Hatr : tree_at wr t T (shape_update a f s))
    by (apply (overwritten_tree_at w t T s a n f); auto).
  assert (Hdr : (depth (shape_update a f s) <= fuel)%nat)
    by (rewrite shape_update_depth; exact Hfuel).
  assert (Hfr : shape_find cmp d k (shape_update a f s) = a)
    by (apply (shape_update_find_same cmp d (nodes w) k a n f s (root T));
        auto).
  assert (Har : nodes wr !! a = Some (f n)) by apply lookup_insert_eq.
  split.
  - apply (rb_tree_lookup_present wr t T _ fuel k (f n) Hatr Hdr);
      fold cmp d; rewrite Hfr; assumption.
  - eapply (rb_tree_lookup_extended_present wr t T _ fuel k (f n));
      try eassumption; fold cmp d; rewrite Hfr; assumption.
Qed.

Lemma X12_sample_overwrite_key_2 :
  exists wi wr,
    rb_tree_insert 2 1%N 2 99 sample_world = Ok tt wi /\
    rb_tree_lookup 2 1%N 2 wi = Ok 99 wi /\
    rb_tree_lookup_extended 2 1%N 2 (Some 0) (Some 0) wi
    = Ok (true, Some 2, Some 99) wi /\
    (forall k',
        shape_find compare_pointers null k' sample_shape
        <> shape_find compare_pointers null 2 sample_shape ->
        exists r,
          rb_tree_lookup_extended 2 1%N k' (Some 0) (Some 0) sample_world
          = Ok r sample_world /\
          rb_tree_lookup_extended 2 1%N k' (Some 0) (Some 0) wi = Ok r wi) /\
    rb_tree_replace 2 1%N 2 99 sample_world = Ok tt wr /\
    (compare_pointers 2 2 null = 0 ->
     rb_tree_lookup 2 1%N 2 wr = Ok 99 wr /\
     rb_tree_lookup_extended 2 1%N 2 (Some 0) (Some 0) wr
     = Ok (true, Some 2, Some 99) wr).
Proof.
  apply (X12_lookup_after_overwriting sample_world 1%N sample_tree
           sample_shape 2%nat 2 99 0 0 2 20).
  - exact sample_tree_at.
  - simpl. lia.
  - vm_compute. reflexivity.
Defined.

(** ** Left rotation *)

Section RotateLeft.

Context {U : Type}.
Implicit Types (w : world U) (a t x y p : addr) (n : RBTreeNode) (s : shape).

(** Where the rotated subtree hangs afterwards: at the root of the tree when
    [x] had the sentinel as parent, otherwise in the link of the parent that
    pointed at [x] (the right link when neither did). *)
Lemma rb_tree_rotate_left_rep w t T x nx y ny A B C np :
  trees w !! t = Some T ->
  rep (nodes w) x (Node A x nx (Node B y ny C)) ->
  NoDup (shape_addrs (Node A x nx (Node B y ny C))) ->
  (parent nx = rb_null \/
   ((parent nx ∉ shape_addrs (Node A x nx (Node B y ny C))) /\
    nodes w !! parent nx = Some np)) ->
  exists w',
    rb_tree_rotate_left t x w = Ok tt w' /\
    user w' = user w /\ node_free_list w' = node_free_list w /\
    rep (nodes w') y (rotated_left x nx y ny A B C) /\
    (if N.eqb (parent nx) rb_null
     then trees w' = <[t := with_root y T]> (trees w)
     else trees w' = trees w /\
          nodes w' !! parent nx
          = Some (if N.eqb x (left np) then with_left y np
                  else with_right y np)) /\
    (forall c, c <> x -> c <> y -> c <> left ny -> c <> parent nx ->
               nodes w' !! c = nodes w !! c).
Proof.
  intros HT Hrep Hnd Hp.
  destruct Hrep as (_ & Hxnn & Hx & HA & Hy).
  destruct Hy as (Hxr & Hynn & Hy & HB & HC).
  rewrite Hxr in Hynn, Hy.
  destruct (shape_addrs_nodup_node _ _ _ _ Hnd)
    as (HndA & Hndy & HxA & Hxy & HAy).
  destruct (shape_addrs_nodup_node _ _ _ _ Hndy)
    as (HndB & HndC & HyB & HyC & HBC).
  assert (Hxney : x <> y) by (intros E; apply Hxy; rewrite E; simpl; set_solver).
  assert (HxB : x ∉ shape_addrs B) by (intros ?; apply Hxy; simpl; set_solver).
  assert (HxC : x ∉ shape_addrs C) by (intros ?; apply Hxy; simpl; set_solver).
  assert (HyA : y ∉ shape_addrs A)
    by (intros ?; eapply HAy; [eassumption|]; simpl; set_solver).
  assert (HAB : forall c, c ∈ shape_addrs A -> c ∉ shape_addrs B)
    by (intros c ? ?; eapply HAy; [eassumption|]; simpl; set_solver).
  assert (HAC : forall c, c ∈ shape_addrs A -> c ∉ shape_addrs C)
    by (intros c ? ?; eapply HAy; [eassumption|]; simpl; set_solver).
  unfold rb_tree_rotate_left.
  rewrite (not_sentinel_test _ Hxnn). cbn [invariant].
  erewrite bind_ok by reflexivity. mstep. rewrite Hxr.
  rewrite (not_sentinel_test _ Hynn). cbn [invariant].
  erewrite bind_ok by reflexivity. mstep. rewrite Hxr.
  (* x->right = y->left *)
  mstep. erewrite bind_ok by (apply set_right_ok; exact Hx).
  set (nx1 := with_right (left ny) nx).
  set (w1 := with_nodes (<[x := nx1]> (nodes w)) w).
  assert (Hy1 : nodes w1 !! y = Some ny)
    by (cbn [nodes w1 with_nodes]; rewrite lookup_insert_ne by exact Hxney;
        exact Hy).
  erewrite bind_ok by (apply get_left_ok; exact Hy1).
  (* the inner subtree B, when there is one, gets x as parent *)
  assert (exists w2,
             (if negb (N.eqb (left ny) rb_null)
              then (yl <- get_left y ;; set_parent yl x) else ret tt) w1
             = Ok tt w2 /\
             user w2 = user w /\ node_free_list w2 = node_free_list w /\
             trees w2 = trees w /\
             nodes w2 !! x = Some nx1 /\ nodes w2 !! y = Some ny /\
             rep (nodes w2) (left ny)
                 (shape_update (left ny) (with_parent x) B) /\
             (forall c, c <> x -> c <> left ny ->
                        nodes w2 !! c = nodes w !! c))
    as (w2 & Hstep & Hu2 & Hf2 & Ht2 & Hx2 & Hy2 & HB2 & Hframe2).
  { destruct B as [|Bl b nb Br].
    - simpl in HB. rewrite HB. cbn [N.eqb rb_null Pos.eqb negb].
      exists w1. repeat split; auto.
      + apply lookup_insert_eq.
      + intros c Hcx _. cbn [nodes w1 with_nodes].
        apply lookup_insert_ne. congruence.
    - pose proof HB as (Hb & Hbnn & Hnb & HBl & HBr).
      rewrite (not_sentinel_test _ Hbnn).
      assert (Hbx : left ny <> x)
        by (intros E; apply HxB; rewrite <- E, Hb; simpl; set_solver).
      assert (Hby : left ny <> y)
        by (intros E; apply HyB; rewrite <- E, Hb; simpl; set_solver).
      assert (Hnb1 : nodes w1 !! left ny = Some nb)
        by (cbn [nodes w1 with_nodes]; rewrite lookup_insert_ne by congruence;
            exact Hnb).
      erewrite bind_ok by (apply get_left_ok; exact Hy1).
      eexists. split; [apply set_parent_ok; exact Hnb1|].
      cbn [nodes trees user node_free_list with_nodes w1].
      refine (conj eq_refl (conj eq_refl (conj eq_refl
                (conj _ (conj _ (conj _ _)))))).
      + rewrite lookup_insert_ne by congruence. apply lookup_insert_eq.
      + rewrite lookup_insert_ne by congruence.
        rewrite lookup_insert_ne by congruence. exact Hy.
      + refine (rep_update _ (left ny) nb (with_parent x) _ eq_refl eq_refl
                  _ _ _).
        * rewrite lookup_insert_ne by congruence. exact Hnb.
        * eapply rep_frame; [exact HB|]. intros c Hc.
          apply lookup_insert_ne. intros ->. auto.
      + intros c Hcx Hcb. rewrite !lookup_insert_ne by congruence.
        reflexivity. }
  erewrite bind_ok by exact Hstep.
  (* y->parent = x->parent *)
  erewrite bind_ok by (apply get_parent_ok; exact Hx2).
  erewrite bind_ok by (apply set_parent_ok; exact Hy2).
  set (ny3 := with_parent (parent nx) ny).
  set (w3 := with_nodes (<[y := ny3]> (nodes w2)) w2).
  assert (Hx3 : nodes w3 !! x = Some nx1)
    by (cbn [nodes w3 with_nodes]; rewrite lookup_insert_ne by congruence;
        exact Hx2).
  assert (Hy3 : nodes w3 !! y = Some ny3) by apply lookup_insert_eq.
  erewrite bind_ok by (apply get_parent_ok; exact Hx3). cbn [parent nx1 with_right].
  (* the link above x *)
  assert (exists w4,
             (if N.eqb (parent nx) rb_null then set_root t y
              else
                xp <- get_parent x ;;
                xpl <- get_left xp ;;
                if N.eqb x xpl
                then (xp <- get_parent x ;; set_left xp y)
                else (xp <- get_parent x ;; set_right xp y)) w3 = Ok tt w4 /\
             user w4 = user w /\ node_free_list w4 = node_free_list w /\
             nodes w4 !! x = Some nx1 /\ nodes w4 !! y = Some ny3 /\
             (if N.eqb (parent nx) rb_null
              then trees w4 = <[t := with_root y T]> (trees w) /\
                   nodes w4 = nodes w3
              else trees w4 = trees w /\
                   nodes w4
                   = <[parent nx := if N.eqb x (left np) then with_left y np
                                    else with_right y np]> (nodes w3) /\
                   parent nx ∉ shape_addrs (Node A x nx (Node B y ny C))))
    as (w4 & Hlink & Hu4 & Hf4 & Hx4 & Hy4 & Hl4).
  { destruct (N.eqb (parent nx) rb_null) eqn:Ep.
    - eexists. split.
      + apply set_root_ok. cbn [trees w3 with_nodes]. rewrite Ht2. exact HT.
      + cbn [nodes trees user node_free_list with_nodes w3].
        rewrite Ht2. repeat split; auto.
    - apply N.eqb_neq in Ep.
      destruct Hp as [Hp | (Hpout & Hpn)]; [congruence|].
      assert (Hpx : parent nx <> x) by (intros E; apply Hpout; rewrite E; simpl;
                                        set_solver).
      assert (Hpy : parent nx <> y) by (intros E; apply Hpout; rewrite E; simpl;
                                        set_solver).
      assert (Hpb : parent nx <> left ny \/ left ny = rb_null).
      { destruct B as [|Bl b nb Br]; [right; exact HB|]. left.
        destruct HB as (Hb & _). intros E. apply Hpout. rewrite E, Hb. simpl.
        set_solver. }
      assert (Hp3 : nodes w3 !! parent nx = Some np).
      { cbn [nodes w3 with_nodes]. rewrite lookup_insert_ne by congruence.
        destruct Hpb as [Hpb|Hpb].
        - rewrite Hframe2 by congruence. exact Hpn.
        - rewrite Hframe2; [exact Hpn | congruence | congruence]. }
      erewrite bind_ok by (apply get_parent_ok; exact Hx3).
      cbn [parent nx1 with_right].
      erewrite bind_ok by (apply get_left_ok; exact Hp3).
      destruct (N.eqb x (left np)).
      + erewrite bind_ok by (apply get_parent_ok; exact Hx3).
        cbn [parent nx1 with_right].
        eexists. split; [apply set_left_ok; exact Hp3|].
        cbn [nodes trees user node_free_list with_nodes w3].
        rewrite !lookup_insert_ne by congruence.
        repeat split; auto; try apply lookup_insert_eq.
      + erewrite bind_ok by (apply get_parent_ok; exact Hx3).
        cbn [parent nx1 with_right].
        eexists. split; [apply set_right_ok; exact Hp3|].
        cbn [nodes trees user node_free_list with_nodes w3].
        rewrite !lookup_insert_ne by congruence.
        repeat split; auto; try apply lookup_insert_eq. }
  erewrite bind_ok by exact Hlink.
  (* y->left = x; x->parent = y *)
  erewrite bind_ok by (apply set_left_ok; exact Hy4).
  set (w5 := with_nodes (<[y := with_left x ny3]> (nodes w4)) w4).
  assert (Hx5 : nodes w5 !! x = Some nx1)
    by (cbn [nodes w5 with_nodes]; rewrite lookup_insert_ne by congruence;
        exact Hx4).
  eexists. split; [apply set_parent_ok; exact Hx5|].
  cbn [nodes trees user node_free_list with_nodes w5].
  split; [exact Hu4|]. split; [exact Hf4|].
  assert (Hother : forall c, c <> x -> c <> y -> c <> left ny ->
                             c <> parent nx ->
                             nodes w4 !! c = nodes w !! c).
  { intros c Hcx Hcy Hcb Hcp.
    destruct (N.eqb (parent nx) rb_null).
    - destruct Hl4 as (_ & ->). cbn [nodes w3 with_nodes].
      rewrite lookup_insert_ne by congruence. apply Hframe2; assumption.
    - destruct Hl4 as (_ & -> & _). cbn [nodes w3 with_nodes].
      rewrite !lookup_insert_ne by congruence. apply Hframe2; assumption. }
  assert (Hkeep : forall D r,
             rep (nodes w) r D ->
             x ∉ shape_addrs D -> y ∉ shape_addrs D ->
             (forall c, c ∈ shape_addrs D -> c ∉ shape_addrs B) ->
             (forall c, c ∈ shape_addrs D ->
                        c ∈ shape_addrs (Node A x nx (Node B y ny C))) ->
             rep (<[x := with_parent y nx1]>
                    (<[y := with_left x ny3]> (nodes w4))) r D).
  { intros D r HD HxD HyD HDB HDin. eapply rep_frame; [exact HD|].
    intros c Hc.
    assert (c <> x) by (intros ->; auto).
    assert (c <> y) by (intros ->; auto).
    rewrite !lookup_insert_ne by congruence.
    apply Hother; auto.
    - destruct B as [|Bl b nb Br].
      + simpl in HB. rewrite HB.
        eapply rep_addrs_mapped; eassumption.
      + destruct HB as (Hb & _). rewrite Hb. intros ->.
        eapply HDB; [eassumption|]. simpl. set_solver.
    - destruct (N.eqb (parent nx) rb_null) eqn:Ep.
      + apply N.eqb_eq in Ep. rewrite Ep.
        eapply rep_addrs_mapped; eassumption.
      + destruct Hl4 as (_ & _ & Hpout). intros ->. apply Hpout.
        apply HDin, Hc. }
  split.
  { unfold rotated_left.
    cbn [rep with_left with_parent with_right left right nx1 ny3].
    rewrite lookup_insert_ne by congruence. rewrite lookup_insert_eq.
    rewrite lookup_insert_eq.
    repeat split; auto.
    - apply Hkeep; auto. intros c Hc. simpl. set_solver.
    - (* B, with its root re-parented *)
      eapply rep_frame; [exact HB2|]. intros c Hc.
      rewrite shape_update_addrs in Hc.
      assert (c <> x) by (intros ->; auto).
      assert (c <> y) by (intros ->; auto).
      rewrite !lookup_insert_ne by congruence.
      destruct (N.eqb (parent nx) rb_null) eqn:Ep.
      + destruct Hl4 as (_ & ->). cbn [nodes w3 with_nodes].
        rewrite lookup_insert_ne by congruence. reflexivity.
      + destruct Hl4 as (_ & -> & Hpout). cbn [nodes w3 with_nodes].
        rewrite lookup_insert_ne
          by (intros <-; apply Hpout; simpl; set_solver).
        rewrite lookup_insert_ne by congruence. reflexivity.
    - apply Hkeep; auto.
      + intros c Hc Hc'. eapply HBC; eassumption.
      + intros c Hc. simpl. set_solver. }
  split.
  { destruct (N.eqb (parent nx) rb_null) eqn:Ep.
    - destruct Hl4 as (-> & _). reflexivity.
    - destruct Hl4 as (-> & -> & Hpout). split; [reflexivity|].
      assert (parent nx <> x)
        by (intros E; apply Hpout; rewrite E; simpl; set_solver).
      assert (parent nx <> y)
        by (intros E; apply Hpout; rewrite E; simpl; set_solver).
      rewrite !lookup_insert_ne by congruence. apply lookup_insert_eq. }
  intros c Hcx Hcy Hcb Hcp. rewrite !lookup_insert_ne by congruence.
  apply Hother; assumption.
Qed.

Lemma rotated_left_inorder x nx y ny A B C :
  shape_inorder (rotated_left x nx y ny A B C)
  = shape_inorder (Node A x nx (Node B y ny C)).
Proof.
  unfold rotated_left. cbn [shape_inorder].
  rewrite shape_update_inorder by (intros []; split; reflexivity).
  destruct nx, ny. cbn. rewrite <- app_assoc. reflexivity.
Qed.

End RotateLeft.

(** X13. [rb_tree_rotate_left] on a node [x] whose right child [y] is a real
    node turns the subtree x(A, y(B, C)) into y(x(A, B), C): the in-order
    sequence of pairs is the same, the root of the tree or the link of the
    parent that pointed at [x] now points at [y], no notifier is called, the
    free list is untouched, and no node outside [x], [y], the root of [B] and
    the parent of [x] is written. *)
Theorem X13_rotate_left_keeps_the_sequence {U} (w : world U) t T
    x nx y ny A B C np :
  trees w !! t = Some T ->
  rep (nodes w) x (Node A x nx (Node B y ny C)) ->
  NoDup (shape_addrs (Node A x nx (Node B y ny C))) ->
  (parent nx = rb_null \/
   ((parent nx ∉ shape_addrs (Node A x nx (Node B y ny C))) /\
    nodes w !! parent nx = Some np)) ->
  exists w',
    rb_tree_rotate_left t x w = Ok tt w' /\
    rep (nodes w') y (rotated_left x nx y ny A B C) /\
    shape_inorder (rotated_left x nx y ny A B C)
    = shape_inorder (Node A x nx (Node B y ny C)) /\
    (if N.eqb (parent nx) rb_null
     then trees w' = <[t := with_root y T]> (trees w)
     else trees w' = trees w /\
          nodes w' !! parent nx
          = Some (if N.eqb x (left np) then with_left y np
                  else with_right y np)) /\
    user w' = user w /\ node_free_list w' = node_free_list w /\
    (forall c, c <> x -> c <> y -> c <> left ny -> c <> parent nx ->
               nodes w' !! c = nodes w !! c).
Proof.
  intros HT Hrep Hnd Hp.
  destruct (rb_tree_rotate_left_rep w t T x nx y ny A B C np HT Hrep Hnd Hp)
    as (w' & Hrun & Hu & Hf & Hrep' & Hlink & Hframe).
  exists w'. pose proof (rotated_left_inorder x nx y ny A B C). auto 10.
Qed.

Lemma X13_sample_rotate_left_at_root :
  exists w',
    rb_tree_rotate_left 1%N 2%N sample_world = Ok tt w' /\
    rep (nodes w') 4%N
        (rotated_left 2%N sample_root 4%N sample_high
                      (Node Leaf 3%N sample_low Leaf) Leaf Leaf) /\
    shape_inorder (rotated_left 2%N sample_root 4%N sample_high
                                (Node Leaf 3%N sample_low Leaf) Leaf Leaf)
    = [(1, 10); (2, 20); (3, 30)]%Z /\
    trees w' = <[1%N := with_root 4%N sample_tree]> (trees sample_world).
Proof.
  destruct (X13_rotate_left_keeps_the_sequence sample_world 1%N sample_tree
              2%N sample_root 4%N sample_high
              (Node Leaf 3%N sample_low Leaf) Leaf Leaf s_null_node)
    as (w' & Hrun & Hrep & Hin & Hlink & _).
  - reflexivity.
  - vm_compute. repeat split; congruence.
  - vm_compute. repeat constructor; set_solver.
  - left. reflexivity.
  - exists w'. split; [exact Hrun|]. split; [exact Hrep|].
    split; [rewrite Hin; reflexivity|]. exact Hlink.
Defined.

(** ** Releasing a tree *)

Section Release.

Context {U : Type}.
Implicit Types (w : world U) (a t fl : addr) (n : RBTreeNode) (s : shape)
  (m : gmap N RBTreeNode).

Lemma shape_preorder_addrs s a : a ∈ shape_preorder s <-> a ∈ shape_addrs s.
Proof.
  induction s as [|l IHl b n r IHr]; simpl; [reflexivity|].
  rewrite elem_of_cons, !elem_of_app, elem_of_cons, IHl, IHr. tauto.
Qed.

(** Releasing writes the nodes of the shape only. *)
Lemma release_store_other s : forall fl m c,
  c ∉ shape_addrs s -> fst (release_store s fl m) !! c = m !! c.
Proof.
  induction s as [|l IHl b n r IHr]; intros fl m c Hc; simpl; [reflexivity|].
  simpl in Hc. rewrite elem_of_app, elem_of_cons in Hc.
  rewrite lookup_insert_ne by (intros ->; tauto).
  rewrite IHl by tauto. apply IHr. tauto.
Qed.

(** Every released node keeps its record but for the [left] link. *)
Lemma release_store_node s : forall fl m a c n,
  rep m a s -> NoDup (shape_addrs s) -> c ∈ shape_addrs s ->
  m !! c = Some n ->
  exists fl', fst (release_store s fl m) !! c = Some (with_left fl' n).
Proof.
  induction s as [|l IHl b nb r IHr]; intros fl m a c n Hrep Hnd Hc Hn;
    simpl in *; [inversion Hc|].
  destruct Hrep as (-> & Hnn & Hb & Hl & Hr).
  destruct (shape_addrs_nodup_node l b nb r Hnd)
    as (Hndl & Hndr & Hbl & Hbr & Hlr).
  apply elem_of_app in Hc as [Hc|Hc];
    [|apply elem_of_cons in Hc as [->|Hc]].
  - assert (c <> b) by (intros ->; auto).
    rewrite lookup_insert_ne by congruence.
    eapply IHl; [| exact Hndl | exact Hc |].
    + eapply rep_frame; [exact Hl|]. intros x Hx.
      apply release_store_other. auto.
    + rewrite release_store_other by auto. exact Hn.
  - rewrite lookup_insert_eq. assert (nb = n) by congruence. subst. eauto.
  - assert (c <> b) by (intros ->; auto).
    rewrite lookup_insert_ne by congruence.
    rewrite release_store_other by (intros ?; eapply Hlr; eassumption).
    eapply IHr; eassumption.
Qed.

Lemma free_chain_frame m m' l : forall a,
  free_chain m a l -> (forall c, c ∈ l -> m' !! c = m !! c) ->
  free_chain m' a l.
Proof.
  induction l as [|b l IH]; intros a Hc Hsame; simpl in *; [exact Hc|].
  destruct Hc as (-> & Hnn & n & Hn & Hc).
  split; [reflexivity|]. split; [exact Hnn|]. exists n. split.
  - rewrite Hsame by left. exact Hn.
  - apply IH; [exact Hc|]. intros c Hin. apply Hsame. right. exact Hin.
Qed.

(** The released nodes sit on the free list in front of the nodes that were
    there, each node before those of its subtrees. *)
Lemma release_store_chain s : forall fl m L,
  NoDup (shape_addrs s) -> NULL ∉ shape_addrs s ->
  free_chain m fl L -> (forall c, c ∈ L -> c ∉ shape_addrs s) ->
  free_chain (fst (release_store s fl m)) (snd (release_store s fl m))
             (shape_preorder s ++ L).
Proof.
  induction s as [|l IHl b n r IHr]; intros fl m L Hnd Hnull Hc HL;
    simpl; [exact Hc|].
  destruct (shape_addrs_nodup_node _ _ _ _ Hnd)
    as (Hndl & Hndr & Hbl & Hbr & Hlr).
  simpl in Hnull. rewrite elem_of_app, elem_of_cons in Hnull.
  assert (HLin : forall c, c ∈ L -> (c ∉ shape_addrs l) /\ c <> b /\
                                   (c ∉ shape_addrs r)).
  { intros c Hin. specialize (HL c Hin). simpl in HL.
    rewrite elem_of_app, elem_of_cons in HL. tauto. }
  split; [reflexivity|]. split; [intros E; apply Hnull; auto|].
  exists (with_left (snd (release_store l (snd (release_store r fl m))
                                        (fst (release_store r fl m)))) n).
  split; [apply lookup_insert_eq|].
  destruct n; cbn [left with_left].
  rewrite <- app_assoc.
  eapply free_chain_frame.
  - apply IHl; [exact Hndl | tauto | | ].
    + apply IHr; [exact Hndr | tauto | exact Hc |].
      intros c Hin. apply HLin, Hin.
    + intros c Hin. apply elem_of_app in Hin as [Hin|Hin].
      * apply shape_preorder_addrs in Hin. intros Hin'.
        eapply Hlr; eassumption.
      * apply HLin, Hin.
  - intros c Hin. apply lookup_insert_ne. intros <-.
    rewrite !elem_of_app, !shape_preorder_addrs in Hin.
    destruct Hin as [Hin|[Hin|Hin]]; auto.
    destruct (HLin b Hin) as (_ & Hbb & _). congruence.
Qed.

Lemma rb_tree_node_release_rep kr vr s : forall fuel a w,
  rep (nodes w) a s -> NoDup (shape_addrs s) -> (depth s <= fuel)%nat ->
  rb_tree_node_release fuel a kr vr w
  = Ok tt (mkWorld (fst (release_store s (node_free_list w) (nodes w)))
                   (trees w)
                   (snd (release_store s (node_free_list w) (nodes w)))
                   (released_all kr vr s (user w))).
Proof.
  induction s as [|l IHl b n r IHr]; intros fuel a w Hrep Hnd Hfuel.
  - simpl in Hrep. subst a. destruct fuel, w; reflexivity.
  - destruct Hrep as (-> & Hnn & Hb & Hl & Hr).
    destruct (shape_addrs_nodup_node _ _ _ _ Hnd)
      as (Hndl & Hndr & Hbl & Hbr & Hlr).
    destruct fuel as [|fuel]; [simpl in Hfuel; lia|].
    simpl in Hfuel.
    cbn [rb_tree_node_release]. apply N.eqb_neq in Hnn. rewrite Hnn.
    erewrite bind_ok by (apply get_right_ok; exact Hb).
    erewrite bind_ok by (apply IHr; [exact Hr | exact Hndr | lia]).
    set (w1 := mkWorld _ _ _ _).
    assert (Hb1 : nodes w1 !! b = Some n).
    { cbn [nodes w1]. rewrite release_store_other by exact Hbr. exact Hb. }
    erewrite bind_ok by (apply get_left_ok; exact Hb1).
    assert (Hl1 : rep (nodes w1) (left n) l).
    { eapply rep_frame; [exact Hl|]. intros c Hc. cbn [nodes w1].
      apply release_store_other. auto. }
    erewrite bind_ok by (apply IHl; [exact Hl1 | exact Hndl | lia]).
    set (w2 := mkWorld _ _ _ _).
    assert (Hb2 : nodes w2 !! b = Some n).
    { cbn [nodes w2]. rewrite release_store_other by exact Hbl. exact Hb1. }
    assert (Hk : forall f,
               notify f (get_key b) (with_user (user w2) w2)
               = Ok tt (with_user (released f (key n) (user w2)) w2)).
    { intros [g|]; cbn [notify released]; [|reflexivity].
      erewrite bind_ok by (apply get_key_ok; exact Hb2). reflexivity. }
    change w2 with (with_user (user w2) w2) at 1.
    erewrite bind_ok by apply Hk.
    set (u3 := released kr (key n) (user w2)).
    assert (Hv : notify vr (get_key b) (with_user u3 w2)
                 = Ok tt (with_user (released vr (key n) u3) w2)).
    { destruct vr as [g|]; cbn [notify released]; [|reflexivity].
      erewrite bind_ok by (apply get_key_ok; exact Hb2). reflexivity. }
    erewrite bind_ok by exact Hv.
    erewrite bind_ok by reflexivity.
    erewrite bind_ok by (apply set_left_ok; exact Hb2).
    reflexivity.
Qed.

End Release.

(** X14. [rb_tree_release] on a tree whose nodes are pairwise distinct and
    not already on the free list: the handle is discarded, every node of the
    tree is pushed on the free list in front of the nodes that were there
    (each node before those of its left and then its right subtree), only the
    [left] link of those nodes is written, and for every node, right subtree
    first, then left subtree, then the node, [key_release] and then
    [value_release] are called, both with the key of the node. *)
Theorem X14_release_recycles_every_node {U} (w : world U) t T s fuel L :
  tree_at w t T s -> NoDup (shape_addrs s) -> (depth s <= fuel)%nat ->
  nodes w !! NULL = None ->
  free_chain (nodes w) (node_free_list w) L ->
  (forall c, c ∈ L -> c ∉ shape_addrs s) ->
  exists w',
    rb_tree_release fuel t w = Ok tt w' /\
    trees w' = delete t (trees w) /\
    free_chain (nodes w') (node_free_list w') (shape_preorder s ++ L) /\
    user w' = released_all (key_release T) (value_release T) s (user w) /\
    (forall c, c ∉ shape_addrs s -> nodes w' !! c = nodes w !! c) /\
    (forall c n, c ∈ shape_addrs s -> nodes w !! c = Some n ->
                 exists fl, nodes w' !! c = Some (with_left fl n)).
Proof.
  intros (Ht & HT & Hrep) Hnd Hfuel Hnull Hchain HL.
  unfold rb_tree_release.
  rewrite (proj2 (negb_true_iff _) (proj2 (N.eqb_neq _ _) Ht)).
  cbn [invariant]. erewrite bind_ok by reflexivity.
  erewrite bind_ok by (apply load_tree_ok; exact HT).
  erewrite bind_ok by (apply rb_tree_node_release_rep; eassumption).
  eexists. split; [reflexivity|]. cbn [nodes trees user node_free_list].
  split; [reflexivity|]. split.
  { apply release_store_chain; auto. intros Hin.
    destruct (rep_addrs_mapped _ _ _ _ Hrep Hin) as ([n Hn] & _).
    congruence. }
  split; [reflexivity|]. split.
  - intros c Hc. apply release_store_other, Hc.
  - intros c n Hc Hn. eapply release_store_node; eassumption.
Qed.

Lemma X14_sample_release :
  exists w',
    rb_tree_release 2 1%N sample_world = Ok tt w' /\
    trees w' = delete 1%N (trees sample_world) /\
    free_chain (nodes w') (node_free_list w') [2%N; 3%N; 4%N] /\
    user w' = [KeyRelease 3; ValueRelease 3; KeyRelease 1; ValueRelease 1;
               KeyRelease 2; ValueRelease 2].
Proof.
  destruct (X14_release_recycles_every_node sample_world 1%N sample_tree
              sample_shape 2 [])
    as (w' & Hrun & Htrees & Hchain & Huser & _).
  - vm_compute. repeat split; congruence.
  - vm_compute. repeat constructor; set_solver.
  - vm_compute. lia.
  - reflexivity.
  - reflexivity.
  - intros c Hc. inversion Hc.
  - exists w'. split; [exact Hrun|]. split; [exact Htrees|].
    split; [exact Hchain|]. exact Huser.
Defined.

(** ** Removing a node with at most one child *)

Section UnlinkPositions.

Variables (cmp : CompareDataFunc) (data k : pointer).

Implicit Types (m : gmap N RBTreeNode) (s : shape) (a ip : addr).

(** Where the node found, its child and the node above it sit. *)
Lemma unlink_positions m s : forall a ip,
  rep m a s -> NoDup (shape_addrs s) -> (ip ∉ shape_addrs s) ->
  shape_find cmp data k s <> rb_null ->
  shape_find cmp data k s ∈ shape_addrs s /\
  m !! shape_find cmp data k s = Some (shape_record cmp data k s) /\
  (child_of (shape_record cmp data k s) = rb_null \/
   (child_of (shape_record cmp data k s) ∈ shape_addrs s /\
    child_of (shape_record cmp data k s) <> shape_find cmp data k s)) /\
  ((a = shape_find cmp data k s /\ shape_above cmp data k ip s = ip) \/
   (a <> shape_find cmp data k s /\
    shape_above cmp data k ip s ∈ shape_addrs s /\
    shape_above cmp data k ip s <> shape_find cmp data k s /\
    shape_above cmp data k ip s <> child_of (shape_record cmp data k s))).
Proof.
  induction s as [|l IHl b n r IHr]; intros a ip Hrep Hnd Hip Hfound;
    [simpl in Hfound; congruence|].
  destruct Hrep as (-> & Hnn & Hn & Hl & Hr).
  destruct (shape_addrs_nodup_node l b n r Hnd)
    as (Hndl & Hndr & Hbl & Hbr & Hlr).
  cbn [shape_find shape_record shape_above shape_addrs] in *.
  destruct (cmp k (key n) data <? 0) eqn:Elt.
  - destruct (IHl (left n) b Hl Hndl Hbl Hfound)
      as (Hzin & Hz & Hxpos & Hppos).
    assert (Hzb : b <> shape_find cmp data k l) by (intros E; apply Hbl; rewrite E; exact Hzin).
    split; [set_solver|]. split; [exact Hz|]. split.
    { destruct Hxpos as [?|[? ?]]; [auto|right; split; [set_solver|auto]]. }
    right. split; [exact Hzb|].
    destruct Hppos as [(_ & ->) | (_ & Hpin & Hpz & Hpx)].
    + split; [set_solver|]. split; [exact Hzb|].
      destruct Hxpos as [->|[Hxin _]]; [exact Hnn|]. intros E. apply Hbl.
      rewrite E. exact Hxin.
    + split; [set_solver|]. auto.
  - destruct (cmp k (key n) data =? 0) eqn:Eeq.
    + split; [set_solver|]. split; [exact Hn|]. split; [|left; auto].
      unfold child_of. destruct (N.eqb (left n) rb_null) eqn:El; cbn [negb].
      * destruct r as [|rl rb rn rr]; [left; exact Hr|].
        destruct Hr as (Hrb & _). right. rewrite Hrb. split.
        -- simpl. set_solver.
        -- intros E. apply Hbr. rewrite <- E. simpl. set_solver.
      * destruct l as [|ll lb ln lr];
          [simpl in Hl; rewrite Hl in El; discriminate|].
        destruct Hl as (Hlb & _). right. rewrite Hlb. split.
        -- simpl. set_solver.
        -- intros E. apply Hbl. rewrite <- E. simpl. set_solver.
    + destruct (IHr (right n) b Hr Hndr Hbr Hfound)
        as (Hzin & Hz & Hxpos & Hppos).
      assert (Hzb : b <> shape_find cmp data k r) by (intros E; apply Hbr; rewrite E; exact Hzin).
      split; [set_solver|]. split; [exact Hz|]. split.
      { destruct Hxpos as [?|[? ?]]; [auto|right; split; [set_solver|auto]]. }
      right. split; [exact Hzb|].
      destruct Hppos as [(_ & ->) | (_ & Hpin & Hpz & Hpx)].
      * split; [set_solver|]. split; [exact Hzb|].
        destruct Hxpos as [->|[Hxin _]]; [exact Hnn|]. intros E. apply Hbr.
        rewrite E. exact Hxin.
      * split; [set_solver|]. auto.
Qed.

End UnlinkPositions.

Section Unlink.

Variables (cmp : CompareDataFunc) (data k : pointer).
Variable f : RBTreeNode -> RBTreeNode.
Hypothesis f_left : forall n, left (f n) = left n.
Hypothesis f_right : forall n, right (f n) = right n.
Hypothesis f_key : forall n, key (f n) = key n.
Hypothesis f_value : forall n, value (f n) = value n.

Implicit Types (m : gmap N RBTreeNode) (s : shape) (a ip : addr).

(** A store that has the child re-parented, the node above re-linked and the
    other nodes of the shape as they were unfolds to the unlinked shape. *)
Lemma rep_shape_unlink m m' s : forall a ip,
  rep m a s -> NoDup (shape_addrs s) -> (ip ∉ shape_addrs s) ->
  shape_find cmp data k s <> rb_null ->
  (left (shape_record cmp data k s) = rb_null \/
   right (shape_record cmp data k s) = rb_null) ->
  (forall nx, child_of (shape_record cmp data k s) ∈ shape_addrs s ->
              m !! child_of (shape_record cmp data k s) = Some nx ->
              m' !! child_of (shape_record cmp data k s) = Some (f nx)) ->
  (forall np, shape_above cmp data k ip s ∈ shape_addrs s ->
              m !! shape_above cmp data k ip s = Some np ->
              m' !! shape_above cmp data k ip s
              = Some (if N.eqb (shape_find cmp data k s) (left np)
                      then with_left (child_of (shape_record cmp data k s)) np
                      else with_right (child_of (shape_record cmp data k s))
                                      np)) ->
  (forall c, c ∈ shape_addrs s ->
             c <> shape_find cmp data k s ->
             c <> child_of (shape_record cmp data k s) ->
             c <> shape_above cmp data k ip s ->
             m' !! c = m !! c) ->
  rep m' (shape_root (shape_unlink cmp data k f s))
      (shape_unlink cmp data k f s) /\
  shape_root (shape_unlink cmp data k f s)
  = (if N.eqb a (shape_find cmp data k s)
     then child_of (shape_record cmp data k s) else a).
Proof.
  induction s as [|l IHl b n r IHr];
    intros a ip Hrep Hnd Hip Hfound Hsingle Hx Hp Hfr;
    [simpl in Hfound; congruence|].
  pose proof (unlink_positions cmp data k m _ _ ip Hrep Hnd Hip Hfound)
    as (_ & _ & Hxtop & _).
  destruct Hrep as (-> & Hnn & Hn & Hl & Hr).
  destruct (shape_addrs_nodup_node l b n r Hnd)
    as (Hndl & Hndr & Hbl & Hbr & Hlr).
  cbn [shape_find shape_record shape_above shape_unlink shape_addrs] in *.
  destruct (cmp k (key n) data <? 0) eqn:Elt.
  - destruct (unlink_positions cmp data k m l (left n) b Hl Hndl Hbl Hfound)
      as (Hzin & Hz & Hxpos & Hppos).
    assert (Hzb : b <> shape_find cmp data k l)
      by (intros E; apply Hbl; rewrite E; exact Hzin).
    destruct (IHl (left n) b Hl Hndl Hbl Hfound Hsingle)
      as (Hrep' & Hroot').
    { intros nx Hin. apply Hx. set_solver. }
    { intros np Hin. apply Hp. set_solver. }
    { intros c Hin. apply Hfr. set_solver. }
    cbn [shape_root rep].
    rewrite (proj2 (N.eqb_neq _ _) Hzb).
    split; [|reflexivity].
    split; [reflexivity|]. split; [exact Hnn|].
    cbn [left right with_left]. split; [|split].
    + rewrite Hroot'.
      destruct (N.eqb (left n) (shape_find cmp data k l)) eqn:E.
      * apply N.eqb_eq in E.
        destruct Hppos as [(_ & Hpb) | (Hne & _)]; [|congruence].
        specialize (Hp n). rewrite Hpb in Hp.
        rewrite Hp; [|set_solver|exact Hn].
        rewrite <- E, N.eqb_refl. reflexivity.
      * apply N.eqb_neq in E.
        destruct Hppos as [(He & _) | (_ & Hpin & Hpz & Hpx)]; [congruence|].
        rewrite Hfr; [rewrite Hn; destruct n; reflexivity
                     | set_solver | exact Hzb | | ].
        -- destruct Hxpos as [->|[Hxin _]]; [exact Hnn|].
           intros E'. apply Hbl. rewrite E'. exact Hxin.
        -- intros E'. apply Hbl. rewrite E'. exact Hpin.
    + exact Hrep'.
    + eapply rep_frame; [exact Hr|]. intros c Hc.
      assert (Hcl : c ∉ shape_addrs l) by (intros ?; eapply Hlr; eassumption).
      assert (Hcb : c <> b) by (intros ->; auto).
      apply Hfr; [set_solver| | | ].
      * intros ->. auto.
      * destruct Hxpos as [->|[Hxin _]].
        -- exact (proj2 (rep_addrs_mapped _ _ _ _ Hr Hc)).
        -- intros ->. auto.
      * destruct Hppos as [(_ & ->) | (_ & Hpin & _)]; [exact Hcb|].
        intros ->. auto.
  - destruct (cmp k (key n) data =? 0) eqn:Eeq.
    + clear IHl IHr. rewrite N.eqb_refl. unfold child_of in *.
      assert (Hsub : forall D c, c ∈ shape_addrs D ->
                (forall c', c' ∈ shape_addrs D ->
                            c' ∈ shape_addrs l ++ b :: shape_addrs r) ->
                c <> b -> c <> shape_root D -> D = l \/ D = r ->
                (if negb (N.eqb (left n) rb_null) then left n else right n)
                = shape_root D ->
                m' !! c = m !! c).
      { intros D c Hc HD Hcb Hcx _ Hxd. apply Hfr; auto.
        - rewrite Hxd. exact Hcx.
        - intros ->. apply Hip. apply HD, Hc. }
      destruct l as [|ll lb ln lr].
      * simpl in Hl. rewrite Hl in *. cbn [N.eqb rb_null Pos.eqb negb] in *.
        destruct r as [|rl rb rn rr].
        -- simpl in Hr. simpl. auto.
        -- destruct Hr as (Hrb & Hrbnn & Hrn & Hrl & Hrr).
           destruct (shape_addrs_nodup_node rl rb rn rr Hndr)
             as (_ & _ & Hrbl & Hrbr & Hrlr).
           rewrite Hrb in *.
           cbn [shape_root_update shape_root rep]. split; [|reflexivity].
           split; [reflexivity|]. split; [exact Hrbnn|].
           split; [|split].
           ++ apply Hx; [simpl; set_solver | exact Hrn].
           ++ rewrite f_left. eapply rep_frame; [exact Hrl|]. intros c Hc.
              apply (Hsub (Node rl rb rn rr));
                [ simpl; set_solver | intros c' Hc'; set_solver
                | intros ->; apply Hbr; simpl; set_solver
                | simpl; intros ->; auto | auto | reflexivity ].
           ++ rewrite f_right. eapply rep_frame; [exact Hrr|]. intros c Hc.
              apply (Hsub (Node rl rb rn rr));
                [ simpl; set_solver | intros c' Hc'; set_solver
                | intros ->; apply Hbr; simpl; set_solver
                | simpl; intros ->; auto | auto | reflexivity ].
      * destruct Hl as (Hlb & Hlbnn & Hln & Hll & Hlr').
        destruct (shape_addrs_nodup_node ll lb ln lr Hndl)
          as (_ & _ & Hlbl & Hlbr & Hllr).
        rewrite (not_sentinel_test _ Hlbnn) in *.
        rewrite Hlb in *.
        cbn [shape_root_update shape_root rep]. split; [|reflexivity].
        split; [reflexivity|]. split; [exact Hlbnn|].
        split; [|split].
        -- apply Hx; [simpl; set_solver | exact Hln].
        -- rewrite f_left. eapply rep_frame; [exact Hll|]. intros c Hc.
           apply (Hsub (Node ll lb ln lr));
             [ simpl; set_solver | intros c' Hc'; set_solver
             | intros ->; apply Hbl; simpl; set_solver
             | simpl; intros ->; auto | auto | reflexivity ].
        -- rewrite f_right. eapply rep_frame; [exact Hlr'|]. intros c Hc.
           apply (Hsub (Node ll lb ln lr));
             [ simpl; set_solver | intros c' Hc'; set_solver
             | intros ->; apply Hbl; simpl; set_solver
             | simpl; intros ->; auto | auto | reflexivity ].
    + destruct (unlink_positions cmp data k m r (right n) b Hr Hndr Hbr Hfound)
        as (Hzin & Hz & Hxpos & Hppos).
      assert (Hzb : b <> shape_find cmp data k r)
        by (intros E; apply Hbr; rewrite E; exact Hzin).
      destruct (IHr (right n) b Hr Hndr Hbr Hfound Hsingle)
        as (Hrep' & Hroot').
      { intros nx Hin. apply Hx. set_solver. }
      { intros np Hin. apply Hp. set_solver. }
      { intros c Hin. apply Hfr. set_solver. }
      cbn [shape_root rep].
      rewrite (proj2 (N.eqb_neq _ _) Hzb).
      split; [|reflexivity].
      split; [reflexivity|]. split; [exact Hnn|].
      cbn [left right with_right]. split; [|split].
      * rewrite Hroot'.
        destruct (N.eqb (right n) (shape_find cmp data k r)) eqn:E.
        -- apply N.eqb_eq in E.
           destruct Hppos as [(_ & Hpb) | (Hne & _)]; [|congruence].
           specialize (Hp n). rewrite Hpb in Hp.
           rewrite Hp; [|set_solver|exact Hn].
           assert (Hzl : N.eqb (shape_find cmp data k r) (left n) = false).
           { apply N.eqb_neq. intros E'.
             destruct l as [|ll lb ln lr].
             - simpl in Hl. rewrite Hl in E'. congruence.
             - destruct Hl as (Hlb & _). eapply (Hlr (left n)).
               + rewrite Hlb. simpl. set_solver.
               + rewrite <- E'. exact Hzin. }
           rewrite Hzl. reflexivity.
        -- apply N.eqb_neq in E.
           destruct Hppos as [(He & _) | (_ & Hpin & Hpz & Hpx)]; [congruence|].
           rewrite Hfr; [rewrite Hn; destruct n; reflexivity
                        | set_solver | exact Hzb | | ].
           ++ destruct Hxpos as [->|[Hxin _]]; [exact Hnn|].
              intros E'. apply Hbr. rewrite E'. exact Hxin.
           ++ intros E'. apply Hbr. rewrite E'. exact Hpin.
      * eapply rep_frame; [exact Hl|]. intros c Hc.
        assert (Hcr : c ∉ shape_addrs r) by (eapply Hlr; eassumption).
        assert (Hcb : c <> b) by (intros ->; auto).
        apply Hfr; [set_solver| | | ].
        -- intros ->. auto.
        -- destruct Hxpos as [->|[Hxin _]].
           ++ exact (proj2 (rep_addrs_mapped _ _ _ _ Hl Hc)).
           ++ intros ->. auto.
        -- destruct Hppos as [(_ & ->) | (_ & Hpin & _)]; [exact Hcb|].
           intros ->. auto.
      * exact Hrep'.
Qed.

Lemma shape_root_update_inorder s :
  shape_inorder (shape_root_update f s) = shape_inorder s.
Proof. destruct s; simpl; [reflexivity|]. rewrite f_key, f_value. reflexivity. Qed.

Lemma shape_root_update_addrs s :
  shape_addrs (shape_root_update f s) = shape_addrs s.
Proof. destruct s; reflexivity. Qed.

Lemma shape_root_update_depth s : depth (shape_root_update f s) = depth s.
Proof. destruct s; reflexivity. Qed.

Lemma shape_root_update_ordered s :
  ordered cmp data s -> ordered cmp data (shape_root_update f s).
Proof. destruct s; simpl; [auto|]. rewrite f_key. auto. Qed.

(** Unlinking takes one pair out of the in-order sequence and one address
    out of the nodes. *)
Lemma shape_unlink_lists m s : forall a,
  rep m a s -> shape_find cmp data k s <> rb_null ->
  (left (shape_record cmp data k s) = rb_null \/
   right (shape_record cmp data k s) = rb_null) ->
  exists i1 i2 q1 q2,
    shape_inorder s
    = i1 ++ (key (shape_record cmp data k s),
             value (shape_record cmp data k s)) :: i2 /\
    shape_inorder (shape_unlink cmp data k f s) = i1 ++ i2 /\
    shape_addrs s = q1 ++ shape_find cmp data k s :: q2 /\
    shape_addrs (shape_unlink cmp data k f s) = q1 ++ q2.
Proof.
  induction s as [|l IHl b n r IHr]; intros a Hrep Hfound Hsingle;
    [simpl in Hfound; congruence|].
  destruct Hrep as (-> & Hnn & Hn & Hl & Hr).
  cbn [shape_find shape_record shape_unlink shape_inorder shape_addrs] in *.
  destruct (cmp k (key n) data <? 0) eqn:Elt.
  - destruct (IHl _ Hl Hfound Hsingle) as (i1 & i2 & q1 & q2 & -> & Hi & -> & Ha).
    exists i1, (i2 ++ (key n, value n) :: shape_inorder r),
           q1, (q2 ++ b :: shape_addrs r).
    cbn [shape_inorder shape_addrs with_left key value].
    rewrite Hi, Ha, <- !app_assoc. auto.
  - destruct (cmp k (key n) data =? 0) eqn:Eeq.
    + destruct l as [|ll lb ln lr].
      * exists [], (shape_inorder r), [], (shape_addrs r).
        rewrite shape_root_update_inorder, shape_root_update_addrs. auto.
      * destruct Hl as (_ & Hlnn & _).
        destruct Hsingle as [E|E]; [congruence|].
        rewrite E in Hr. apply rep_sentinel in Hr. subst r.
        exists (shape_inorder (Node ll lb ln lr)), [],
               (shape_addrs (Node ll lb ln lr)), [].
        rewrite shape_root_update_inorder, shape_root_update_addrs.
        rewrite !app_nil_r. auto.
    + destruct (IHr _ Hr Hfound Hsingle) as (i1 & i2 & q1 & q2 & -> & Hi & -> & Ha).
      exists (shape_inorder l ++ (key n, value n) :: i1), i2,
             (shape_addrs l ++ b :: q1), q2.
      cbn [shape_inorder shape_addrs with_right key value].
      rewrite Hi, Ha, <- !app_assoc. auto.
Qed.

Lemma shape_unlink_depth s :
  (depth (shape_unlink cmp data k f s) <= depth s)%nat.
Proof.
  induction s as [|l IHl b n r IHr]; cbn [shape_unlink depth]; [lia|].
  destruct (_ <? 0); [cbn [depth]; lia|].
  destruct (_ =? 0); [|cbn [depth]; lia].
  rewrite shape_root_update_depth. destruct l; cbn [depth]; lia.
Qed.

Lemma shape_unlink_ordered m s : forall a,
  rep m a s -> shape_find cmp data k s <> rb_null ->
  (left (shape_record cmp data k s) = rb_null \/
   right (shape_record cmp data k s) = rb_null) ->
  ordered cmp data s -> ordered cmp data (shape_unlink cmp data k f s).
Proof.
  induction s as [|l IHl b n r IHr]; intros a Hrep Hfound Hsingle Hord;
    [exact I|].
  pose proof Hrep as (-> & Hnn & Hn & Hl & Hr).
  destruct Hord as (Hol & Hor & Hlt & Hgt).
  cbn [shape_find shape_record shape_unlink] in *.
  destruct (cmp k (key n) data <? 0) eqn:Elt.
  - destruct (shape_unlink_lists m l _ Hl Hfound Hsingle)
      as (i1 & i2 & q1 & q2 & Hi & Hi' & _).
    cbn [ordered with_left key]. repeat split; eauto.
    rewrite Hi'. rewrite Hi in Hlt.
    apply Forall_app in Hlt as (H1 & H2). apply Forall_cons in H2 as (_ & H2).
    apply Forall_app. auto.
  - destruct (cmp k (key n) data =? 0) eqn:Eeq.
    + apply shape_root_update_ordered. destruct l; assumption.
    + destruct (shape_unlink_lists m r _ Hr Hfound Hsingle)
        as (i1 & i2 & q1 & q2 & Hi & Hi' & _).
      cbn [ordered with_right key]. repeat split; eauto.
      rewrite Hi'. rewrite Hi in Hgt.
      apply Forall_app in Hgt as (H1 & H2). apply Forall_cons in H2 as (_ & H2).
      apply Forall_app. auto.
Qed.

(** A descent through keys none of which compares equal ends at the
    sentinel. *)
Lemma shape_find_none s :
  Forall (fun kv => cmp k (fst kv) data <> 0) (shape_inorder s) ->
  shape_find cmp data k s = rb_null.
Proof.
  induction s as [|l IHl b n r IHr]; simpl; [reflexivity|].
  intros H. apply Forall_app in H as (Hl & H).
  apply Forall_cons in H as (Hn & Hr). simpl in Hn.
  destruct (_ <? 0); [auto|].
  destruct (_ =? 0) eqn:E; [apply Z.eqb_eq in E; congruence|auto].
Qed.

End Unlink.

Section RemoveSingle.

Context {U : Type}.
Implicit Types (w : world U) (t : addr) (s : shape).

Lemma unlink_child_left ny n : left (unlink_child ny n) = left n.
Proof. unfold unlink_child. destruct (color_eqb _ _); reflexivity. Qed.
Lemma unlink_child_right ny n : right (unlink_child ny n) = right n.
Proof. unfold unlink_child. destruct (color_eqb _ _); reflexivity. Qed.
Lemma unlink_child_key ny n : key (unlink_child ny n) = key n.
Proof. unfold unlink_child. destruct (color_eqb _ _); reflexivity. Qed.
Lemma unlink_child_value ny n : value (unlink_child ny n) = value n.
Proof. unfold unlink_child. destruct (color_eqb _ _); reflexivity. Qed.

(** A node with at most one child is its own victim. *)
Lemma remove_victim_single fuel z nz w :
  nodes w !! z = Some nz ->
  left nz = rb_null \/ right nz = rb_null ->
  remove_victim fuel z w = Ok z w.
Proof.
  intros Hz Hsingle. unfold remove_victim.
  erewrite bind_ok by (apply get_left_ok; exact Hz).
  destruct (N.eqb (left nz) rb_null) eqn:El.
  - erewrite bind_ok by reflexivity. reflexivity.
  - erewrite bind_ok.
    2:{ erewrite bind_ok by (apply get_right_ok; exact Hz). reflexivity. }
    destruct Hsingle as [E|E].
    + rewrite E in El. discriminate.
    + rewrite E. reflexivity.
Qed.

(** The run of [rb_tree_node_remove] on a node with at most one child whose
    parent link is the node above it, when the rebalancing loop has nothing
    to do: the victim is RED, or it is the root, or its child is RED. *)
Lemma rb_tree_node_remove_single w t T s fuel k nx b :
  tree_at w t T s -> NoDup (shape_addrs s) ->
  shape_find (key_compare T) (key_compare_data T) k s <> rb_null ->
  (left (shape_record (key_compare T) (key_compare_data T) k s) = rb_null \/
   right (shape_record (key_compare T) (key_compare_data T) k s) = rb_null) ->
  parent (shape_record (key_compare T) (key_compare_data T) k s)
  = shape_above (key_compare T) (key_compare_data T) k rb_null s ->
  nodes w !! child_of (shape_record (key_compare T) (key_compare_data T) k s)
  = Some nx ->
  (color (shape_record (key_compare T) (key_compare_data T) k s) = RED \/
   parent (shape_record (key_compare T) (key_compare_data T) k s) = rb_null \/
   color nx = RED) ->
  exists w',
    rb_tree_node_remove fuel t
      (shape_find (key_compare T) (key_compare_data T) k s) b w = Ok tt w' /\
    tree_at w' t
      (if N.eqb (parent (shape_record (key_compare T) (key_compare_data T)
                                      k s)) rb_null
       then with_root
              (child_of (shape_record (key_compare T) (key_compare_data T)
                                      k s)) T
       else T)
      (shape_unlink (key_compare T) (key_compare_data T) k
         (unlink_child (shape_record (key_compare T) (key_compare_data T)
                                     k s)) s) /\
    node_free_list w'
    = shape_find (key_compare T) (key_compare_data T) k s /\
    nodes w' !! shape_find (key_compare T) (key_compare_data T) k s
    = Some (with_left (node_free_list w)
              (shape_record (key_compare T) (key_compare_data T) k s)) /\
    user w'
    = (if b
       then released (value_release T)
              (value (shape_record (key_compare T) (key_compare_data T) k s))
              (released (key_release T)
                 (key (shape_record (key_compare T) (key_compare_data T)
                                    k s))
                 (user w))
       else user w) /\
    (forall c, c ∉ shape_addrs s ->
               c <> child_of (shape_record (key_compare T)
                                (key_compare_data T) k s) ->
               nodes w' !! c = nodes w !! c) /\
    (forall t', t' <> t -> trees w' !! t' = trees w !! t').
Proof.
  intros (Ht & HT & Hrep) Hnd Hfound Hsingle Hpar Hnx Hcol.
  set (cmp := key_compare T) in *. set (d := key_compare_data T) in *.
  assert (Hnull : rb_null ∉ shape_addrs s)
    by (intros Hin; exact (proj2 (rep_addrs_mapped _ _ _ _ Hrep Hin) eq_refl)).
  destruct (unlink_positions cmp d k (nodes w) s (root T) rb_null
              Hrep Hnd Hnull Hfound) as (Hzin & Hz & Hxpos & Hppos).
  rewrite <- Hpar in Hppos.
  set (z := shape_find cmp d k s) in *.
  set (nz := shape_record cmp d k s) in *.
  set (x := child_of nz) in *. set (p := parent nz) in *.
  assert (Hzx : z <> x).
  { destruct Hxpos as [E|[_ E]]; [rewrite E; exact Hfound | congruence]. }
  assert (Hpx : p = rb_null \/ (p <> rb_null /\ p <> x /\ p <> z /\
                                 p ∈ shape_addrs s)).
  { destruct Hppos as [(_ & E)|(_ & Hin & Hpz & Hpx)]; [auto|right].
    repeat split; auto. intros E. apply Hnull. rewrite <- E. exact Hin. }
  rewrite rb_tree_node_remove_phases.
  (* unlinking *)
  assert (exists w2,
             node_remove_unlink fuel t z w = Ok (x, z) w2 /\
             nodes w2 !! x = Some (with_parent p nx) /\
             nodes w2 !! z = Some nz /\
             (p <> rb_null -> forall np, nodes w !! p = Some np ->
                nodes w2 !! p
                = Some (if N.eqb z (left np) then with_left x np
                        else with_right x np)) /\
             (forall c, c <> x -> p = rb_null \/ c <> p ->
                        nodes w2 !! c = nodes w !! c) /\
             trees w2 = (if N.eqb p rb_null
                         then <[t := with_root x T]> (trees w)
                         else trees w) /\
             user w2 = user w /\ node_free_list w2 = node_free_list w)
    as (w2 & Hunlink & Hx2 & Hz2 & Hp2 & Hfr2 & Ht2 & Hu2 & Hf2).
  { unfold node_remove_unlink.
    erewrite bind_ok by (eapply remove_victim_single; eassumption).
    erewrite bind_ok by (apply get_left_ok; exact Hz).
    erewrite (bind_ok _ _ _ x).
    2:{ unfold x, child_of. destruct (negb _);
          [apply get_left_ok | apply get_right_ok]; exact Hz. }
    erewrite bind_ok by (apply get_parent_ok; exact Hz). fold p.
    erewrite bind_ok by (apply set_parent_ok; exact Hnx).
    set (w1 := with_nodes _ w).
    assert (Hz1 : nodes w1 !! z = Some nz)
      by (cbn [nodes w1 with_nodes]; rewrite lookup_insert_ne by congruence;
          exact Hz).
    erewrite bind_ok by (apply get_parent_ok; exact Hz1). fold p.
    rewrite N.eqb_refl. cbn [negb].
    destruct (N.eqb p rb_null) eqn:Ep.
    - apply N.eqb_eq in Ep.
      erewrite bind_ok by (apply set_root_ok; exact HT).
      erewrite bind_ok by reflexivity.
      eexists. split; [reflexivity|].
      cbn [nodes trees user node_free_list w1 with_nodes].
      split; [apply lookup_insert_eq|]. split; [exact Hz1|].
      split; [congruence|]. split; [|auto].
      intros c Hcx _. apply lookup_insert_ne. congruence.
    - apply N.eqb_neq in Ep.
      destruct Hpx as [E|(_ & Hpx & Hpz & Hpin)]; [congruence|].
      destruct (proj1 (rep_addrs_mapped _ _ _ _ Hrep Hpin)) as [np Hnp].
      assert (Hp1 : nodes w1 !! p = Some np)
        by (cbn [nodes w1 with_nodes]; rewrite lookup_insert_ne by congruence;
            exact Hnp).
      erewrite (bind_ok _ _ _ tt
                  (with_nodes
                     (<[p := if N.eqb z (left np) then with_left x np
                             else with_right x np]> (nodes w1)) w1)).
      2:{ erewrite bind_ok by (apply get_left_ok; exact Hp1).
          destruct (N.eqb z (left np));
            [apply set_left_ok | apply set_right_ok]; exact Hp1. }
      erewrite bind_ok by reflexivity.
      eexists. split; [reflexivity|].
      cbn [nodes trees user node_free_list with_nodes w1].
      split; [rewrite lookup_insert_ne by congruence; apply lookup_insert_eq|].
      split; [rewrite !lookup_insert_ne by congruence; exact Hz|].
      split.
      { intros _ np' Hnp'. assert (np' = np) by congruence. subst np'.
        apply lookup_insert_eq. }
      split; [|auto].
      intros c Hcx [E|Hcp]; [congruence|].
      rewrite lookup_insert_ne by congruence.
      apply lookup_insert_ne. congruence. }
  erewrite bind_ok by exact Hunlink. cbn [fst snd].
  (* rebalancing: no loop *)
  assert (HT2 : trees w2 !! t
                = Some (if N.eqb p rb_null then with_root x T else T)).
  { rewrite Ht2. destruct (N.eqb p rb_null); [apply lookup_insert_eq|exact HT]. }
  assert (exists w3,
             node_remove_rebalance fuel t x z w2 = Ok tt w3 /\
             nodes w3 !! x = Some (unlink_child nz nx) /\
             (forall c, c <> x -> nodes w3 !! c = nodes w2 !! c) /\
             trees w3 = trees w2 /\ user w3 = user w2 /\
             node_free_list w3 = node_free_list w2)
    as (w3 & Hreb & Hx3 & Hfr3 & Ht3 & Hu3 & Hf3).
  { unfold node_remove_rebalance, unlink_child.
    erewrite bind_ok by (apply get_color_ok; exact Hz2).
    destruct (color nz) eqn:Ec; cbn [color_eqb];
      [|exists w2; repeat split; auto].
    assert (Hcont :
        (if N.eqb x (if N.eqb p rb_null then x else root T) then ret false
         else (c <- get_color x ;; ret (color_eqb c BLACK))) w2
        = Ok false w2).
    { destruct (N.eqb x _) eqn:E; [reflexivity|].
      erewrite bind_ok by (apply get_color_ok; exact Hx2).
      cbn [color with_parent].
      destruct Hcol as [Hc|[Hc|Hc]]; [discriminate| |].
      - fold p in Hc. rewrite Hc in E. cbn [N.eqb rb_null Pos.eqb] in E.
        rewrite N.eqb_refl in E. discriminate.
      - rewrite Hc. reflexivity. }
    assert (Hrun : rb_tree_node_remove_restore fuel t x w2
                   = set_color x BLACK w2).
    { destruct fuel; cbn [rb_tree_node_remove_restore];
        erewrite bind_ok by (apply get_root_ok; exact HT2);
        (replace (root (if N.eqb p rb_null then with_root x T else T))
           with (if N.eqb p rb_null then x else root T)
           by (destruct (N.eqb p rb_null); reflexivity));
        erewrite bind_ok by exact Hcont; reflexivity. }
    rewrite Hrun. eexists. split; [apply set_color_ok; exact Hx2|].
    cbn [nodes trees user node_free_list with_nodes].
    split; [apply lookup_insert_eq|]. split; [|auto].
    intros c Hc. apply lookup_insert_ne. congruence. }
  erewrite bind_ok by exact Hreb.
  assert (Hz3 : nodes w3 !! z = Some nz) by (rewrite Hfr3 by exact Hzx; exact Hz2).
  (* notifying *)
  assert (exists w4,
             node_remove_notify t z b w3 = Ok tt w4 /\
             nodes w4 = nodes w3 /\ trees w4 = trees w3 /\
             node_free_list w4 = node_free_list w3 /\
             user w4 = (if b
                        then released (value_release T) (value nz)
                               (released (key_release T) (key nz) (user w))
                        else user w))
    as (w4 & Hnot & Hn4 & Ht4 & Hf4 & Hu4).
  { destruct b.
    - eexists. split.
      + eapply node_remove_notify_ok; [rewrite Ht3; exact HT2 | exact Hz3].
      + cbn [nodes trees user node_free_list with_user].
        rewrite Hu3, Hu2. destruct (N.eqb p rb_null); auto.
    - exists w3. rewrite Hu3, Hu2. auto. }
  erewrite bind_ok by exact Hnot.
  (* recycling *)
  unfold node_remove_recycle. erewrite bind_ok by reflexivity.
  erewrite bind_ok by (apply set_left_ok; rewrite Hn4; exact Hz3).
  eexists. split; [reflexivity|].
  cbn [nodes trees user node_free_list with_nodes].
  rewrite Hn4, Ht4, Ht3, Hf4, Hf3, Hf2.
  assert (Hother : forall c, c <> z -> c <> x -> p = rb_null \/ c <> p ->
             <[z := with_left (node_free_list w) nz]> (nodes w3) !! c
             = nodes w !! c).
  { intros c Hcz Hcx Hcp. rewrite lookup_insert_ne by congruence.
    rewrite Hfr3 by exact Hcx. apply Hfr2; assumption. }
  split.
  { (* the tree *)
    split; [exact Ht|]. split.
    { rewrite Ht2. destruct (N.eqb p rb_null);
        [apply lookup_insert_eq | exact HT]. }
    destruct (rep_shape_unlink cmp d k (unlink_child nz)
                (unlink_child_left nz) (unlink_child_right nz)
                (unlink_child_key nz) (unlink_child_value nz)
                (nodes w)
                (<[z := with_left (node_free_list w) nz]> (nodes w3))
                s (root T) rb_null Hrep Hnd Hnull Hfound Hsingle)
      as (Hrep' & Hroot').
    - intros nx' Hin Hnx'. fold nz x in Hnx' |- *.
      assert (nx' = nx) by congruence. subst nx'.
      rewrite lookup_insert_ne by congruence. exact Hx3.
    - intros np. fold nz x z. rewrite <- Hpar. fold p. intros Hin Hnp.
      destruct Hpx as [E|(Hpn & Hpx & Hpz & _)].
      { exfalso. apply Hnull. rewrite <- E. exact Hin. }
      rewrite lookup_insert_ne by congruence.
      rewrite Hfr3 by exact Hpx. apply Hp2; assumption.
    - intros c Hin. fold nz x z. rewrite <- Hpar. fold p.
      intros Hcz Hcx Hcp. apply Hother; auto.
    - fold nz x z in Hroot'. fold z nz.
      replace (root (if N.eqb p rb_null then with_root x T else T))
        with (shape_root (shape_unlink cmp d k (unlink_child nz) s));
        [exact Hrep'|].
      rewrite Hroot'.
      destruct Hppos as [(Ea & Ep)|(Ea & Hpin & _)].
      + rewrite Ea, N.eqb_refl, Ep. reflexivity.
      + rewrite (proj2 (N.eqb_neq _ _) Ea).
        assert (Hpn : p <> rb_null) by (intros E; apply Hnull; rewrite <- E; exact Hpin).
        rewrite (proj2 (N.eqb_neq _ _) Hpn). reflexivity. }
  split; [reflexivity|]. split; [apply lookup_insert_eq|].
  split; [exact Hu4|]. split.
  - intros c Hc Hcx. apply Hother; auto.
    + intros ->. auto.
    + destruct Hpx as [E|(_ & _ & _ & Hpin)]; [auto|right].
      intros ->. auto.
  - intros t' Ht'. rewrite Ht2. destruct (N.eqb p rb_null); [|reflexivity].
    apply lookup_insert_ne. congruence.
Qed.

End RemoveSingle.

Lemma NoDup_remove_middle {A : Type} (l1 l2 : list A) (x : A) :
  NoDup (l1 ++ x :: l2) -> NoDup (l1 ++ l2).
Proof.
  intros H. apply NoDup_app in H as (H1 & H12 & H2).
  apply NoDup_cons in H2 as (_ & H2).
  apply NoDup_app. repeat split; auto.
  intros y Hy Hy'. apply (H12 y Hy). right. exact Hy'.
Qed.

(** X15. Removing a stored key whose node has at most one child and whose
    parent link names the node above it, when the rebalancing loop has nothing
    to do (the node is RED, or it is the root, or its child is RED):
    [rb_tree_remove] returns, [rb_tree_steal] returns the same world but for
    the notifications, the tree is again a tree of distinct nodes whose
    in-order sequence is the old one without the pair of that node, search
    order is kept, [rb_tree_size] returns the old number of nodes minus one
    (as an [int]), [key_release] gets the key and [value_release] the value
    of the node, and the node is the new head of the free list, linked to the
    old head. When no remaining key compares
    equal, a lookup of the key then returns null. *)
Theorem X15_remove_of_a_node_with_one_child {U : Type}
    (w : world U) (t : addr) (T : RBTree U) (s : shape) (fuel : nat)
    (k : pointer) (nx : RBTreeNode) :
  tree_at w t T s -> NoDup (shape_addrs s) -> (depth s <= fuel)%nat ->
  shape_find (key_compare T) (key_compare_data T) k s <> rb_null ->
  (left (shape_record (key_compare T) (key_compare_data T) k s) = rb_null \/
   right (shape_record (key_compare T) (key_compare_data T) k s) = rb_null) ->
  parent (shape_record (key_compare T) (key_compare_data T) k s)
  = shape_above (key_compare T) (key_compare_data T) k rb_null s ->
  nodes w !! child_of (shape_record (key_compare T) (key_compare_data T) k s)
  = Some nx ->
  (color (shape_record (key_compare T) (key_compare_data T) k s) = RED \/
   parent (shape_record (key_compare T) (key_compare_data T) k s) = rb_null \/
   color nx = RED) ->
  exists w' r s',
    rb_tree_remove fuel t k w = Ok tt w' /\
    rb_tree_steal fuel t k w = Ok tt (with_user (user w) w') /\
    tree_at w' t (with_root r T) s' /\ NoDup (shape_addrs s') /\
    (exists i1 i2,
        shape_inorder s
        = i1 ++ (key (shape_record (key_compare T) (key_compare_data T) k s),
                 value (shape_record (key_compare T) (key_compare_data T)
                                     k s)) :: i2 /\
        shape_inorder s' = i1 ++ i2) /\
    (ordered (key_compare T) (key_compare_data T) s ->
     ordered (key_compare T) (key_compare_data T) s') /\
    rb_tree_size fuel t w' = Ok (int_wrap (shape_count s - 1)) w' /\
    user w'
    = released (value_release T)
        (value (shape_record (key_compare T) (key_compare_data T) k s))
        (released (key_release T)
           (key (shape_record (key_compare T) (key_compare_data T) k s))
           (user w)) /\
    node_free_list w'
    = shape_find (key_compare T) (key_compare_data T) k s /\
    nodes w' !! shape_find (key_compare T) (key_compare_data T) k s
    = Some (with_left (node_free_list w)
              (shape_record (key_compare T) (key_compare_data T) k s)) /\
    (Forall (fun kv => key_compare T k (fst kv) (key_compare_data T) <> 0)
            (shape_inorder s') ->
     rb_tree_lookup fuel t k w' = Ok null w').
Proof.
  intros Hat Hnd Hfuel Hfound Hsingle Hpar Hnx Hcol.
  pose proof Hat as (Ht & HT & Hrep).
  set (cmp := key_compare T) in *. set (d := key_compare_data T) in *.
  destruct (rb_tree_node_remove_single w t T s fuel k nx true
              Hat Hnd Hfound Hsingle Hpar Hnx Hcol)
    as (w' & Hrun & Hat' & Hfl & Hz & Hu & _).
  destruct (rb_tree_node_remove_single w t T s fuel k nx false
              Hat Hnd Hfound Hsingle Hpar Hnx Hcol)
    as (w1 & Hrun1 & _ & _ & _ & Hu1 & _).
  fold cmp d in Hrun, Hat', Hfl, Hz, Hu, Hrun1.
  set (z := shape_find cmp d k s) in *.
  set (nz := shape_record cmp d k s) in *.
  set (s' := shape_unlink cmp d k (unlink_child nz) s) in *.
  assert (Hfind : rb_tree_find fuel t k null false false w = Ok z w)
    by (apply rb_tree_find_lookup_rep; assumption).
  assert (Hw1 : w1 = with_user (user w) w').
  { destruct (rb_tree_node_remove_notifying fuel t z w w1 T HT Hrun1)
      as (ny & _ & Hrun').
    rewrite Hrun in Hrun'. injection Hrun' as ->.
    destruct w1; cbn in Hu1 |- *. rewrite Hu1. reflexivity. }
  destruct (shape_unlink_lists cmp d k (unlink_child nz)
              (unlink_child_key nz) (unlink_child_value nz)
              (nodes w) s (root T) Hrep Hfound Hsingle)
    as (i1 & i2 & q1 & q2 & Hi & Hi' & Hq & Hq').
  fold nz z s' in Hi, Hi', Hq, Hq'.
  assert (Hdepth : (depth s' <= fuel)%nat).
  { pose proof (shape_unlink_depth cmp d k (unlink_child nz) s). unfold s'.
    lia. }
  set (T' := if N.eqb (parent nz) rb_null then with_root (child_of nz) T
             else T) in *.
  assert (HT' : T' = with_root (root T') T).
  { unfold T'. destruct (N.eqb _ _); [reflexivity|].
    symmetry. apply with_root_id. }
  assert (Hcd : key_compare T' = cmp /\ key_compare_data T' = d).
  { rewrite HT'. split; reflexivity. }
  exists w', (root T'), s'.
  split.
  { unfold rb_tree_remove. erewrite bind_ok by (apply handle_check_ok; exact Ht).
    erewrite bind_ok by exact Hfind.
    rewrite (not_sentinel_test _ Hfound). exact Hrun. }
  split.
  { unfold rb_tree_steal. erewrite bind_ok by (apply handle_check_ok; exact Ht).
    erewrite bind_ok by exact Hfind.
    rewrite (not_sentinel_test _ Hfound). rewrite Hrun1, Hw1. reflexivity. }
  rewrite <- HT'.
  split; [exact Hat'|].
  split; [rewrite Hq'; rewrite Hq in Hnd; eapply NoDup_remove_middle; exact Hnd|].
  split; [exists i1, i2; auto|].
  split.
  { intros Hord. unfold s'.
    eapply shape_unlink_ordered;
      first [ exact (unlink_child_key nz) | exact (unlink_child_value nz)
            | exact (unlink_child_left nz) | exact (unlink_child_right nz)
            | eassumption ]. }
  split.
  { rewrite (rb_tree_size_rep w' t T' s' fuel Hat' Hdepth). do 2 f_equal.
    rewrite !shape_count_length, Hi, Hi', !length_app. simpl. lia. }
  split; [exact Hu|]. split; [exact Hfl|]. split; [exact Hz|].
  intros Hnone. eapply rb_tree_lookup_absent; [exact Hat'|exact Hdepth|].
  destruct Hcd as [-> ->]. apply shape_find_none, Hnone.
Qed.

Lemma X15_sample_remove_key_1 :
  exists w',
    rb_tree_remove 2 1%N 1 sample_world = Ok tt w' /\
    user w' = [KeyRelease 1; ValueRelease 10] /\
    rb_tree_size 2 1%N w' = Ok 2 w' /\
    node_free_list w' = 3%N.
Proof.
  destruct (X15_remove_of_a_node_with_one_child sample_world 1%N sample_tree
              sample_shape 2 1 s_null_node)
    as (w' & r & s' & Hrun & _ & _ & _ & _ & _ & Hsize & Hu & Hfl & _).
  - vm_compute. repeat split; congruence.
  - vm_compute. repeat constructor; set_solver.
  - vm_compute. lia.
  - vm_compute. congruence.
  - left. reflexivity.
  - reflexivity.
  - reflexivity.
  - left. reflexivity.
  - exists w'. split; [exact Hrun|]. split; [exact Hu|].
    split; [exact Hsize|]. exact Hfl.
Defined.

(** ** Inserting a key and removing it again *)

Section InsertThenUnlink.

Variables (cmp : CompareDataFunc) (data k v : pointer) (a : addr).
Variable f : RBTreeNode -> RBTreeNode.
Hypothesis Hkk : cmp k k data = 0.

Implicit Types (m : gmap N RBTreeNode) (s : shape) (ip : addr).

Lemma shape_update_absent b g s :
  b ∉ shape_addrs s -> shape_update b g s = s.
Proof.
  induction s as [|l IHl c n r IHr]; simpl; [reflexivity|].
  rewrite elem_of_app, elem_of_cons. intros H.
  rewrite IHl, IHr by tauto.
  destruct (N.eqb b c) eqn:E; [|reflexivity].
  apply N.eqb_eq in E. tauto.
Qed.

Lemma rep_root m s r : rep m r s -> shape_root s = r.
Proof. destruct s; simpl; [congruence|]. intros (-> & _). reflexivity. Qed.

Lemma shape_record_insert s : forall ip,
  shape_find cmp data k s = rb_null ->
  (forall b, b ∈ shape_addrs s -> b <> rb_null) ->
  shape_record cmp data k (shape_insert cmp data k v a ip s)
  = mkNode rb_null rb_null (shape_parent cmp data k ip s) RED k v /\
  shape_above cmp data k ip (shape_insert cmp data k v a ip s)
  = shape_parent cmp data k ip s.
Proof.
  induction s as [|l IHl b n r IHr]; intros ip Habs Hnn.
  - simpl. rewrite Hkk. auto.
  - cbn [shape_insert shape_find shape_parent] in *.
    destruct (cmp k (key n) data <? 0) eqn:Elt.
    + cbn [shape_record shape_above].
      assert (key (if N.eqb (left n) rb_null then with_left a n else n)
              = key n) as -> by (destruct (N.eqb _ _); reflexivity).
      rewrite Elt. apply IHl; [exact Habs|]. intros c Hc. apply Hnn.
      simpl. set_solver.
    + destruct (cmp k (key n) data =? 0) eqn:Eeq.
      * exfalso. apply (Hnn b); [simpl; set_solver|exact Habs].
      * cbn [shape_record shape_above].
        assert (key (if N.eqb (right n) rb_null then with_right a n else n)
                = key n) as -> by (destruct (N.eqb _ _); reflexivity).
        rewrite Elt, Eeq. apply IHr; [exact Habs|]. intros c Hc. apply Hnn.
        simpl. set_solver.
Qed.

(** Taking the new leaf out again gives the shape back. *)
Lemma shape_unlink_insert m s : forall r ip,
  rep m r s -> shape_find cmp data k s = rb_null ->
  shape_unlink cmp data k f (shape_insert cmp data k v a ip s) = s.
Proof.
  induction s as [|l IHl b n r IHr]; intros r0 ip Hrep Habs.
  - simpl. rewrite Hkk. reflexivity.
  - destruct Hrep as (-> & Hnn & Hn & Hl & Hr).
    cbn [shape_insert shape_find] in *.
    destruct (cmp k (key n) data <? 0) eqn:Elt.
    + cbn [shape_unlink].
      assert (key (if N.eqb (left n) rb_null then with_left a n else n)
              = key n) as -> by (destruct (N.eqb _ _); reflexivity).
      rewrite Elt, (IHl _ b Hl Habs), (rep_root _ _ _ Hl).
      f_equal. destruct n as [nl nr np nc nk nv]. cbn.
      destruct (N.eqb nl rb_null); reflexivity.
    + destruct (cmp k (key n) data =? 0) eqn:Eeq; [congruence|].
      cbn [shape_unlink].
      assert (key (if N.eqb (right n) rb_null then with_right a n else n)
              = key n) as -> by (destruct (N.eqb _ _); reflexivity).
      rewrite Elt, Eeq, (IHr _ b Hr Habs), (rep_root _ _ _ Hr).
      f_equal. destruct n as [nl nr np nc nk nv]. cbn.
      destruct (N.eqb nr rb_null); reflexivity.
Qed.

Lemma shape_update_record b g s :
  (forall n, key (g n) = key n) -> b <> rb_null ->
  shape_record cmp data k (shape_update b g s)
  = (if N.eqb b (shape_find cmp data k s) then g (shape_record cmp data k s)
     else shape_record cmp data k s) /\
  (forall ip, shape_above cmp data k ip (shape_update b g s)
              = shape_above cmp data k ip s).
Proof.
  intros Hg Hb. induction s as [|l IHl c n r IHr].
  - simpl. rewrite (proj2 (N.eqb_neq _ _) Hb). auto.
  - cbn [shape_update shape_record shape_above shape_find].
    assert (key (if N.eqb b c then g n else n) = key n) as ->
        by (destruct (N.eqb b c); auto).
    destruct (_ <? 0); [split; [apply IHl|intros; apply IHl]|].
    destruct (_ =? 0); [auto|split; [apply IHr|intros; apply IHr]].
Qed.

(** What the descent for [k] meets in the tree [rb_tree_find] leaves behind
    after attaching the leaf and painting the root, and the tree that is left
    when the leaf is taken out again. *)
Lemma inserted_shape_facts m s r :
  rep m r s -> NoDup (shape_addrs s) -> (a ∉ shape_addrs s) ->
  a <> rb_null -> shape_find cmp data k s = rb_null ->
  let rt := match s with Leaf => a | Node _ b _ _ => b end in
  let s1 := shape_update rt (with_color BLACK)
              (shape_insert cmp data k v a rb_null s) in
  shape_find cmp data k s1 = a /\
  shape_record cmp data k s1
  = mkNode rb_null rb_null (shape_parent cmp data k rb_null s)
           (match s with Leaf => BLACK | Node _ _ _ _ => RED end) k v /\
  shape_above cmp data k rb_null s1 = shape_parent cmp data k rb_null s /\
  shape_unlink cmp data k f s1 = shape_update r (with_color BLACK) s.
Proof.
  intros Hrep Hnd Ha Hann Habs rt s1.
  assert (Hnn : forall b, b ∈ shape_addrs s -> b <> rb_null)
    by (intros b Hb; eapply rep_addrs_mapped; eassumption).
  assert (Hrt : rt <> rb_null).
  { unfold rt. destruct s; [exact Hann|]. apply Hnn. simpl. set_solver. }
  assert (Hfind : shape_find cmp data k
                    (shape_insert cmp data k v a rb_null s) = a)
    by (apply shape_insert_find; assumption).
  destruct (shape_record_insert s rb_null Habs Hnn) as (Hrec & Habove).
  destruct (shape_update_record rt (with_color BLACK)
              (shape_insert cmp data k v a rb_null s)
              (fun n => eq_refl) Hrt) as (Hrec1 & Habove1).
  fold s1 in Hrec1, Habove1.
  split; [unfold s1; rewrite shape_update_find by reflexivity; exact Hfind|].
  rewrite Hrec1, Habove1, Hfind, Hrec, Habove.
  destruct s as [|l b n r0].
  - unfold rt in *. rewrite N.eqb_refl. simpl in Hrep. subst r.
    split; [reflexivity|]. split; [reflexivity|].
    unfold s1. simpl. rewrite N.eqb_refl. simpl. rewrite Hkk. reflexivity.
  - unfold rt in *.
    assert (Hba : b <> a) by (intros ->; apply Ha; simpl; set_solver).
    rewrite (proj2 (N.eqb_neq _ _) Hba).
    split; [reflexivity|]. split; [reflexivity|].
    pose proof Hrep as (-> & Hbnn & Hn & Hl & Hr).
    destruct (shape_addrs_nodup_node _ _ _ _ Hnd)
      as (Hndl & Hndr & Hbl & Hbr & Hlr).
    assert (Hal : a ∉ shape_addrs l) by (intros ?; apply Ha; simpl; set_solver).
    assert (Har : a ∉ shape_addrs r0) by (intros ?; apply Ha; simpl; set_solver).
    unfold s1. cbn [shape_insert shape_find] in *.
    destruct (cmp k (key n) data <? 0) eqn:Elt.
    + destruct (shape_insert_addrs cmp data k v a l b Habs)
        as (l1 & l2 & H1 & H2);
        [intros c Hc; apply Hnn; simpl; set_solver|].
      cbn [shape_update]. rewrite N.eqb_refl.
      rewrite !(shape_update_absent b) by
        (first [exact Hbl | exact Hbr
               | rewrite H2; rewrite H1 in Hbl; set_solver]).
      cbn [shape_unlink].
      assert (key (with_color BLACK
                     (if N.eqb (left n) rb_null then with_left a n else n))
              = key n) as -> by (destruct (N.eqb _ _); reflexivity).
      rewrite Elt, (shape_unlink_insert m l _ b Hl Habs), (rep_root _ _ _ Hl).
      f_equal. destruct n as [nl nr np nc nk nv]. cbn.
      destruct (N.eqb nl rb_null); reflexivity.
    + destruct (cmp k (key n) data =? 0) eqn:Eeq; [congruence|].
      destruct (shape_insert_addrs cmp data k v a r0 b Habs)
        as (l1 & l2 & H1 & H2);
        [intros c Hc; apply Hnn; simpl; set_solver|].
      cbn [shape_update]. rewrite N.eqb_refl.
      rewrite !(shape_update_absent b) by
        (first [exact Hbl | exact Hbr
               | rewrite H2; rewrite H1 in Hbr; set_solver]).
      cbn [shape_unlink].
      assert (key (with_color BLACK
                     (if N.eqb (right n) rb_null then with_right a n else n))
              = key n) as -> by (destruct (N.eqb _ _); reflexivity).
      rewrite Elt, Eeq, (shape_unlink_insert m r0 _ b Hr Habs),
        (rep_root _ _ _ Hr).
      f_equal. destruct n as [nl nr np nc nk nv]. cbn.
      destruct (N.eqb nr rb_null); reflexivity.
Qed.

End InsertThenUnlink.

(** X16. Inserting a key that is not in the tree (where the insertion needs
    no rebalancing: the tree is empty or the node the leaf hangs below is
    BLACK) and removing it again gives the tree back: the handle and every
    node of the tree are as they were, but for the root, which
    [rb_tree_find] has painted BLACK; [key_release] has been called with the
    key and [value_release] with the value.  The node [a] that held the pair
    in between, a real node that is neither null nor the sentinel nor a node
    of the tree, is the head of the free list afterwards: it still holds the
    pair and its [left] link is the head the free list had before the
    removal. *)
Theorem X16_insert_then_remove_gives_the_tree_back {U : Type}
    (w : world U) (t : addr) (T : RBTree U) (s : shape) (fuel : nat)
    (k v : pointer) :
  tree_at w t T s -> NoDup (shape_addrs s) -> (depth s <= fuel)%nat ->
  allocatable w s ->
  shape_find (key_compare T) (key_compare_data T) k s = rb_null ->
  (s = Leaf \/
   exists n,
     nodes w !! shape_parent (key_compare T) (key_compare_data T) k rb_null s
     = Some n /\ color n = BLACK) ->
  key_compare T k k (key_compare_data T) = 0 ->
  exists wi w' a,
    rb_tree_insert fuel t k v w = Ok tt wi /\
    rb_tree_remove (S fuel) t k wi = Ok tt w' /\
    tree_at w' t T (shape_update (root T) (with_color BLACK) s) /\
    shape_inorder (shape_update (root T) (with_color BLACK) s)
    = shape_inorder s /\
    user w'
    = released (value_release T) v (released (key_release T) k (user w)) /\
    a <> NULL /\ a <> rb_null /\ (a ∉ shape_addrs s) /\
    (exists na, nodes wi !! a = Some na /\ key na = k /\ value na = v) /\
    rb_tree_lookup (S fuel) t k wi = Ok v wi /\
    node_free_list w' = a /\
    (exists nf, nodes w' !! a = Some nf /\ key nf = k /\ value nf = v /\
                left nf = node_free_list wi).
Proof.
  intros Hat Hnd Hfuel Halloc Habs Hblack Hkk.
  pose proof Hat as (Ht & HT & Hrep).
  assert (Hnn : forall b, b ∈ shape_addrs s -> b <> rb_null)
    by (intros b Hb; eapply rep_addrs_mapped; eassumption).
  destruct (rb_tree_find_attach w t T s fuel k v false
              Hat Hnd Hfuel Halloc Habs Hblack)
    as (a & wi & Hins & Hann & Haout & Hanull & Huser & (na & Hna & Hk & Hv)
        & Hat1).
  set (cmp := key_compare T) in *. set (d := key_compare_data T) in *.
  set (rt := match s with Leaf => a | Node _ b _ _ => b end) in *.
  set (s1 := shape_update rt (with_color BLACK)
               (shape_insert cmp d k v a rb_null s)) in *.
  set (T1 := with_root rt T) in *.
  destruct (inserted_shape_facts cmp d k v a
              (unlink_child (shape_record cmp d k s1)) Hkk
              (nodes w) s (root T) Hrep Hnd Haout Hann Habs)
    as (Hfind1 & Hrec1 & Habove1 & Hunl).
  fold rt s1 in Hfind1, Hrec1, Habove1, Hunl.
  assert (Hnd1 : NoDup (shape_addrs s1)).
  { unfold s1. rewrite shape_update_addrs.
    destruct (shape_insert_addrs cmp d k v a s rb_null Habs Hnn)
      as (l1 & l2 & H1 & H2).
    rewrite H2. rewrite H1 in Hnd, Haout.
    apply NoDup_insert_middle; assumption. }
  assert (Hdepth1 : (depth s1 <= S fuel)%nat).
  { unfold s1. rewrite shape_update_depth.
    pose proof (shape_insert_depth cmp d k v a s rb_null). lia. }
  assert (Hmap : still_mapped w wi).
  { eapply keeps_rb_tree_find; [..|exact Hins];
      first [exact still_mapped_refl | exact still_mapped_trans
            | exact still_mapped_store
            | intros; apply still_mapped_same_nodes]. }
  destruct (Hmap rb_null (proj1 Halloc)) as [nx Hnx].
  assert (Hfound1 : shape_find (key_compare T1) (key_compare_data T1) k s1
                    <> rb_null)
    by (change (shape_find cmp d k s1 <> rb_null); congruence).
  destruct (rb_tree_node_remove_single wi t T1 s1 (S fuel) k nx true
              Hat1 Hnd1 Hfound1)
    as (w' & Hrun & Hat' & Hfl & Hz & Hu & _);
    change (key_compare T1) with cmp in *;
    change (key_compare_data T1) with d in *.
  { rewrite Hrec1. left. reflexivity. }
  { rewrite Hrec1, Habove1. reflexivity. }
  { rewrite Hrec1. exact Hnx. }
  { rewrite Hrec1. destruct s; [right; left|left]; reflexivity. }
  rewrite Hrec1, Hfind1 in *. cbn [parent key value child_of left negb] in *.
  cbn [N.eqb rb_null Pos.eqb negb right] in *.
  exists wi, w', a.
  split.
  { unfold rb_tree_insert. mstep. erewrite bind_ok by exact Hins.
    reflexivity. }
  split.
  { unfold rb_tree_remove.
    erewrite bind_ok by (apply handle_check_ok; exact Ht).
    erewrite bind_ok
      by (apply (rb_tree_find_lookup_rep wi t T1 s1 (S fuel) k null
                   Hat1 Hdepth1)).
    change (key_compare T1) with cmp. change (key_compare_data T1) with d.
    rewrite Hfind1, (not_sentinel_test _ Hann). exact Hrun. }
  split.
  { rewrite Hunl in Hat'.
    replace T with (if N.eqb (shape_parent cmp d k rb_null s) rb_null
                    then with_root 1%N T1 else T1) at 1; [exact Hat'|].
    unfold T1, rt. destruct s as [|l b n r].
    - simpl in Hrep. simpl. destruct T; simpl in *. subst. reflexivity.
    - assert (Hp : shape_parent cmp d k rb_null (Node l b n r) <> rb_null)
        by (apply Hnn, shape_parent_in; discriminate).
      rewrite (proj2 (N.eqb_neq _ _) Hp).
      destruct Hrep as (<- & _). apply with_root_id. }
  split; [apply shape_update_inorder; intros; split; reflexivity|].
  split; [rewrite Hu, Huser; reflexivity|].
  split; [exact Hanull|]. split; [exact Hann|]. split; [exact Haout|].
  split; [exists na; auto|].
  split.
  { rewrite <- Hv.
    apply (rb_tree_lookup_present wi t T1 s1 (S fuel) k na Hat1 Hdepth1);
      change (key_compare T1) with cmp;
      change (key_compare_data T1) with d; rewrite Hfind1; assumption. }
  split; [exact Hfl|].
  eexists. split; [exact Hz|]. repeat split; reflexivity.
Qed.

Lemma X16_pair_insert_and_remove_3 :
  exists wi w' a,
    rb_tree_insert 2 1%N 3 30 pair_world = Ok tt wi /\
    rb_tree_remove 3 1%N 3 wi = Ok tt w' /\
    tree_at w' 1%N sample_tree pair_shape /\
    user w' = [KeyRelease 3; ValueRelease 30] /\
    a <> NULL /\ a <> rb_null /\ (a ∉ shape_addrs pair_shape) /\
    rb_tree_lookup 3 1%N 3 wi = Ok 30 wi /\
    node_free_list w' = a /\
    (exists nf, nodes w' !! a = Some nf /\ key nf = 3 /\ value nf = 30 /\
                left nf = node_free_list wi).
Proof.
  destruct (X16_insert_then_remove_gives_the_tree_back pair_world 1%N
              sample_tree pair_shape 2%nat 3 30)
    as (wi & w' & a & Hins & Hrem & Hat & _ & Hu & Hanull & Hann & Haout & _
        & Hlook & Hfl & Hnf).
  - exact pair_tree_at.
  - exact pair_shape_nodup.
  - simpl. lia.
  - exact pair_world_allocatable.
  - reflexivity.
  - right. exists pair_root. split; reflexivity.
  - reflexivity.
  - exists wi, w', a. split; [exact Hins|]. split; [exact Hrem|].
    split; [exact Hat|]. split; [exact Hu|]. split; [exact Hanull|].
    split; [exact Hann|]. split; [exact Haout|]. split; [exact Hlook|].
    split; [exact Hfl|]. exact Hnf.
Defined.

(** ** Preconditions, absent keys and the allocation scheme *)

(** X17. The [invariant] checks at the entry of the public functions: each of
    the ten operations on a tree rejects the null handle before it reads or
    writes anything, the three constructors reject a null comparator, and
    [rb_tree_map] rejects a null visitor, on any handle. *)
Theorem X17_null_arguments_fail_the_invariant {U : Type} (w : world U)
    (fuel : nat) (t : addr) (k v data closure : pointer)
    (ok ov : option pointer) (f : option (MappingMapFunc U))
    (kr vr : option (ReleaseNotify U)) :
  rb_tree_insert fuel NULL k v w = Err AssertFailed /\
  rb_tree_replace fuel NULL k v w = Err AssertFailed /\
  rb_tree_lookup fuel NULL k w = Err AssertFailed /\
  rb_tree_lookup_extended fuel NULL k ok ov w = Err AssertFailed /\
  rb_tree_size fuel NULL w = Err AssertFailed /\
  rb_tree_height fuel NULL w = Err AssertFailed /\
  rb_tree_map fuel NULL f closure w = Err AssertFailed /\
  rb_tree_remove fuel NULL k w = Err AssertFailed /\
  rb_tree_steal fuel NULL k w = Err AssertFailed /\
  rb_tree_release fuel NULL w = Err AssertFailed /\
  rb_tree_new None w = Err AssertFailed /\
  rb_tree_new_with_data None data w = Err AssertFailed /\
  rb_tree_new_full None data kr vr w = Err AssertFailed /\
  rb_tree_map fuel t None closure w = Err AssertFailed.
Proof.
  repeat split; try reflexivity.
  unfold rb_tree_map. destruct (N.eqb t NULL) eqn:E; reflexivity.
Qed.

(** X18. Removing or stealing a key that [rb_tree_lookup_extended] reports
    absent changes nothing: both calls return with the world they started
    in, whatever the store looks like; no notifier is called. *)
Theorem X18_remove_of_absent_key_changes_nothing {U : Type}
    (w : world U) (t : addr) (fuel : nat) (k x y : pointer) :
  rb_tree_lookup_extended fuel t k (Some x) (Some y) w
  = Ok (false, Some x, Some y) w ->
  rb_tree_remove fuel t k w = Ok tt w /\
  rb_tree_steal fuel t k w = Ok tt w.
Proof.
  intros H. unfold rb_tree_lookup_extended in H.
  apply bind_inv in H as (u & w1 & Hu & H).
  apply invariant_inv in Hu as (Hu & ->).
  apply bind_inv in H as (node & w1 & Hfind & H).
  pose proof (rb_tree_find_lookup_inv _ _ _ _ _ _ _ Hfind) as (-> & _).
  destruct (N.eqb node rb_null) eqn:En; cbn [negb] in H.
  2:{ apply bind_inv in H as (ok & w1 & _ & H).
      apply bind_inv in H as (ov & w2 & _ & H).
      apply ret_inv in H as (H & _). discriminate. }
  unfold rb_tree_remove, rb_tree_steal. rewrite Hu.
  erewrite !(bind_ok (invariant true)) by reflexivity.
  erewrite !bind_ok by exact Hfind.
  rewrite En. split; reflexivity.
Qed.

Lemma X18_sample_remove_absent_key_7 :
  rb_tree_remove 2 1%N 7 sample_world = Ok tt sample_world /\
  rb_tree_steal 2 1%N 7 sample_world = Ok tt sample_world.
Proof.
  apply (X18_remove_of_absent_key_changes_nothing sample_world 1%N 2 7 0 0).
  vm_compute. reflexivity.
Defined.

Section Allocation.

Context {U : Type}.
Implicit Types (w : world U) (m : gmap N RBTreeNode) (a h : addr)
  (L : list addr).

(** From one head the free list is one sequence of nodes. *)
Lemma free_chain_unique m L : forall a L',
  free_chain m a L -> free_chain m a L' -> L = L'.
Proof.
  induction L as [|b L IH]; intros a L' H H'.
  - simpl in H. subst a. destruct L' as [|b' L']; [reflexivity|].
    destruct H' as (_ & Hnn & _). congruence.
  - destruct H as (-> & Hnn & n & Hn & H).
    destruct L' as [|b' L']; [simpl in H'; congruence|].
    destruct H' as (<- & _ & n' & Hn' & H').
    assert (n' = n) by congruence. subst n'.
    f_equal. eapply IH; eassumption.
Qed.

Lemma free_chain_suffix m L1 : forall a L2 b,
  free_chain m a (L1 ++ b :: L2) -> free_chain m b (b :: L2).
Proof.
  induction L1 as [|c L1 IH]; intros a L2 b H.
  - simpl in H |- *. destruct H as (-> & H). auto.
  - destruct H as (-> & _ & n & _ & H). eapply IH. exact H.
Qed.

(** No node is on the free list twice. *)
Lemma free_chain_nodup m L : forall a, free_chain m a L -> NoDup L.
Proof.
  induction L as [|b L IH]; intros a H; [constructor|].
  pose proof H as (-> & Hnn & n & Hn & Hc).
  constructor; [|eapply IH; exact Hc].
  intros Hin. apply list_elem_of_split in Hin as (L1 & L2 & ->).
  pose proof (free_chain_suffix _ _ _ _ _ Hc) as Hs.
  pose proof (free_chain_unique _ _ _ _ H Hs) as E.
  apply (f_equal length) in E. rewrite !length_cons, length_app in E.
  simpl in E. lia.
Qed.

End Allocation.

(** X19. [rb_tree_node_new] takes the node at the head of the free list when
    there is one, and the rest of the list stays the free list; with an empty
    free list it takes storage at which nothing is stored. Either way the
    node is not null, it is initialised with sentinel children and the given
    parent, colour, key and value, and no other node, no handle and no client
    state is touched. *)
Theorem X19_node_new_pops_the_free_list {U : Type} (w : world U)
    (k v : pointer) (p : addr) (c : RBTreeNodeColor) (L : list addr) :
  free_chain (nodes w) (node_free_list w) L ->
  exists a w',
    rb_tree_node_new k v p c w = Ok a w' /\
    a <> NULL /\
    nodes w' = <[a := mkNode rb_null rb_null p c k v]> (nodes w) /\
    trees w' = trees w /\ user w' = user w /\
    free_chain (nodes w') (node_free_list w') (tail L) /\
    match L with
    | [] => nodes w !! a = None
    | h :: _ => a = h
    end.
Proof.
  intros Hc. unfold rb_tree_node_new.
  erewrite bind_ok by reflexivity.
  destruct L as [|h L].
  - simpl in Hc. rewrite Hc, N.eqb_refl.
    erewrite (bind_ok new_struct_node) by reflexivity. cbv beta.
    match goal with
    | |- context [fresh ?X] =>
        pose proof (is_fresh X) as Hf; revert Hf; generalize (fresh X)
    end.
    intros a Hf.
    erewrite bind_ok by reflexivity.
    exists a. eexists. split; [reflexivity|].
    cbn [nodes trees user node_free_list].
    split; [intros ->; apply Hf; set_solver|].
    split; [reflexivity|]. split; [reflexivity|]. split; [reflexivity|].
    split; [exact Hc|].
    apply not_elem_of_dom. intros Hin. apply Hf. set_solver.
  - pose proof (free_chain_nodup _ _ _ Hc) as Hnd.
    apply NoDup_cons in Hnd as (HhL & _).
    destruct Hc as (Hh & Hnn & n & Hn & Hc).
    rewrite Hh in *.
    rewrite (proj2 (N.eqb_neq _ _) Hnn).
    erewrite bind_ok.
    2:{ erewrite bind_ok by (apply get_left_ok; exact Hn).
        erewrite bind_ok by reflexivity. reflexivity. }
    erewrite bind_ok by reflexivity.
    exists h. eexists. split; [reflexivity|].
    cbn [nodes trees user node_free_list tail].
    split; [exact Hnn|].
    split; [reflexivity|]. split; [reflexivity|]. split; [reflexivity|].
    split; [|reflexivity].
    eapply free_chain_frame; [exact Hc|].
    intros b Hb. apply lookup_insert_ne. intros ->. auto.
Qed.

Lemma X19_node_new_after_a_removal :
  exists a w',
    rb_tree_node_new 5 50 rb_null RED six_inserts_one_remove_world
    = Ok a w' /\ a = 4%N /\ node_free_list w' = NULL.
Proof.
  destruct (X19_node_new_pops_the_free_list six_inserts_one_remove_world
              5 50 rb_null RED [4%N])
    as (a & w' & Hrun & _ & _ & _ & _ & Hc & Ha).
  - vm_compute. repeat split; try congruence. eexists. split; reflexivity.
  - exists a, w'. split; [exact Hrun|]. split; [exact Ha|exact Hc].
Defined.

(** X20. [rb_tree_map] walks the stored tree in order (left subtree, node,
    right subtree): the visitor is called on the pairs of the in-order
    sequence one after the other, up to and including the first pair at which
    it asks to stop, and on nothing after that; the nodes, the handles and
    the free list are left as they were. *)
Theorem X20_map_walks_in_order_until_stop {U : Type} (w : world U)
    (t : addr) (T : RBTree U) (s : shape) (fuel : nat)
    (f : MappingMapFunc U) (closure : pointer) :
  tree_at w t T s ->
  (depth s <= fuel)%nat ->
  rb_tree_map fuel t (Some f) closure w
  = Ok tt (with_user (snd (visit_all f closure (shape_inorder s) (user w))) w).
Proof.
  intros Hat Hfuel. apply (rb_tree_map_rep w t T s); assumption.
Qed.

(** Visiting the sample tree with a visitor that stops at key 2: keys 1 and
    2 are seen, key 3 is not. *)
Lemma X20_sample_map_stops_at_2 :
  rb_tree_map 2 1%N (Some (log_visit (Z.eqb 2))) 5 sample_world
  = Ok tt (with_user [Visit 1 10 5; Visit 2 20 5] sample_world).
Proof.
  apply (X20_map_walks_in_order_until_stop sample_world 1%N sample_tree
           sample_shape 2%nat (log_visit (Z.eqb 2)) 5).
  - exact sample_tree_at.
  - simpl. lia.
Defined.
